(** * zrepl: replication planner, step engine and batched snapshot destroy

    A shallow embedding of
    - [internal/replication/logic] (the per-filesystem planner
      [Filesystem.doPlanning], the conflict auto-resolver
      [tryAutoresolveConflict], [Step.TargetEquals], [Step.ReportInfo],
      [Step.sendRecv]), and
    - [internal/zfs] (the batched destroy entry point [doDestroy] with
      [buildBatches], [tryBatch] and [doDestroyBatchedRec]),
    followed by the properties established about them.

    The development goes on with the planner across filesystems
    ([Planner.doPlanning], [Plan], [WaitForConnectivity], [PlanFS]), the run
    of a step ([doReplication]), the destroyer behind
    [ZFSDestroyFilesystemVersions], and three smaller parts: the names of
    [NoFitBehavior] (package base2bufpool), [groupSnapshots] (package monitor)
    and [NewKeepGrid] (package pruning).

    Conventions.
    - A Go function that can panic returns an [outcome]; a Go result tuple
      [(x, err)] is a pair whose second component is an [option error]
      ([None] is Go's [nil]).
    - A [*pdu.FilesystemVersion] is an [option VersionPtr]: [None] is the nil
      pointer, [Some p] carries the address of the pointee next to the
      (immutable) pointee, so that Go's pointer comparison [==] is the
      comparison of addresses.
    - Endpoints are records of functions from requests to responses. *)

From Stdlib Require Import ZArith List String Ascii Bool Lia Permutation Sorted.
From Stdlib Require Import DecimalString.
From stdpp Require Import base gmap strings.
Import ListNotations.

Local Open Scope Z_scope.
Local Open Scope string_scope.
Local Open Scope list_scope.

(** ** Outcomes of Go calls *)

Inductive outcome (A : Type) : Type :=
| Returns (a : A)
| Panics (msg : string).
Arguments Returns {A} a.
Arguments Panics {A} msg.

(** ** Package pdu: the protocol data units the planner handles *)

Module pdu.

Inductive FilesystemVersion_VersionType : Set :=
| FilesystemVersion_Snapshot
| FilesystemVersion_Bookmark.

Record FilesystemVersion : Set := mkFilesystemVersion {
  Type_ : FilesystemVersion_VersionType;
  Name : string;
  Guid : Z;
  CreateTXG : Z;
  Creation : string
}.

(** A non-nil [*FilesystemVersion]. *)
Record VersionPtr : Set := mkVersionPtr {
  addr : nat;
  deref : FilesystemVersion
}.

Record Filesystem : Set := mkFilesystem {
  Path : string;
  ResumeToken : string;
  IsPlaceholder : bool
}.

Definition VersionType_eqb (a b : FilesystemVersion_VersionType) : bool :=
  match a, b with
  | FilesystemVersion_Snapshot, FilesystemVersion_Snapshot => true
  | FilesystemVersion_Bookmark, FilesystemVersion_Bookmark => true
  | _, _ => false
  end.

(** [sfsv.Type == pdu.FilesystemVersion_Snapshot] *)
Definition isSnapshot (v : VersionPtr) : bool :=
  VersionType_eqb (Type_ (deref v)) FilesystemVersion_Snapshot.

(** Go's [p == q] on two [*FilesystemVersion]. *)
Definition ptr_eqb (p q : option VersionPtr) : bool :=
  match p, q with
  | None, None => true
  | Some a, Some b => Nat.eqb (addr a) (addr b)
  | _, _ => false
  end.

(** Modelled from the spec: the getter [GetGuid] of a version pointer belongs
    to the declarations of package pdu, which are not embedded here.
    [TargetEquals] calls it on [s.from], which may be nil: as every generated
    getter it accepts a nil receiver and then returns the zero value, the
    GUID being an unsigned 64-bit integer. *)
Definition GetGuid (p : option VersionPtr) : Z :=
  match p with
  | None => 0
  | Some v => Guid (deref v)
  end.

End pdu.
Import pdu.

(** ** Package zfs: the decoded resume token *)

Module zfs_token.

(** The fields of [zfs.ResumeToken] the planner reads. *)
Record ResumeToken : Set := mkResumeToken {
  HasFromGUID : bool;
  HasToGUID : bool;
  FromGUID : Z;
  ToGUID : Z;
  ToName : string
}.

End zfs_token.
Import zfs_token.

(** ** Package logic: errors *)

(** The error values the planner creates or inspects.  The three conflict
    types live in package diff; of [ConflictNoCommonAncestor] the planner
    reads both sorted lists, the payload of the other two is never read. *)
Inductive error : Type :=
| errorString (msg : string)
| wrapError (prefix : string) (err : error)
| ErrResumeTokenToGuidNotFound (toguid : Z) (toname : string)
| ConflictNoCommonAncestor (SortedSenderVersions SortedReceiverVersions : list VersionPtr)
| ConflictDiverged (CommonAncestor : VersionPtr) (SenderOnly ReceiverOnly : list VersionPtr)
| ConflictMostRecentSnapshotAlreadyPresent (SortedSenderVersions SortedReceiverVersions : list VersionPtr).

(** [errors.As(conflict, &errMostRecent)]: walk the [Unwrap] chain. *)
Fixpoint As_ConflictMostRecentSnapshotAlreadyPresent (e : error) : bool :=
  match e with
  | ConflictMostRecentSnapshotAlreadyPresent _ _ => true
  | wrapError _ inner => As_ConflictMostRecentSnapshotAlreadyPresent inner
  | _ => false
  end.

(** [errors.As(conflict, &noCommonAncestor)]: the sender and receiver lists of
    the first [*ConflictNoCommonAncestor] in the chain. *)
Fixpoint As_ConflictNoCommonAncestor (e : error)
  : option (list VersionPtr * list VersionPtr) :=
  match e with
  | ConflictNoCommonAncestor s r => Some (s, r)
  | wrapError _ inner => As_ConflictNoCommonAncestor inner
  | _ => None
  end.

(** ** Policy *)

(** [InitialReplicationAutoResolution] is an integer type with three named
    constants; every other value reaches the [default] arm of the switch. *)
Inductive InitialReplicationAutoResolution : Set :=
| InitialReplicationAutoResolutionMostRecent
| InitialReplicationAutoResolutionAll
| InitialReplicationAutoResolutionFail
| InitialReplicationAutoResolutionOther (raw : Z).

Record ConflictResolution : Set := mkConflictResolution {
  InitialReplication : InitialReplicationAutoResolution
}.

(** ** tryAutoresolveConflict *)

(** The backwards scan for the most recent snapshot:
    [for n := len(l) - 1; n >= 0; n-- { if l[n].Type == Snapshot { ...; break } }]. *)
Fixpoint mostRecentSnap (l : list VersionPtr) : option VersionPtr :=
  match l with
  | [] => None
  | v :: rest =>
      match mostRecentSnap rest with
      | Some s => Some s
      | None => if isSnapshot v then Some v else None
      end
  end.

(** The forward scan of policy [All]: [path = append(path, l[n])] for every
    snapshot. *)
Fixpoint appendSnapshots (path : list (option VersionPtr)) (l : list VersionPtr)
  : list (option VersionPtr) :=
  match l with
  | [] => path
  | v :: rest =>
      if isSnapshot v then appendSnapshots (path ++ [Some v]) rest
      else appendSnapshots path rest
  end.

Definition tryAutoresolveConflict (conflict : error) (policy : ConflictResolution)
  : outcome (list (option VersionPtr) * option error) :=
  if As_ConflictMostRecentSnapshotAlreadyPresent conflict then
    Returns ([], None)
  else
    match As_ConflictNoCommonAncestor conflict with
    | Some (SortedSenderVersions, []) =>
        match SortedSenderVersions with
        | [] => Returns ([], Some (errorString "no snapshots available on sender side"))
        | _ :: _ =>
            match InitialReplication policy with
            | InitialReplicationAutoResolutionMostRecent =>
                Returns ([None; mostRecentSnap SortedSenderVersions], None)
            | InitialReplicationAutoResolutionAll =>
                Returns (appendSnapshots [None] SortedSenderVersions, None)
            | InitialReplicationAutoResolutionFail =>
                Returns ([], Some (errorString
                  "automatic conflict resolution for initial replication is disabled in config"))
            | InitialReplicationAutoResolutionOther _ =>
                Panics "unimplemented"
            end
        end
    | _ => Returns ([], Some conflict)
    end.

(** ** Requests, responses and endpoints *)

(** The replication options are forwarded to both endpoints and never
    inspected by the planner. *)
Definition ReplicationConfig : Set := string.

(** An [io.ReadCloser] carrying a send stream. *)
Definition ReadCloser : Set := list Byte.byte.

Record ListFilesystemVersionsReq : Set := mkListFilesystemVersionsReq {
  ListFilesystemVersionsReq_Filesystem : string
}.

Record ListFilesystemVersionsRes : Set := mkListFilesystemVersionsRes {
  Versions : list VersionPtr
}.

(** [res.GetVersions()], nil-safe. *)
Definition GetVersions (res : option ListFilesystemVersionsRes) : list VersionPtr :=
  match res with
  | None => []
  | Some r => Versions r
  end.

Record SendReq : Set := mkSendReq {
  SendReq_Filesystem : string;
  SendReq_From : option VersionPtr;
  SendReq_To : option VersionPtr;
  SendReq_ResumeToken : string;
  SendReq_ReplicationConfig : ReplicationConfig
}.

Record SendRes : Set := mkSendRes {
  UsedResumeToken : bool;
  SendRes_ExpectedSize : Z
}.

Record SendDryReq : Set := mkSendDryReq {
  SendDryReq_Items : list SendReq;
  Concurrency : Z
}.

Record SendDryRes : Set := mkSendDryRes {
  SendDryRes_Items : list SendRes
}.

Record SendCompletedReq : Set := mkSendCompletedReq {
  OriginalReq : SendReq
}.

Record ReceiveReq : Set := mkReceiveReq {
  ReceiveReq_Filesystem : string;
  ReceiveReq_To : option VersionPtr;
  ClearResumeToken : bool;
  ReceiveReq_ReplicationConfig : ReplicationConfig
}.

(** The [Sender] interface: what each call answers to a request. *)
Record Sender : Type := mkSender {
  Sender_ListFilesystemVersions :
    ListFilesystemVersionsReq -> option ListFilesystemVersionsRes * option error;
  Send : SendReq -> option SendRes * option ReadCloser * option error;
  SendDry : SendDryReq -> option SendDryRes * option error;
  SendCompleted : SendCompletedReq -> option error
}.

(** The [Receiver] interface.  [Receive] answers with the number of bytes it
    read from the stream and its error. *)
Record Receiver : Type := mkReceiver {
  Receiver_ListFilesystemVersions :
    ListFilesystemVersionsReq -> option ListFilesystemVersionsRes * option error;
  Receive : ReceiveReq -> ReadCloser -> Z * option error
}.

Record PlannerPolicy : Set := mkPlannerPolicy {
  policy_ConflictResolution : ConflictResolution;
  policy_ReplicationConfig : ReplicationConfig;
  SizeEstimationConcurrency : Z
}.

(** ** Filesystem and Step *)

Record Filesystem : Type := mkFilesystemPlan {
  fs_sender : Sender;
  fs_receiver : Receiver;
  policy : PlannerPolicy;
  fs_Path : string;
  receiverFS : option pdu.Filesystem;   (* may be nil *)
  senderFS : pdu.Filesystem;            (* never nil *)
  promBytesReplicated : option nat      (* the counter's identity, or nil *)
}.

Record Step : Type := mkStepRecord {
  sender : Sender;
  receiver : Receiver;
  parent : Filesystem;
  from : option VersionPtr;             (* may be nil, indicating full send *)
  to : option VersionPtr;
  resumeToken : string;                 (* empty means no resume token *)
  expectedSize : Z;                     (* 0 means no size estimate *)
  byteCounter : option Z                (* nil initially; else its Count() *)
}.

(** The [driver.FS] and [driver.Step] interface values: one of this package's
    implementations, or some other type. *)
Inductive driver_FS : Type :=
| driver_FS_Filesystem (g : Filesystem)
| driver_FS_other.

Inductive driver_Step : Type :=
| driver_Step_Step (t : Step)
| driver_Step_other.

Definition EqualToPreviousAttempt (f : Filesystem) (other : driver_FS) : bool :=
  match other with
  | driver_FS_other => false
  | driver_FS_Filesystem g => String.eqb (fs_Path f) (fs_Path g)
  end.

Definition TargetEquals (s : Step) (other : driver_Step) : outcome bool :=
  match other with
  | driver_Step_other => Returns false
  | driver_Step_Step t =>
      if negb (EqualToPreviousAttempt (parent s) (driver_FS_Filesystem (parent t))) then
        Panics "Step interface promise broken: parent filesystems must be same"
      else
        Returns (Z.eqb (GetGuid (from s)) (GetGuid (from t))
                 && Z.eqb (GetGuid (to s)) (GetGuid (to t)))
  end.

Record StepInfo : Set := mkStepInfo {
  From : string;
  To : string;
  Resumed : bool;
  BytesExpected : Z;
  BytesReplicated : Z
}.

Section ReportInfo.

(** [RelName] is a method of [*pdu.FilesystemVersion] whose declaration is
    not embedded here; [ReportInfo] applies it to [s.to] unguarded. *)
Variable RelName : option VersionPtr -> string.

Definition ReportInfo (s : Step) : StepInfo :=
  let byteCounter_ :=
    match byteCounter s with
    | Some count => count
    | None => 0
    end in
  let from_ :=
    match from s with
    | Some v => RelName (Some v)
    | None => ""
    end in
  {| From := from_;
     To := RelName (to s);
     Resumed := negb (String.eqb (resumeToken s) "");
     BytesExpected := expectedSize s;
     BytesReplicated := byteCounter_ |}.

End ReportInfo.

(** ** Filesystem.doPlanning *)

Definition needReceiverVersions (fs : Filesystem) : bool :=
  match receiverFS fs with
  | Some r => negb (IsPlaceholder r)
  | None => false
  end.

(** Both listings run in an errgroup, the receiver's only when its versions
    are needed; [Wait] hands back the first error.  When both calls fail the
    group keeps whichever error arrived first; the sender's is taken here. *)
Definition listBothVersions (fs : Filesystem)
  : (option ListFilesystemVersionsRes * option ListFilesystemVersionsRes) * option error :=
  let req := {| ListFilesystemVersionsReq_Filesystem := fs_Path fs |} in
  let '(sresp, serr) := Sender_ListFilesystemVersions (fs_sender fs) req in
  let '(rresp, rerr) :=
    if needReceiverVersions fs
    then Receiver_ListFilesystemVersions (fs_receiver fs) req
    else (None, None) in
  match serr, rerr with
  | Some e, _ => ((None, match rerr with None => rresp | Some _ => None end),
                  Some (wrapError "sender: " e))
  | None, Some e => ((sresp, None), Some (wrapError "receiver: " e))
  | None, None => ((sresp, rresp), None)
  end.

(** A step literal [&Step{parent: fs, sender: fs.sender, receiver: fs.receiver,
    from: ..., to: ..., resumeToken: ...}]; the other fields keep their zero
    values. *)
Definition newStep (fs : Filesystem) (from_ to_ : option VersionPtr) (token : string) : Step :=
  {| sender := fs_sender fs;
     receiver := fs_receiver fs;
     parent := fs;
     from := from_;
     to := to_;
     resumeToken := token;
     expectedSize := 0;
     byteCounter := None |}.

Definition buildSendRequest (s : Step) : SendReq :=
  {| SendReq_Filesystem := fs_Path (parent s);
     SendReq_From := from s;
     SendReq_To := to s;
     SendReq_ResumeToken := resumeToken s;
     SendReq_ReplicationConfig := policy_ReplicationConfig (policy (parent s)) |}.

(** [for i := range resp.Items { steps[i].expectedSize = resp.Items[i].GetExpectedSize() }];
    [None] when an index leaves [steps]. *)
Fixpoint setExpectedSizes (steps : list Step) (items : list SendRes) : option (list Step) :=
  match items, steps with
  | [], _ => Some steps
  | _ :: _, [] => None
  | item :: items', s :: steps' =>
      match setExpectedSizes steps' items' with
      | None => None
      | Some rest =>
          Some ({| sender := sender s; receiver := receiver s; parent := parent s;
                   from := from s; to := to s; resumeToken := resumeToken s;
                   expectedSize := SendRes_ExpectedSize item;
                   byteCounter := byteCounter s |} :: rest)
      end
  end.

(** The steps are updated in place; the error is the one of [SendDry]. *)
Definition updateSizeEstimates (fs : Filesystem) (steps : list Step)
  : outcome (list Step * option error) :=
  let req := {| SendDryReq_Items := map buildSendRequest steps;
                Concurrency := SizeEstimationConcurrency (policy fs) |} in
  match SendDry (fs_sender fs) req with
  | (_, Some err) => Returns (steps, Some err)
  | (None, None) => Panics "invalid memory address or nil pointer dereference"
  | (Some resp, None) =>
      match setExpectedSizes steps (SendDryRes_Items resp) with
      | Some steps' => Returns (steps', None)
      | None => Panics "index out of range"
      end
  end.

(** The end of [doPlanning]: no estimate is asked for an empty plan, and an
    error of the estimate is logged and dropped. *)
Definition withSizeEstimates (fs : Filesystem) (steps : list Step)
  : outcome (list Step * option error) :=
  match steps with
  | [] => Returns (steps, None)
  | _ :: _ =>
      match updateSizeEstimates fs steps with
      | Panics msg => Panics msg
      | Returns (steps', _) => Returns (steps', None)
      end
  end.

(** The scan of the sorted sender versions for the token's versions: the
    state is [(fromVersion, toVersion, toVersionIdx)], [idx] the index of the
    head of [sfsvs]. *)
Fixpoint findResumeVersions (resumeToken_ : ResumeToken) (sfsvs : list VersionPtr) (idx : nat)
    (fromVersion toVersion : option VersionPtr) (toVersionIdx : nat)
  : option VersionPtr * option VersionPtr * nat :=
  match sfsvs with
  | [] => (fromVersion, toVersion, toVersionIdx)
  | sfsv :: rest =>
      let fromVersion' :=
        if HasFromGUID resumeToken_ && Z.eqb (Guid (deref sfsv)) (FromGUID resumeToken_) then
          match fromVersion with
          | Some f => if isSnapshot f then fromVersion (* prefer snapshots *) else Some sfsv
          | None => Some sfsv
          end
        else fromVersion in
      let '(toVersion', toVersionIdx') :=
        if HasToGUID resumeToken_ && Z.eqb (Guid (deref sfsv)) (ToGUID resumeToken_)
           && isSnapshot sfsv
        then (Some sfsv, idx)
        else (toVersion, toVersionIdx) in
      findResumeVersions resumeToken_ rest (S idx) fromVersion' toVersion' toVersionIdx'
  end.

(** [for i := 0; i < len(l)-1; i++ { steps = append(steps, &Step{from: l[i], to: l[i+1]}) }] *)
Fixpoint incrementalSteps (fs : Filesystem) (l : list VersionPtr) : list Step :=
  match l with
  | a :: ((b :: _) as rest) => newStep fs (Some a) (Some b) "" :: incrementalSteps fs rest
  | _ => []
  end.

(** The loop over the incremental path; [pathLast] is [path[len(path)-1]] of
    the whole path. *)
Fixpoint pathSteps (fs : Filesystem) (oneStep : bool) (pathLast : option VersionPtr)
    (path : list (option VersionPtr)) : list Step :=
  match path with
  | from_ :: ((to_ :: _) as rest) =>
      let sendStream :=
        match from_ with
        | Some f => oneStep && isSnapshot f
        | None => false
        end in
      if sendStream then [newStep fs from_ pathLast ""]
      else newStep fs from_ to_ "" :: pathSteps fs oneStep pathLast rest
  | _ => []
  end.

(** The [switch] over [len(path)]. *)
Definition stepsOfPath (fs : Filesystem) (oneStep : bool) (path : list (option VersionPtr))
  : outcome (list Step) :=
  match path with
  | [] => Returns []
  | [_] => Panics "len(path) must be two for incremental repl, and initial repl must start with nil"
  | _ :: _ :: _ => Returns (pathSteps fs oneStep (List.last path None) path)
  end.

Section Planning.

(** The declarations of package diff and of [zfs.ParseResumeToken] are not
    embedded here: the planner is embedded over what they compute. *)
Variable IncrementalPath :
  list VersionPtr -> list VersionPtr -> list (option VersionPtr) * option error.
Variable SortVersionListByCreateTXGThenBookmarkLTSnapshot :
  list VersionPtr -> list VersionPtr.
Variable ParseResumeToken : string -> option ResumeToken * option error.

(** The branch [resumeToken != nil]. *)
Definition resumeSteps (fs : Filesystem) (oneStep : bool) (resumeTokenRaw : string)
    (resumeToken_ : ResumeToken) (sfsvs0 : list VersionPtr)
  : list Step * option error :=
  let sfsvs := SortVersionListByCreateTXGThenBookmarkLTSnapshot sfsvs0 in
  let '(fromVersion, toVersion, toVersionIdx) :=
    findResumeVersions resumeToken_ sfsvs 0 None None 0 in
  match toVersion with
  | None =>
      ([], Some (ErrResumeTokenToGuidNotFound (ToGUID resumeToken_) (ToName resumeToken_)))
  | Some _ =>
      if ptr_eqb fromVersion toVersion then
        ([], Some (errorString
           "resume token `fromguid` and `toguid` match same version on sener"))
      else
        let resumeStep := newStep fs fromVersion toVersion resumeTokenRaw in
        let remainingSFSVs := List.filter isSnapshot (skipn toVersionIdx sfsvs) in
        if oneStep && Nat.ltb 1 (length remainingSFSVs) then
          let lastIdx := (length remainingSFSVs - 1)%nat in
          ([resumeStep;
            newStep fs (nth_error remainingSFSVs 0) (nth_error remainingSFSVs lastIdx) ""],
           None)
        else
          (resumeStep :: incrementalSteps fs remainingSFSVs, None)
  end.

(** The branch [resumeToken == nil]. *)
Definition pathPlan (fs : Filesystem) (oneStep : bool) (rfsvs sfsvs : list VersionPtr)
  : outcome (list Step * option error) :=
  let '(path0, conflict0) := IncrementalPath rfsvs sfsvs in
  let resolved :=
    match conflict0 with
    | Some c => tryAutoresolveConflict c (policy_ConflictResolution (policy fs))
    | None => Returns (path0, None)
    end in
  match resolved with
  | Panics msg => Panics msg
  | Returns (_, Some conflict) => Returns ([], Some conflict)
  | Returns (path, None) =>
      match stepsOfPath fs oneStep path with
      | Panics msg => Panics msg
      | Returns steps => Returns (steps, None)
      end
  end.

Definition doPlanning (fs : Filesystem) (oneStep : bool)
  : outcome (list Step * option error) :=
  if IsPlaceholder (senderFS fs) then
    match receiverFS fs with
    | Some r =>
        if negb (IsPlaceholder r) then
          Returns ([], Some (errorString
            "sender filesystem is placeholder, but receiver filesystem is not"))
        else Returns ([], None)
    | None => Returns ([], None)
    end
  else
    match listBothVersions fs with
    | (_, Some err) => Returns ([], Some err)
    | ((sresp, rresp), None) =>
        let sfsvs := GetVersions sresp in
        if Nat.ltb (length sfsvs) 1 then
          Returns ([], Some (errorString "sender does not have any versions"))
        else
          let rfsvs := if needReceiverVersions fs then GetVersions rresp else [] in
          let decoded :=
            match receiverFS fs with
            | Some r =>
                if negb (String.eqb (pdu.ResumeToken r) "")
                then
                  let '(tok, err) := ParseResumeToken (pdu.ResumeToken r) in
                  (pdu.ResumeToken r, tok, err)
                else ("", None, None)
            | None => ("", None, None)
            end in
          let '(resumeTokenRaw, resumeToken_, err) := decoded in
          match err with
          | Some e => Returns ([], Some e)
          | None =>
              let planned :=
                match resumeToken_ with
                | Some tok => Returns (resumeSteps fs oneStep resumeTokenRaw tok sfsvs)
                | None => pathPlan fs oneStep rfsvs sfsvs
                end in
              match planned with
              | Panics msg => Panics msg
              | Returns (_, Some e) => Returns ([], Some e)
              | Returns (steps, None) => withSizeEstimates fs steps
              end
          end
    end.

End Planning.

(** ** Step execution *)

(** What an execution leaves behind: the endpoint calls in the order they
    were made, and, for each Prometheus counter, by identity, the amounts it
    was asked to add, in order.  A counter is a [float64] of the Prometheus
    library: its value and the conversion [float64(n)] of an amount are not
    computed here, only the calls of [Add] are kept. *)
Inductive Call : Type :=
| CallSend (sr : SendReq)
| CallReceive (rr : ReceiveReq) (stream : ReadCloser)
| CallSendCompleted (r : SendCompletedReq)
| CallBodyClose (stream : ReadCloser).

Record World : Type := mkWorld {
  calls : list Call;
  counters : gmap nat (list Z)
}.

Definition logCall (c : Call) (w : World) : World :=
  {| calls := calls w ++ [c]; counters := counters w |}.

(** [s.parent.promBytesReplicated.Add(float64(n))] when the counter is not
    nil: one more call of [Add], for the amount [n]. *)
Definition addBytesReplicated (fs : Filesystem) (n : Z) (w : World) : World :=
  match promBytesReplicated fs with
  | None => w
  | Some c =>
      {| calls := calls w;
         counters := <[c := default [] (counters w !! c) ++ [n]]> (counters w) |}
  end.

(** [s.WithByteCounter(r)], the counter [r] standing at [count]; also the
    step while [r] counts on. *)
Definition WithByteCounter (s : Step) (count : Z) : Step :=
  {| sender := sender s; receiver := receiver s; parent := parent s;
     from := from s; to := to s; resumeToken := resumeToken s;
     expectedSize := expectedSize s;
     byteCounter := Some count |}.

(** The step is updated in place: the result carries the step as the call
    leaves it.  The two deferred calls run on every path that installed the
    counter, the counter update before the close of the stream. *)
Definition sendRecv (s : Step) (sr : SendReq) (w : World) : Step * World * option error :=
  let w := logCall (CallSend sr) w in
  match Send (sender s) sr with
  | (_, _, Some err) => (s, w, Some err)
  | (None, _, None) => (s, w, Some (errorString "send request returned nil send result"))
  | (Some _, None, None) =>
      (s, w, Some (errorString
         "send request did not return a stream, broken endpoint implementation"))
  | (Some sres, Some stream, None) =>
      let s := WithByteCounter s 0 in
      let rr := {| ReceiveReq_Filesystem := fs_Path (parent s);
                   ReceiveReq_To := SendReq_To sr;
                   ClearResumeToken := negb (UsedResumeToken sres);
                   ReceiveReq_ReplicationConfig :=
                     policy_ReplicationConfig (policy (parent s)) |} in
      let w := logCall (CallReceive rr stream) w in
      let '(count, rerr) := Receive (receiver s) rr stream in
      let s := WithByteCounter s count in
      let w := addBytesReplicated (parent s) count w in
      let w := logCall (CallBodyClose stream) w in
      (s, w, rerr)
  end.

Definition doReplication (s : Step) (w : World) : Step * World * option error :=
  let sr := buildSendRequest s in
  match sendRecv s sr w with
  | (s, w, Some err) => (s, w, Some err)
  | (s, w, None) =>
      let req := {| OriginalReq := sr |} in
      let w := logCall (CallSendCompleted req) w in
      (s, w, SendCompleted (sender s) req)
  end.

(** ** Package zfs: batched destroy of snapshots *)

Module zfs.

(** The error values [doDestroyBatchedRec] tells apart. *)
Inductive error : Type :=
| errorString (msg : string)
| Errno (n : Z)
| PathError (Op Path : string) (Err : error)
| DestroySnapshotsError (Undestroyable : list string)
| wrapError (prefix : string) (err : error).

Definition E2BIG : Z := 7.

(** [errors.As(err, &pe)] with [pe *os.PathError]: the [Err] of the first
    path error along the [Unwrap] chain. *)
Fixpoint As_PathError (e : error) : option error :=
  match e with
  | PathError _ _ inner => Some inner
  | wrapError _ inner => As_PathError inner
  | _ => None
  end.

(** [errors.Is(e, syscall.E2BIG)] *)
Fixpoint Is_E2BIG (e : error) : bool :=
  match e with
  | Errno n => Z.eqb n E2BIG
  | PathError _ _ inner => Is_E2BIG inner
  | wrapError _ inner => Is_E2BIG inner
  | _ => false
  end.

(** [errors.As(err, &errDestroy)] with [errDestroy *DestroySnapshotsError]:
    its [Undestroyable] names. *)
Fixpoint As_DestroySnapshotsError (e : error) : option (list string) :=
  match e with
  | DestroySnapshotsError undestroyable => Some undestroyable
  | PathError _ _ inner => As_DestroySnapshotsError inner
  | wrapError _ inner => As_DestroySnapshotsError inner
  | _ => None
  end.

(** [ErrOut] is the address of the caller's error variable; every caller
    passes one, a nil [ErrOut] is not represented. *)
Record DestroySnapOp : Set := mkDestroySnapOp {
  Filesystem : string;
  Name : string;
  ErrOut : nat
}.

Section Destroyer.

(** The [destroyer] interface: an implementation with its own state. *)
Variable D : Type.
Variable Destroy : D -> list string -> D * option error.
(** [envconst.Int("ZREPL_DESTROY_MAX_BATCH_SIZE", 0)] *)
Variable maxBatchSize : Z.

(** The memory the requests' [ErrOut] point into, the destroyer, and the
    batches handed to [Destroy] so far, each with the argument list. *)
Record State : Type := mkState {
  errs : gmap nat (option error);
  destroyer : D;
  destroyed : list (list DestroySnapOp * list string)
}.

(** [*r.ErrOut = err] *)
Definition assignErrOut (r : DestroySnapOp) (err : option error) (st : State) : State :=
  {| errs := <[ErrOut r := err]> (errs st);
     destroyer := destroyer st;
     destroyed := destroyed st |}.

(** [d.Destroy(ctx, args)] on behalf of the requests [batch]. *)
Definition callDestroy (batch : list DestroySnapOp) (args : list string) (st : State)
  : option error * State :=
  let '(d', err) := Destroy (destroyer st) args in
  (err, {| errs := errs st; destroyer := d';
           destroyed := destroyed st ++ [(batch, args)] |}).

Fixpoint setDestroySnapOpErr (b : list DestroySnapOp) (err : option error) (st : State)
  : State :=
  match b with
  | [] => st
  | r :: rest => setDestroySnapOpErr rest err (assignErrOut r err st)
  end.

(** The validation loop of [doDestroy]: the requests kept, and the memory
    after the rejected ones got their error. *)
Fixpoint validate (reqs : list DestroySnapOp) (st : State) : list DestroySnapOp * State :=
  match reqs with
  | [] => ([], st)
  | req :: rest =>
      if String.eqb (Filesystem req) "" then
        validate rest
          (assignErrOut req (Some (errorString "Filesystem must not be an empty string")) st)
      else if String.eqb (Name req) "" then
        validate rest
          (assignErrOut req (Some (errorString "Name must not be an empty string")) st)
      else
        let '(validated, st') := validate rest st in
        (req :: validated, st')
  end.

Fixpoint doDestroySeq (reqs : list DestroySnapOp) (st : State) : State :=
  match reqs with
  | [] => st
  | r :: rest =>
      let '(err, st) := callDestroy [r] [Filesystem r +:+ "@" +:+ Name r] st in
      doDestroySeq rest (assignErrOut r err st)
  end.

(** by filesystem, then snap name *)
Definition lessOp (a b : DestroySnapOp) : bool :=
  match String.compare (Filesystem a) (Filesystem b) with
  | Lt => true
  | Gt => false
  | Eq =>
      match String.compare (Name a) (Name b) with
      | Lt => true
      | _ => false
      end
  end.

(** [sort.SliceStable]: equal elements keep their order, which fixes the
    result; it is computed by insertion. *)
Fixpoint insertOp (x : DestroySnapOp) (sorted : list DestroySnapOp) : list DestroySnapOp :=
  match sorted with
  | [] => [x]
  | y :: rest => if lessOp y x then y :: insertOp x rest else x :: y :: rest
  end.

Fixpoint sortStable (l : list DestroySnapOp) : list DestroySnapOp :=
  match l with
  | [] => []
  | x :: rest => insertOp x (sortStable rest)
  end.

(** The inner loop of the grouping: the batch that starts at the head of
    [l], with [taken] = [batchConsumedUntil - consumed], and what is left. *)
Fixpoint takeBatch (fs : string) (taken : Z) (l : list DestroySnapOp)
  : list DestroySnapOp * list DestroySnapOp :=
  match l with
  | [] => ([], [])
  | r :: rest =>
      if (Z.ltb maxBatchSize 1 || Z.ltb taken maxBatchSize) && String.eqb (Filesystem r) fs
      then let '(b, remainder) := takeBatch fs (taken + 1) rest in (r :: b, remainder)
      else ([], l)
  end.

(** The outer loop [for consumed < len(sorted)]; every round consumes at
    least one request, [fuel] bounds the rounds. *)
Fixpoint groupBatches (fuel : nat) (sorted : list DestroySnapOp)
  : list (list DestroySnapOp) :=
  match sorted with
  | [] => []
  | r :: _ =>
      match fuel with
      | O => []
      | S fuel' =>
          let '(b, remainder) := takeBatch (Filesystem r) 0 sorted in
          b :: groupBatches fuel' remainder
      end
  end.

Definition buildBatches (reqs : list DestroySnapOp) : list (list DestroySnapOp) :=
  match reqs with
  | [] => []
  | _ :: _ =>
      let sorted := sortStable reqs in
      groupBatches (length sorted) sorted
  end.

(** batch must be on same Filesystem, panics otherwise *)
Definition tryBatch (batch : list DestroySnapOp) (st : State)
  : outcome (option error * State) :=
  match batch with
  | [] => Returns (None, st)
  | first :: _ =>
      let batchFS := Filesystem first in
      if forallb (fun r => String.eqb batchFS (Filesystem r)) batch then
        let batchNames := map Name batch in
        let batchArg := batchFS +:+ "@" +:+ String.concat "," batchNames in
        Returns (callDestroy batch [batchArg] st)
      else Panics "inconsistent batch"
  end.

(** The split of [fsbatch] by [errDestroy.Undestroyable]:
    [(strippedBatch, remaining)]. *)
Definition stripUndestroyable (undestroyable : list string) (fsbatch : list DestroySnapOp)
  : list DestroySnapOp * list DestroySnapOp :=
  let isUndestroyable b := existsb (fun u => String.eqb u (Name b)) undestroyable in
  (List.filter (fun b => negb (isUndestroyable b)) fsbatch,
   List.filter isUndestroyable fsbatch).

(** fsbatch must be on same filesystem.  The recursion halves the batch;
    [None] when [fuel] does not cover its depth. *)
Fixpoint doDestroyBatchedRec (fuel : nat) (fsbatch : list DestroySnapOp) (st : State)
  : option (outcome State) :=
  if Nat.leb (length fsbatch) 1 then Some (Returns (doDestroySeq fsbatch st))
  else
    match tryBatch fsbatch st with
    | Panics msg => Some (Panics msg)
    | Returns (None, st) => Some (Returns (setDestroySnapOpErr fsbatch None st))
    | Returns (Some err, st) =>
        let e2big :=
          match As_PathError err with
          | Some inner => Is_E2BIG inner
          | None => false
          end in
        if e2big then
          match fuel with
          | O => None
          | S fuel' =>
              let half := Nat.div (length fsbatch) 2 in
              match doDestroyBatchedRec fuel' (firstn half fsbatch) st with
              | Some (Returns st) => doDestroyBatchedRec fuel' (skipn half fsbatch) st
              | other => other
              end
          end
        else
          match As_DestroySnapshotsError err with
          | Some undestroyable =>
              let '(strippedBatch, remaining) := stripUndestroyable undestroyable fsbatch in
              match tryBatch strippedBatch st with
              | Panics msg => Some (Panics msg)
              | Returns (Some _, st) => Some (Returns (doDestroySeq fsbatch st))
              | Returns (None, st) =>
                  Some (Returns (doDestroySeq remaining
                                   (setDestroySnapOpErr strippedBatch None st)))
              end
          | None => Some (Returns (doDestroySeq fsbatch st))
          end
    end.

Fixpoint doDestroyBatches (perFS : list (list DestroySnapOp)) (st : State)
  : option (outcome State) :=
  match perFS with
  | [] => Some (Returns st)
  | fsbatch :: rest =>
      match doDestroyBatchedRec (length fsbatch) fsbatch st with
      | Some (Returns st) => doDestroyBatches rest st
      | other => other
      end
  end.

Definition doDestroyBatched (reqs : list DestroySnapOp) (st : State)
  : option (outcome State) :=
  doDestroyBatches (buildBatches reqs) st.

Definition doDestroy (reqs : list DestroySnapOp) (st : State) : option (outcome State) :=
  let '(validated, st) := validate reqs st in
  doDestroyBatched validated st.

End Destroyer.

End zfs.

(** ** Reading a plan *)

(** What a step replicates: its from-version, its to-version and the resume
    token it carries. *)
Definition stepTarget (s : Step) : option VersionPtr * option VersionPtr * string :=
  (from s, to s, resumeToken s).

Definition planTargets (r : outcome (list Step * option error))
  : outcome (list (option VersionPtr * option VersionPtr * string) * option error) :=
  match r with
  | Returns (steps, err) => Returns (map stepTarget steps, err)
  | Panics msg => Panics msg
  end.

(** [e] is a non-nil snapshot. *)
Definition isSnapshotEntry (e : option VersionPtr) : bool :=
  match e with
  | Some v => isSnapshot v
  | None => false
  end.

(** The sender keeps to the protocol of [SendDry]: an error, or a response
    with at most one item per requested step. *)
Definition SendDry_in_protocol (snd_ : Sender) : Prop :=
  forall req,
    match SendDry snd_ req with
    | (_, Some _) => True
    | (Some resp, None) =>
        (length (SendDryRes_Items resp) <= length (SendDryReq_Items req))%nat
    | (None, None) => False
    end.

(** The TXGs of [x] and [y] ascend. *)
Definition txgLe (x y : VersionPtr) : Prop := CreateTXG (deref x) <= CreateTXG (deref y).

(** The shape of a plan under the one-step policy, read off its targets: at
    most two steps, and when there are two, the first one is a step that is
    never collapsed (it carries a resume token, or its from-version is nil or
    a bookmark) and the second one starts at a snapshot and carries no
    token. *)
Definition oneStepShape (ts : list (option VersionPtr * option VersionPtr * string)) : Prop :=
  (length ts <= 2)%nat
  /\ forall f1 t1 tok1 f2 t2 tok2,
       ts = [(f1, t1, tok1); (f2, t2, tok2)] ->
       (tok1 <> "" \/ isSnapshotEntry f1 = false)
       /\ isSnapshotEntry f2 = true /\ tok2 = "".

(** What the missing [IncrementalPath] promises: after its first entry a
    path holds snapshots only. *)
Definition IncrementalPath_snapshots_after_base
    (IncrementalPath :
       list VersionPtr -> list VersionPtr -> list (option VersionPtr) * option error)
  : Prop :=
  forall rfsvs sfsvs path,
    IncrementalPath rfsvs sfsvs = (path, None) ->
    forallb isSnapshotEntry (tl path) = true.

(** The tests of the scan for the token's versions: [v] is taken as
    to-version, as from-version. *)
Definition matchesTo (tok : ResumeToken) (v : VersionPtr) : bool :=
  HasToGUID tok && Z.eqb (Guid (deref v)) (ToGUID tok) && isSnapshot v.

Definition matchesFrom (tok : ResumeToken) (v : VersionPtr) : bool :=
  HasFromGUID tok && Z.eqb (Guid (deref v)) (FromGUID tok).

(** The planning of [fs] gets as far as the decoded resume token: the sender
    is no placeholder, both listings succeed, the sender lists [sfsvs], not
    empty, and the receiver's descriptor carries the token [raw], not empty,
    which decodes to [tok]. *)
Definition planningWithToken (ParseResumeToken : string -> option ResumeToken * option error)
    (fs : Filesystem) (raw : string) (tok : ResumeToken) (sfsvs : list VersionPtr) : Prop :=
  IsPlaceholder (senderFS fs) = false
  /\ (exists sresp rresp,
         listBothVersions fs = ((sresp, rresp), None) /\ GetVersions sresp = sfsvs)
  /\ sfsvs <> []
  /\ (exists r, receiverFS fs = Some r /\ pdu.ResumeToken r = raw)
  /\ raw <> ""
  /\ ParseResumeToken raw = (Some tok, None).

(** ** Reading a run of the batched destroy *)

(** The request passes the validation of [doDestroy]. *)
Definition validOp (r : zfs.DestroySnapOp) : bool :=
  negb (String.eqb (zfs.Filesystem r) "") && negb (String.eqb (zfs.Name r) "").

(** All requests of the batch are on the same filesystem. *)
Definition sameFilesystem (b : list zfs.DestroySnapOp) : Prop :=
  forall r1 r2, In r1 b -> In r2 b -> zfs.Filesystem r1 = zfs.Filesystem r2.

(** The error variable at address [p] holds an error. *)
Definition holdsError {D : Type} (st : zfs.State D) (p : nat) : Prop :=
  exists e, zfs.errs D st !! p = Some (Some e).

(** From [st] to [st'] the destroyer was called for requests satisfying [P]
    only, and no error variable was written but those of such requests. *)
Definition touchesOnly {D : Type} (P : zfs.DestroySnapOp -> Prop) (st st' : zfs.State D)
  : Prop :=
  (exists calls_,
      zfs.destroyed D st' = zfs.destroyed D st ++ calls_
      /\ Forall (fun call => Forall P (fst call)) calls_)
  /\ (forall p, (forall r, P r -> zfs.ErrOut r <> p) ->
                zfs.errs D st' !! p = zfs.errs D st !! p).

(** ** The parts of the repository the planner calls into *)

(** Modelled from the spec: package diff (the version algebra) and
    [zfs.ParseResumeToken] are missing; the definitions of this module
    follow sections 3, 4.1 and 4.3 of the specification.  The planner above does not depend on them; they
    instantiate it in the examples. *)
Module SpecModel.

(** Ordering: creation TXG ascending, a bookmark before a snapshot of the
    same TXG. *)
Definition versionLess (a b : VersionPtr) : bool :=
  Z.ltb (CreateTXG (deref a)) (CreateTXG (deref b))
  || (Z.eqb (CreateTXG (deref a)) (CreateTXG (deref b))
      && negb (isSnapshot a) && isSnapshot b).

Fixpoint insertVersion (x : VersionPtr) (sorted : list VersionPtr) : list VersionPtr :=
  match sorted with
  | [] => [x]
  | y :: rest => if versionLess x y then x :: y :: rest else y :: insertVersion x rest
  end.

Fixpoint SortVersionListByCreateTXGThenBookmarkLTSnapshot (l : list VersionPtr)
  : list VersionPtr :=
  match l with
  | [] => []
  | x :: rest => insertVersion x (SortVersionListByCreateTXGThenBookmarkLTSnapshot rest)
  end.

Definition hasGuid (g : Z) (l : list VersionPtr) : bool :=
  existsb (fun v => Z.eqb (Guid (deref v)) g) l.

(** The base: the last sender version whose GUID the receiver holds, with
    the sender versions after it. *)
Fixpoint splitAtBase (receiver_ sender_ : list VersionPtr)
  : option (VersionPtr * list VersionPtr) :=
  match sender_ with
  | [] => None
  | v :: rest =>
      match splitAtBase receiver_ rest with
      | Some found => Some found
      | None => if hasGuid (Guid (deref v)) receiver_ then Some (v, rest) else None
      end
  end.

(** The receiver versions after the last one carrying GUID [g]. *)
Fixpoint versionsAfter (g : Z) (l : list VersionPtr) : list VersionPtr :=
  match l with
  | [] => []
  | v :: rest =>
      if hasGuid g rest then versionsAfter g rest
      else if Z.eqb (Guid (deref v)) g then rest else []
  end.

(** The incremental path [base; later sender snapshots], or the conflict:
    most recent already present when the sender's tip is on the receiver,
    no common ancestor when no GUID is shared, diverged when the receiver
    holds versions after the base that the sender lacks.  Bookmarks after
    the base are dropped: the to-version of a step is a snapshot. *)
Definition IncrementalPath (receiver0 sender0 : list VersionPtr)
  : list (option VersionPtr) * option error :=
  let receiver_ := SortVersionListByCreateTXGThenBookmarkLTSnapshot receiver0 in
  let sender_ := SortVersionListByCreateTXGThenBookmarkLTSnapshot sender0 in
  match splitAtBase receiver_ sender_ with
  | None => ([], Some (ConflictNoCommonAncestor sender_ receiver_))
  | Some (base, later) =>
      match List.filter isSnapshot later with
      | [] => ([], Some (ConflictMostRecentSnapshotAlreadyPresent sender_ receiver_))
      | snaps =>
          let receiverOnly :=
            List.filter (fun v => negb (hasGuid (Guid (deref v)) sender_))
                        (versionsAfter (Guid (deref base)) receiver_) in
          match receiverOnly with
          | [] => (Some base :: map Some snaps, None)
          | _ :: _ => ([], Some (ConflictDiverged base later receiverOnly))
          end
      end
  end.

(** The storage layer decodes the tokens it issued, here a table; a token
    without to-guid is malformed. *)
Fixpoint ParseResumeToken (issued : list (string * ResumeToken)) (raw : string)
  : option ResumeToken * option error :=
  match issued with
  | [] => (None, Some (errorString "cannot decode resume token"))
  | (r, tok) :: rest =>
      if String.eqb r raw then
        if HasToGUID tok then (Some tok, None)
        else (None, Some (errorString "resume token does not have toguid"))
      else ParseResumeToken rest raw
  end.

End SpecModel.

(** ** Example data: one filesystem, three snapshots and a bookmark *)

Module Examples.

Definition snap (a : nat) (name : string) (guid txg : Z) : VersionPtr :=
  {| addr := a;
     deref := {| Type_ := FilesystemVersion_Snapshot; Name := name; Guid := guid;
                 CreateTXG := txg; Creation := "2024-01-01T00:00:00Z" |} |}.

Definition bookmark (a : nat) (name : string) (guid txg : Z) : VersionPtr :=
  {| addr := a;
     deref := {| Type_ := FilesystemVersion_Bookmark; Name := name; Guid := guid;
                 CreateTXG := txg; Creation := "2024-01-01T00:00:00Z" |} |}.

Definition a : VersionPtr := snap 1 "a" 101 1.
Definition b : VersionPtr := snap 2 "b" 102 2.
Definition c : VersionPtr := snap 3 "c" 103 3.
Definition bm : VersionPtr := bookmark 4 "a" 101 1.
Definition r : VersionPtr := snap 5 "r" 105 2.

(** A sender that lists [versions], estimates 100 bytes per step and
    streams two bytes, honouring a resume token when it gets one. *)
Definition senderOf (versions : list VersionPtr) : Sender :=
  {| Sender_ListFilesystemVersions := fun _ => (Some {| Versions := versions |}, None);
     Send := fun sr =>
       (Some {| UsedResumeToken := negb (String.eqb (SendReq_ResumeToken sr) "");
                SendRes_ExpectedSize := 100 |},
        Some [Byte.x00; Byte.x01], None);
     SendDry := fun req =>
       (Some {| SendDryRes_Items :=
                  map (fun _ => {| UsedResumeToken := false; SendRes_ExpectedSize := 100 |})
                      (SendDryReq_Items req) |}, None);
     SendCompleted := fun _ => None |}.

(** A sender that answers [Send] with neither result nor error. *)
Definition brokenSender : Sender :=
  {| Sender_ListFilesystemVersions := fun _ => (None, None);
     Send := fun _ => (None, None, None);
     SendDry := fun _ => (None, Some (errorString "not implemented"));
     SendCompleted := fun _ => None |}.

Definition receiverOf (versions : list VersionPtr) : Receiver :=
  {| Receiver_ListFilesystemVersions := fun _ => (Some {| Versions := versions |}, None);
     Receive := fun _ stream => (Z.of_nat (length stream), None) |}.

Definition policyOf (r : InitialReplicationAutoResolution) : PlannerPolicy :=
  {| policy_ConflictResolution := {| InitialReplication := r |};
     policy_ReplicationConfig := "";
     SizeEstimationConcurrency := 1 |}.

(** The plan of [zroot/data] between a sender and a receiver holding the
    given versions; [rfs] is the receiver's descriptor, if it has one. *)
Definition fsOf (r : InitialReplicationAutoResolution)
    (sversions rversions : list VersionPtr) (rfs : option pdu.Filesystem) : Filesystem :=
  {| fs_sender := senderOf sversions;
     fs_receiver := receiverOf rversions;
     policy := policyOf r;
     fs_Path := "zroot/data";
     receiverFS := rfs;
     senderFS := {| pdu.Path := "zroot/data"; pdu.ResumeToken := ""; IsPlaceholder := false |};
     promBytesReplicated := Some 0%nat |}.

(** A step after the size estimate [n] was recorded. *)
Definition withExpectedSize (n : Z) (s : Step) : Step :=
  {| sender := sender s; receiver := receiver s; parent := parent s;
     from := from s; to := to s; resumeToken := resumeToken s;
     expectedSize := n; byteCounter := byteCounter s |}.

Definition receiverDescriptor (token : string) : pdu.Filesystem :=
  {| pdu.Path := "zroot/data"; pdu.ResumeToken := token; IsPlaceholder := false |}.

(** The token of an interrupted receive of [a -> b]. *)
Definition tokenAB : ResumeToken :=
  {| HasFromGUID := true; HasToGUID := true; FromGUID := 101; ToGUID := 102; ToName := "b" |}.

(** A token whose from-version the sender no longer has. *)
Definition tokenGoneB : ResumeToken :=
  {| HasFromGUID := true; HasToGUID := true; FromGUID := 100; ToGUID := 102; ToName := "b" |}.

(** A token naming [b] as both ends. *)
Definition tokenBB : ResumeToken :=
  {| HasFromGUID := true; HasToGUID := true; FromGUID := 102; ToGUID := 102; ToName := "b" |}.

Definition issued : list (string * ResumeToken) :=
  [("1-ab", tokenAB); ("1-gone", tokenGoneB); ("1-bb", tokenBB)].

Definition plan (fs : Filesystem) (oneStep : bool) : outcome (list Step * option error) :=
  doPlanning SpecModel.IncrementalPath
             SpecModel.SortVersionListByCreateTXGThenBookmarkLTSnapshot
             (SpecModel.ParseResumeToken issued) fs oneStep.

End Examples.

(** ** The planner across filesystems *)

Record ListFilesystemRes : Set := mkListFilesystemRes {
  Filesystems : list pdu.Filesystem
}.

(** [res.GetFilesystems()], nil-safe. *)
Definition GetFilesystems (res : option ListFilesystemRes) : list pdu.Filesystem :=
  match res with
  | None => []
  | Some r => Filesystems r
  end.

(** A [Planner].  [ListFilesystems] and [WaitForConnectivity] belong to the
    [Endpoint] interface of both endpoints and take no request: what each of
    the two endpoints answers is kept beside the calls of the step engine.
    The counter vector maps a label to the identity of its counter. *)
Record Planner : Type := mkPlanner {
  planner_sender : Sender;
  planner_receiver : Receiver;
  planner_policy : PlannerPolicy;
  sender_ListFilesystems : option ListFilesystemRes * option error;
  receiver_ListFilesystems : option ListFilesystemRes * option error;
  sender_WaitForConnectivity : option error;
  receiver_WaitForConnectivity : option error;
  planner_promBytesReplicated : option (string -> nat)
}.

(** [for _, rfs := range rfss { if rfs.Path == fs.Path { receiverFS = rfs } }]:
    the loop does not stop at a match. *)
Fixpoint findReceiverFS (path : string) (rfss : list pdu.Filesystem)
    (receiverFS_ : option pdu.Filesystem) : option pdu.Filesystem :=
  match rfss with
  | [] => receiverFS_
  | rfs :: rest =>
      findReceiverFS path rest (if String.eqb (Path rfs) path then Some rfs else receiverFS_)
  end.

(** [Planner.doPlanning]: both listings run in an errgroup; when both fail
    the sender's error is taken, as in [listBothVersions]. *)
Definition Planner_doPlanning (p : Planner) : list Filesystem * option error :=
  let '(slfssres, serr) := sender_ListFilesystems p in
  let '(rlfssres, rerr) := receiver_ListFilesystems p in
  match serr, rerr with
  | Some err, _ => ([], Some err)
  | None, Some err => ([], Some err)
  | None, None =>
      let sfss := GetFilesystems slfssres in
      let rfss := GetFilesystems rlfssres in
      (map (fun fs =>
              {| fs_sender := planner_sender p;
                 fs_receiver := planner_receiver p;
                 policy := planner_policy p;
                 fs_Path := Path fs;
                 receiverFS := findReceiverFS (Path fs) rfss None;
                 senderFS := fs;
                 promBytesReplicated :=
                   match planner_promBytesReplicated p with
                   | Some vec => Some (vec (Path fs))
                   | None => None
                   end |}) sfss,
       None)
  end.

Definition Plan (p : Planner) : list driver_FS * option error :=
  match Planner_doPlanning p with
  | (_, Some err) => ([], Some err)
  | (fss, None) => (map driver_FS_Filesystem fss, None)
  end.

(** [errors.Unwrap] *)
Definition Unwrap (e : error) : option error :=
  match e with
  | wrapError _ inner => Some inner
  | _ => None
  end.

Section Connectivity.

(** [err.Error()]: the messages of the conflict types are composed in package
    diff, so the rendering of an error is taken as given. *)
Variable Error : error -> string.

Definition newline : string := String (Ascii.ascii_of_nat 10) EmptyString.

Definition WaitForConnectivity (p : Planner) : option error :=
  match sender_WaitForConnectivity p, receiver_WaitForConnectivity p with
  | None, None => None
  | Some senderErr, Some receiverErr =>
      if String.eqb (Error senderErr) (Error receiverErr) then
        Some (errorString ("sender and receiver are not reachable: " +:+ Error senderErr))
      else
        Some (errorString ("sender and receiver are not reachable:" +:+ newline
                           +:+ "  sender: " +:+ Error senderErr +:+ newline
                           +:+ "  receiver: " +:+ Error receiverErr))
  | Some senderErr, None => Some (wrapError "sender is not reachable: " senderErr)
  | None, Some receiverErr => Some (wrapError "receiver is not reachable: " receiverErr)
  end.

End Connectivity.

Section PlanFS.

Variable IncrementalPath :
  list VersionPtr -> list VersionPtr -> list (option VersionPtr) * option error.
Variable SortVersionListByCreateTXGThenBookmarkLTSnapshot :
  list VersionPtr -> list VersionPtr.
Variable ParseResumeToken : string -> option ResumeToken * option error.

Definition PlanFS (f : Filesystem) (oneStep : bool)
  : outcome (list driver_Step * option error) :=
  match doPlanning IncrementalPath SortVersionListByCreateTXGThenBookmarkLTSnapshot
          ParseResumeToken f oneStep with
  | Panics msg => Panics msg
  | Returns (_, Some err) => Returns ([], Some err)
  | Returns (steps, None) => Returns (map driver_Step_Step steps, None)
  end.

End PlanFS.

(** ** Reading a plan, continued *)

(** Each step starts where the step before it ended. *)
Fixpoint chained (ts : list (option VersionPtr * option VersionPtr * string)) : Prop :=
  match ts with
  | (_, t1, _) :: (((f2, _, _) :: _) as rest) => t1 = f2 /\ chained rest
  | _ => True
  end.

(** The planning of [fs] takes the branch without resume token: the sender
    is no placeholder, both listings succeed, the sender lists [sfsvs], not
    empty, the receiver versions taken into account are [rfsvs], and there is
    no token or it decodes to nil without error. *)
Definition planningWithoutToken (ParseResumeToken : string -> option ResumeToken * option error)
    (fs : Filesystem) (rfsvs sfsvs : list VersionPtr) : Prop :=
  IsPlaceholder (senderFS fs) = false
  /\ (exists sresp rresp,
         listBothVersions fs = ((sresp, rresp), None)
         /\ GetVersions sresp = sfsvs
         /\ (if needReceiverVersions fs then GetVersions rresp else []) = rfsvs)
  /\ sfsvs <> []
  /\ match receiverFS fs with
     | None => True
     | Some r =>
         pdu.ResumeToken r = "" \/ ParseResumeToken (pdu.ResumeToken r) = (None, None)
     end.

(** The step is one the planner of [fs] made and nobody ran yet: it carries
    the endpoints of [fs], points to [fs] and has no byte counter. *)
Definition plannedFor (fs : Filesystem) (s : Step) : Prop :=
  sender s = fs_sender fs /\ receiver s = fs_receiver fs /\ parent s = fs
  /\ byteCounter s = None.

(** The planner's steps before the size estimate: step literals of [fs]. *)
Definition freshStep (fs : Filesystem) (s : Step) : Prop :=
  exists f t tok, s = newStep fs f t tok.

(** The targets of the incremental steps along [l]: one step for each pair
    of neighbours, without token. *)
Definition pairTargets (l : list (option VersionPtr))
  : list (option VersionPtr * option VersionPtr * string) :=
  map (fun p => (fst p, snd p, "")) (combine l (tl l)).

(** ** Example data: a planner over two endpoints *)

Module PlannerExamples.

Definition fsDesc (path : string) : pdu.Filesystem :=
  {| pdu.Path := path; pdu.ResumeToken := ""; IsPlaceholder := false |}.

(** A planner whose sender lists [sfss] and whose receiver lists [rfss]. *)
Definition plannerOf (sfss rfss : list pdu.Filesystem) : Planner :=
  {| planner_sender := Examples.senderOf [Examples.a];
     planner_receiver := Examples.receiverOf [];
     planner_policy := Examples.policyOf InitialReplicationAutoResolutionAll;
     sender_ListFilesystems := (Some {| Filesystems := sfss |}, None);
     receiver_ListFilesystems := (Some {| Filesystems := rfss |}, None);
     sender_WaitForConnectivity := None;
     receiver_WaitForConnectivity := None;
     planner_promBytesReplicated := None |}.


(** The filesystem [zroot/data] of [snd_], not yet on the receiver. *)
Definition freshFS (snd_ : Sender) (r : InitialReplicationAutoResolution) : Filesystem :=
  {| fs_sender := snd_;
     fs_receiver := Examples.receiverOf [];
     policy := Examples.policyOf r;
     fs_Path := "zroot/data";
     receiverFS := None;
     senderFS := fsDesc "zroot/data";
     promBytesReplicated := None |}.

End PlannerExamples.

(** ** The destroyer behind [ZFSDestroyFilesystemVersions] *)

Fixpoint containsByte (c : ascii) (chars : string) : bool :=
  match chars with
  | EmptyString => false
  | String c' rest => Ascii.eqb c c' || containsByte c rest
  end.

(** [strings.ContainsAny(s, chars)] for [chars] of ASCII characters, as in
    both sanity checks: some byte of [s] is one of [chars]. *)
Fixpoint strings_ContainsAny (s chars : string) : bool :=
  match s with
  | EmptyString => false
  | String c rest => containsByte c chars || strings_ContainsAny rest chars
  end.

Section DestroyerImpl.

(** [ZFSDestroy] runs the zfs command; it is taken as given, over the state
    [W] of the pool. *)
Variable W : Type.
Variable ZFSDestroy : W -> string -> W * option zfs.error.

(** [destroyerImpl.Destroy]; the panic messages go on with the arguments. *)
Definition destroyerImpl_Destroy (w : W) (args : list string)
  : outcome (W * option zfs.error) :=
  match args with
  | [arg0] =>
      if negb (strings_ContainsAny arg0 "@") then
        Panics "sanity check: expecting '@' in call to Destroy"
      else Returns (ZFSDestroy w arg0)
  | _ => Panics "unexpected number of arguments"
  end.

End DestroyerImpl.

(** ** Reading a run of the batched destroy, continued *)

(** The argument [tryBatch] composes for a batch; for a batch of one request
    it is the argument [doDestroySeq] composes. *)
Definition batchArg (b : list zfs.DestroySnapOp) : string :=
  match b with
  | [] => ""
  | first :: _ => zfs.Filesystem first +:+ "@" +:+ String.concat "," (map zfs.Name b)
  end.

(** [errors.As(err, &pe) && errors.Is(pe.Err, syscall.E2BIG)] *)
Definition isE2BIG (err : zfs.error) : bool :=
  match zfs.As_PathError err with
  | Some inner => zfs.Is_E2BIG inner
  | None => false
  end.

(** The error variable at address [p] holds a value that satisfies [Q]. *)
Definition settled {D : Type} (Q : option zfs.error -> Prop) (st : zfs.State D) (p : nat)
  : Prop :=
  exists v, zfs.errs D st !! p = Some v /\ Q v.

(** The filesystem of a batch. *)
Definition batchFilesystem (b : list zfs.DestroySnapOp) : string :=
  match b with
  | [] => ""
  | first :: _ => zfs.Filesystem first
  end.

(** The order of [buildBatches]: [a] does not come after [b]. *)
Definition notAfter (a b : zfs.DestroySnapOp) : Prop := zfs.lessOp b a = false.

Section DestroyRun.

Variable D : Type.
Variable Destroy : D -> list string -> D * option zfs.error.

(** The runs of [doDestroyBatchedRec], one rule for each way through the
    function: the sequential run of a short batch, the batch that succeeds,
    the halving after E2BIG, the retry without the undestroyable snapshots
    that succeeds, and the sequential run after any other failure. *)
Inductive Run : list zfs.DestroySnapOp -> zfs.State D -> zfs.State D -> Prop :=
| Run_seq (b : list zfs.DestroySnapOp) (st : zfs.State D) :
    (length b <= 1)%nat ->
    Run b st (zfs.doDestroySeq D Destroy b st)
| Run_batch (b : list zfs.DestroySnapOp) (st st1 : zfs.State D) :
    (1 < length b)%nat ->
    zfs.tryBatch D Destroy b st = Returns (None, st1) ->
    Run b st (zfs.setDestroySnapOpErr D b None st1)
| Run_halve (b : list zfs.DestroySnapOp) (st st1 st2 st3 : zfs.State D) (err : zfs.error) :
    (1 < length b)%nat ->
    zfs.tryBatch D Destroy b st = Returns (Some err, st1) ->
    isE2BIG err = true ->
    Run (firstn (length b / 2) b) st1 st2 ->
    Run (skipn (length b / 2) b) st2 st3 ->
    Run b st st3
| Run_stripped (b : list zfs.DestroySnapOp) (st st1 st2 : zfs.State D) (err : zfs.error)
    (undestroyable : list string) :
    (1 < length b)%nat ->
    zfs.tryBatch D Destroy b st = Returns (Some err, st1) ->
    isE2BIG err = false ->
    zfs.As_DestroySnapshotsError err = Some undestroyable ->
    zfs.tryBatch D Destroy (fst (zfs.stripUndestroyable undestroyable b)) st1
    = Returns (None, st2) ->
    Run b st
      (zfs.doDestroySeq D Destroy (snd (zfs.stripUndestroyable undestroyable b))
         (zfs.setDestroySnapOpErr D (fst (zfs.stripUndestroyable undestroyable b)) None st2))
| Run_single (b : list zfs.DestroySnapOp) (st st1 st2 : zfs.State D) (err : zfs.error) :
    (1 < length b)%nat ->
    zfs.tryBatch D Destroy b st = Returns (Some err, st1) ->
    isE2BIG err = false ->
    (zfs.As_DestroySnapshotsError err = None /\ st2 = st1)
    \/ (exists undestroyable err2,
           zfs.As_DestroySnapshotsError err = Some undestroyable
           /\ zfs.tryBatch D Destroy (fst (zfs.stripUndestroyable undestroyable b)) st1
              = Returns (Some err2, st2)) ->
    Run b st (zfs.doDestroySeq D Destroy b st2).

(** The runs of [doDestroyBatched] over the batches, in order. *)
Inductive Runs : list (list zfs.DestroySnapOp) -> zfs.State D -> zfs.State D -> Prop :=
| Runs_nil (st : zfs.State D) : Runs [] st st
| Runs_cons (b : list zfs.DestroySnapOp) (rest : list (list zfs.DestroySnapOp))
    (st st1 st2 : zfs.State D) :
    Run b st st1 -> Runs rest st1 st2 -> Runs (b :: rest) st st2.

End DestroyRun.

(** A destroyer that keeps nothing and never fails. *)
Definition obligingDestroyer (d : unit) (args : list string) : unit * option zfs.error :=
  (d, None).

(** A call of the destroyer as [tryBatch] and [doDestroySeq] make it for a
    batch of at most [n] requests: one argument, composed for the batch. *)
Definition wellFormedCall (n : nat) (call : list zfs.DestroySnapOp * list string) : Prop :=
  fst call <> [] /\ (length (fst call) <= n)%nat /\ snd call = [batchArg (fst call)].

(** The filesystems of [a] and [b] compare as [strings.Compare] orders
    them: that of [a] is not the greater one. *)
Definition fsNotAfter (a b : zfs.DestroySnapOp) : Prop :=
  String.compare (zfs.Filesystem a) (zfs.Filesystem b) <> Gt.

(** The filesystem of batch [b1] is less than the one of [b2]. *)
Definition batchBefore (b1 b2 : list zfs.DestroySnapOp) : Prop :=
  String.compare (batchFilesystem b1) (batchFilesystem b2) = Lt.


(** ** Package base2bufpool: the names of NoFitBehavior *)

Module base2bufpool.

(** [NoFitBehavior] is an unsigned integer type: the generated [String]
    checks the upper bound only. *)
Definition NoFitBehavior : Set := N.

Definition _NoFitBehaviorName : string := "PanicAllocateSmallerAllocateLargerAllocate".

Definition _NoFitBehaviorIndex : list N := [0; 5; 20; 34; 42]%N.

(** [name[lo:hi]] *)
Definition slice (name : string) (lo hi : N) : string :=
  String.substring (N.to_nat lo) (N.to_nat (hi - lo)) name.

(** [fmt.Sprintf("NoFitBehavior(%d)", i)] *)
Definition format_NoFitBehavior (i : NoFitBehavior) : string :=
  "NoFitBehavior(" +:+ NilZero.string_of_uint (N.to_uint i) +:+ ")".

Definition NoFitBehavior_String (i : NoFitBehavior) : string :=
  if N.leb (N.of_nat (length _NoFitBehaviorIndex) - 1) i then format_NoFitBehavior i
  else
    slice _NoFitBehaviorName
      (nth (N.to_nat i) _NoFitBehaviorIndex 0%N)
      (nth (N.to_nat (i + 1)) _NoFitBehaviorIndex 0%N).

Definition _NoFitBehaviorValues : list NoFitBehavior := [0; 1; 2; 3]%N.

Definition _NoFitBehaviorNameToValueMap : gmap string NoFitBehavior :=
  <[slice _NoFitBehaviorName 0 5 := 0%N]>
    (<[slice _NoFitBehaviorName 5 20 := 1%N]>
       (<[slice _NoFitBehaviorName 20 34 := 2%N]>
          (<[slice _NoFitBehaviorName 34 42 := 3%N]> ∅))).

(** The error is the one [fmt.Errorf] makes, given by its message. *)
Definition NoFitBehaviorString (s : string) : NoFitBehavior * option string :=
  match _NoFitBehaviorNameToValueMap !! s with
  | Some val => (val, None)
  | None => (0%N, Some (s +:+ " does not belong to NoFitBehavior values"))
  end.

Definition NoFitBehaviorValues : list NoFitBehavior := _NoFitBehaviorValues.

Definition IsANoFitBehavior (i : NoFitBehavior) : bool :=
  existsb (fun v => N.eqb i v) _NoFitBehaviorValues.

End base2bufpool.

(** ** Package monitor: grouping snapshots by prefix *)

Module monitor.

(** Of a [zfs.FilesystemVersion] the grouping reads the name and the
    creation time; a [time.Time] is its instant, in nanoseconds. *)
Record FilesystemVersion : Set := mkFilesystemVersion {
  Name : string;
  Creation : Z
}.

(** [&snapshots[i]]: the index next to the element. *)
Record SnapPtr : Set := mkSnapPtr {
  idx : nat;
  target : FilesystemVersion
}.

(** [Count] is a [uint], taken with 64 bits. *)
Record groupItem : Set := mkGroupItem {
  Count : Z;
  Oldest : option SnapPtr;
  Latest : option SnapPtr
}.

Definition zeroItem : groupItem := {| Count := 0; Oldest := None; Latest := None |}.

(** The body of [if p == "" || strings.HasPrefix(s.Name, p)]. *)
Definition account (s : SnapPtr) (g : groupItem) : groupItem :=
  {| Count := (Count g + 1) mod 2 ^ 64;
     Oldest :=
       match Oldest g with
       | None => Some s
       | Some o => if Z.ltb (Creation (target s)) (Creation (target o)) then Some s else Some o
       end;
     Latest :=
       match Latest g with
       | None => Some s
       | Some l => if Z.ltb (Creation (target l)) (Creation (target s)) then Some s else Some l
       end |}.

(** [for j, p := range prefixes { if ... { ...; break } }], from index [j] on. *)
Fixpoint visit (s : SnapPtr) (prefixes : list string) (j : nat) (grouped : list groupItem)
  : list groupItem :=
  match prefixes with
  | [] => grouped
  | p :: rest =>
      if String.eqb p "" || String.prefix p (Name (target s))
      then alter (account s) j grouped
      else visit s rest (S j) grouped
  end.

(** [for i := range snapshots], from index [i] on. *)
Fixpoint groupLoop (snapshots : list FilesystemVersion) (i : nat) (prefixes : list string)
    (grouped : list groupItem) : list groupItem :=
  match snapshots with
  | [] => grouped
  | v :: rest =>
      groupLoop rest (S i) prefixes (visit {| idx := i; target := v |} prefixes 0 grouped)
  end.

Definition groupSnapshots (snapshots : list FilesystemVersion) (prefixes : list string)
  : list groupItem :=
  groupLoop snapshots 0 prefixes (replicate (length prefixes) zeroItem).

Definition Snapshot (self : groupItem) (oldest : bool) : option SnapPtr :=
  if oldest then Oldest self else Latest self.

End monitor.

(** The index of the first of [prefixes] that [name] falls under, counted
    from [j]. *)
Fixpoint firstMatch (name : string) (prefixes : list string) (j : nat) : option nat :=
  match prefixes with
  | [] => None
  | p :: rest =>
      if String.eqb p "" || String.prefix p name then Some j
      else firstMatch name rest (S j)
  end.

(** The snapshots of group [j]: those whose first matching prefix is the
    one at index [j]. *)
Definition groupMembers (prefixes : list string) (j : nat)
    (snapshots : list monitor.FilesystemVersion) : list monitor.FilesystemVersion :=
  List.filter (fun v => match firstMatch (monitor.Name v) prefixes 0 with
                        | Some k => Nat.eqb k j
                        | None => false
                        end) snapshots.

(** What a group item says of the snapshots [members] of its group, taken
    from [snapshots]. *)
Definition describes (snapshots members : list monitor.FilesystemVersion)
    (g : monitor.groupItem) : Prop :=
  monitor.Count g = Z.of_nat (length members) mod 2 ^ 64
  /\ (members = [] -> monitor.Oldest g = None /\ monitor.Latest g = None)
  /\ (members <> [] ->
      exists o l,
        monitor.Oldest g = Some o /\ monitor.Latest g = Some l
        /\ nth_error snapshots (monitor.idx o) = Some (monitor.target o)
        /\ nth_error snapshots (monitor.idx l) = Some (monitor.target l)
        /\ In (monitor.target o) members /\ In (monitor.target l) members
        /\ Forall (fun m => monitor.Creation (monitor.target o) <= monitor.Creation m
                            /\ monitor.Creation m <= monitor.Creation (monitor.target l))
                  members).

(** ** Package pruning: the retention grid rule *)

Module pruning.

(** Of a [config.RetentionInterval] the rule reads [Length()], a
    [time.Duration], and [KeepCount()]. *)
Record RetentionInterval : Set := mkRetentionInterval {
  Length : Z;
  KeepCount : Z
}.

Record PruneGrid : Set := mkPruneGrid {
  Regex : string;
  Grid : list RetentionInterval
}.

Section KeepGrid.

(** Compiled regular expressions, [regexp.Compile], the grid of package
    retentiongrid and the constant [config.RetentionGridKeepCountAll] are
    taken as given. *)
Variable Regexp : Type.
Variable Compile : string -> Regexp + string.
Variable RetentionGrid : Type.
Variable NewGrid : list RetentionInterval -> RetentionGrid.
Variable RetentionGridKeepCountAll : Z.

Record KeepGrid : Type := mkKeepGrid {
  retentionGrid : RetentionGrid;
  re : Regexp
}.

(** [for j := i - 1; allPrevKeepCountAll && j >= 0; j-- { ... }] over the
    intervals before [i], the nearest first. *)
Fixpoint allPrevKeepCountAll (prevRev : list RetentionInterval) : bool :=
  match prevRev with
  | [] => true
  | x :: rest => if Z.eqb (KeepCount x) RetentionGridKeepCountAll
                 then allPrevKeepCountAll rest else false
  end.

(** The loop that asserts increasing lengths, at interval [i]: [prevRev]
    holds the intervals before [i], the nearest first. *)
Fixpoint lengthsIncrease (prevRev : list RetentionInterval) (lastDuration : Z)
    (rest : list RetentionInterval) : bool :=
  match rest with
  | [] => true
  | x :: rest' =>
      if Z.ltb (Length x) lastDuration then
        if allPrevKeepCountAll prevRev
        then lengthsIncrease (x :: prevRev) (Length x) rest'
        else false
      else lengthsIncrease (x :: prevRev) (Length x) rest'
  end.

Definition newKeepGrid (re_ : option Regexp) (configIntervals : list RetentionInterval)
  : outcome (option KeepGrid * option string) :=
  match re_ with
  | None => Panics "re must not be nil"
  | Some r =>
      if Nat.eqb (length configIntervals) 0 then
        Returns (None, Some "retention grid must specify at least one interval")
      else if lengthsIncrease [] 0 configIntervals then
        Returns (Some {| retentionGrid := NewGrid configIntervals; re := r |}, None)
      else
        Returns (None,
                 Some "retention grid interval length must be monotonically increasing")
  end.

Definition NewKeepGrid (in_ : PruneGrid) : outcome (option KeepGrid * option string) :=
  if String.eqb (Regex in_) "" then Returns (None, Some "Regex must not be empty")
  else
    match Compile (Regex in_) with
    | inr err => Returns (None, Some ("Regex is invalid: " +:+ err))
    | inl r => newKeepGrid (Some r) (Grid in_)
    end.

End KeepGrid.

End pruning.

(** The lengths of a grid are in order: an interval is shorter than the one
    before it (the first: shorter than 0) only where every interval before it
    keeps all snapshots. *)
Definition gridInOrder (keepAll : Z) (intervals : list pruning.RetentionInterval) : Prop :=
  forall before x after,
    intervals = before ++ x :: after ->
    pruning.Length x < List.last (map pruning.Length before) 0 ->
    Forall (fun y => pruning.KeepCount y = keepAll) before.

(** ** Reading a plan under the one-step policy *)

(** The path the planning without resume token goes along: the one of
    [IncrementalPath] or, for its conflict, the one of the resolver (the
    statements before the [switch] over [len(path)]). *)
Definition resolvedPath
    (IncrementalPath :
       list VersionPtr -> list VersionPtr -> list (option VersionPtr) * option error)
    (fs : Filesystem) (rfsvs sfsvs : list VersionPtr)
  : outcome (list (option VersionPtr) * option error) :=
  let '(path0, conflict0) := IncrementalPath rfsvs sfsvs in
  match conflict0 with
  | Some c => tryAutoresolveConflict c (policy_ConflictResolution (policy fs))
  | None => Returns (path0, None)
  end.

(** A step the planner never collapses: it carries a resume token, or its
    from-version is nil or a bookmark. *)
Definition neverCollapsed (s : Step) : Prop :=
  resumeToken s <> ""
  \/ from s = None
  \/ exists bmk, from s = Some bmk /\ isSnapshot bmk = false.

(** [s2] is the collapsed tail after [s1]: one step without token that
    starts where [s1] ended, at a snapshot, and ends at [last_], the last
    version of the path. *)
Definition collapsedTail (s1 s2 : Step) (last_ : option VersionPtr) : Prop :=
  from s2 = to s1
  /\ (exists v, from s2 = Some v /\ isSnapshot v = true)
  /\ resumeToken s2 = ""
  /\ to s2 = last_.

(** ** The planner over another size estimate *)

(** The filesystem [fs] over a sender that differs from its own in the
    answers to the size estimate, which are those of [dry], and in nothing
    else. *)
Definition withSendDry (fs : Filesystem)
    (dry : SendDryReq -> option SendDryRes * option error) : Filesystem :=
  {| fs_sender :=
       {| Sender_ListFilesystemVersions := Sender_ListFilesystemVersions (fs_sender fs);
          Send := Send (fs_sender fs);
          SendDry := dry;
          SendCompleted := SendCompleted (fs_sender fs) |};
     fs_receiver := fs_receiver fs;
     policy := policy fs;
     fs_Path := fs_Path fs;
     receiverFS := receiverFS fs;
     senderFS := senderFS fs;
     promBytesReplicated := promBytesReplicated fs |}.

(** The step literal of [fs] with the versions and the token of [s]. *)
Definition rebase (fs : Filesystem) (s : Step) : Step :=
  newStep fs (from s) (to s) (resumeToken s).

(** ** Reading a run of the planning *)




(** * Properties *)

(** Scenarios 1 to 4 and 6 of the specification, run on the embedding. *)
Example scenario1_fresh_most_recent :
  planTargets
    (Examples.plan (Examples.fsOf InitialReplicationAutoResolutionMostRecent
                      [Examples.a; Examples.b; Examples.c] [] None) false)
  = Returns ([(None, Some Examples.c, "")], None).
Proof. vm_compute. reflexivity. Qed.

Example scenario2_fresh_all :
  planTargets
    (Examples.plan (Examples.fsOf InitialReplicationAutoResolutionAll
                      [Examples.a; Examples.b; Examples.c] [] None) false)
  = Returns ([(None, Some Examples.a, ""); (Some Examples.a, Some Examples.b, "");
              (Some Examples.b, Some Examples.c, "")], None).
Proof. vm_compute. reflexivity. Qed.

Example scenario3_incremental :
  planTargets
    (Examples.plan (Examples.fsOf InitialReplicationAutoResolutionAll
                      [Examples.a; Examples.b; Examples.c] [Examples.a]
                      (Some (Examples.receiverDescriptor ""))) false)
  = Returns ([(Some Examples.a, Some Examples.b, ""); (Some Examples.b, Some Examples.c, "")],
             None)
  /\ planTargets
    (Examples.plan (Examples.fsOf InitialReplicationAutoResolutionAll
                      [Examples.a; Examples.b; Examples.c] [Examples.a]
                      (Some (Examples.receiverDescriptor ""))) true)
  = Returns ([(Some Examples.a, Some Examples.c, "")], None).
Proof. split; vm_compute; reflexivity. Qed.

Example scenario4_resume :
  planTargets
    (Examples.plan (Examples.fsOf InitialReplicationAutoResolutionAll
                      [Examples.a; Examples.b; Examples.c] [Examples.a]
                      (Some (Examples.receiverDescriptor "1-ab"))) false)
  = Returns ([(Some Examples.a, Some Examples.b, "1-ab");
              (Some Examples.b, Some Examples.c, "")], None).
Proof. vm_compute. reflexivity. Qed.

Example scenario5_diverged :
  Examples.plan (Examples.fsOf InitialReplicationAutoResolutionAll
                   [Examples.a; Examples.b] [Examples.a; Examples.r]
                   (Some (Examples.receiverDescriptor ""))) false
  = Returns ([], Some (ConflictDiverged Examples.a [Examples.b] [Examples.r])).
Proof. vm_compute. reflexivity. Qed.

Example scenario6_up_to_date :
  planTargets
    (Examples.plan (Examples.fsOf InitialReplicationAutoResolutionAll
                      [Examples.a; Examples.b] [Examples.a; Examples.b]
                      (Some (Examples.receiverDescriptor ""))) false)
  = Returns ([], None).
Proof. vm_compute. reflexivity. Qed.

(** ** The conflict auto-resolver *)


Lemma As_NoCommonAncestor_not_MostRecent (conflict : error) p :
  As_ConflictNoCommonAncestor conflict = Some p ->
  As_ConflictMostRecentSnapshotAlreadyPresent conflict = false.
Proof.
  induction conflict; simpl; intros H; try discriminate; auto.
Qed.

Lemma appendSnapshots_filter (l : list VersionPtr) :
  forall path, appendSnapshots path l = path ++ map Some (List.filter isSnapshot l).
Proof.
  induction l as [|v rest IH]; intros path; simpl.
  - now rewrite app_nil_r.
  - destruct (isSnapshot v); simpl.
    + rewrite IH, <- app_assoc. reflexivity.
    + apply IH.
Qed.

Lemma filter_StronglySorted {A} (R : A -> A -> Prop) (f : A -> bool) (l : list A) :
  StronglySorted R l -> StronglySorted R (List.filter f l).
Proof.
  induction 1 as [|x l Hs IH Hall]; simpl; [constructor|].
  destruct (f x); [|exact IH].
  constructor; [exact IH|].
  rewrite List.Forall_forall in *. intros y Hy.
  apply filter_In in Hy. apply Hall, Hy.
Qed.

Lemma mostRecentSnap_spec (l : list VersionPtr) :
  match mostRecentSnap l with
  | Some s =>
      exists older newer, l = older ++ s :: newer /\ isSnapshot s = true
                          /\ Forall (fun v => isSnapshot v = false) newer
  | None => Forall (fun v => isSnapshot v = false) l
  end.
Proof.
  induction l as [|v rest IH]; simpl; [constructor|].
  destruct (mostRecentSnap rest) as [s|].
  - destruct IH as (older & newer & -> & Hs & Hnewer).
    exists (v :: older), newer. auto.
  - destruct (isSnapshot v) eqn:Hv.
    + exists [], rest. auto.
    + constructor; assumption.
Qed.

(** C3.  A no-common-ancestor conflict with an empty receiver list and a
    non-empty sender list is resolved under policy All, without error, to the
    path that starts with nil and continues with the sender's snapshots, all
    of them and nothing else, in the order of the sorted sender list: no entry
    after the first is a bookmark, and the TXGs ascend when they ascend in
    the conflict's sender list. *)
Theorem C3_autoresolve_all_lists_every_snapshot
    (conflict : error) (senderVersions : list VersionPtr) :
  As_ConflictNoCommonAncestor conflict = Some (senderVersions, []) ->
  senderVersions <> [] ->
  let snaps := List.filter isSnapshot senderVersions in
  tryAutoresolveConflict conflict {| InitialReplication := InitialReplicationAutoResolutionAll |}
    = Returns (None :: map Some snaps, None)
  /\ (forall v, In v snaps <-> In v senderVersions /\ isSnapshot v = true)
  /\ Forall (fun v => Type_ (deref v) = FilesystemVersion_Snapshot) snaps
  /\ (StronglySorted txgLe senderVersions -> StronglySorted txgLe snaps).
Proof.
  intros Hnca Hne snaps. split; [|split; [|split]].
  - unfold tryAutoresolveConflict.
    rewrite (As_NoCommonAncestor_not_MostRecent _ _ Hnca), Hnca.
    destruct senderVersions as [|v rest]; [congruence|].
    cbn [InitialReplication]. now rewrite appendSnapshots_filter.
  - intros v. apply filter_In.
  - apply List.Forall_forall. intros v Hin. apply filter_In in Hin as [_ Hs].
    unfold isSnapshot in Hs. now destruct (Type_ (deref v)).
  - apply filter_StronglySorted.
Qed.

Lemma C3_autoresolve_all_witness :
  tryAutoresolveConflict
    (ConflictNoCommonAncestor [Examples.bm; Examples.a; Examples.b; Examples.c] [])
    {| InitialReplication := InitialReplicationAutoResolutionAll |}
  = Returns ([None; Some Examples.a; Some Examples.b; Some Examples.c], None).
Proof.
  apply (C3_autoresolve_all_lists_every_snapshot
           (ConflictNoCommonAncestor [Examples.bm; Examples.a; Examples.b; Examples.c] [])
           [Examples.bm; Examples.a; Examples.b; Examples.c]);
    [reflexivity | discriminate].
Defined.

(** Policy MostRecent where the sender holds a snapshot: for a conflict
    without common ancestor and without receiver versions the path returned,
    without error, is [nil; s] where s is the last snapshot of the sorted
    sender list: every version after s is a bookmark. *)
Lemma tryAutoresolveConflict_most_recent
    (conflict : error) (senderVersions : list VersionPtr) :
  As_ConflictNoCommonAncestor conflict = Some (senderVersions, []) ->
  (exists v, In v senderVersions /\ isSnapshot v = true) ->
  exists s older newer,
    senderVersions = older ++ s :: newer
    /\ isSnapshot s = true
    /\ Forall (fun v => isSnapshot v = false) newer
    /\ tryAutoresolveConflict conflict
         {| InitialReplication := InitialReplicationAutoResolutionMostRecent |}
       = Returns ([None; Some s], None).
Proof.
  intros Hnca (v & Hin & Hv).
  pose proof (mostRecentSnap_spec senderVersions) as Hspec.
  destruct (mostRecentSnap senderVersions) as [s|] eqn:Hmr.
  - destruct Hspec as (older & newer & Heq & Hs & Hnewer).
    exists s, older, newer. repeat split; auto.
    unfold tryAutoresolveConflict.
    rewrite (As_NoCommonAncestor_not_MostRecent _ _ Hnca), Hnca.
    destruct senderVersions as [|x rest]; [destruct Hin|].
    cbn [InitialReplication]. now rewrite Hmr.
  - rewrite List.Forall_forall in Hspec. specialize (Hspec v Hin). congruence.
Qed.

Lemma tryAutoresolveConflict_most_recent_example :
  exists s older newer,
    [Examples.a; Examples.b; Examples.bm] = older ++ s :: newer
    /\ isSnapshot s = true
    /\ Forall (fun v => isSnapshot v = false) newer
    /\ tryAutoresolveConflict
         (ConflictNoCommonAncestor [Examples.a; Examples.b; Examples.bm] [])
         {| InitialReplication := InitialReplicationAutoResolutionMostRecent |}
       = Returns ([None; Some s], None).
Proof.
  apply (tryAutoresolveConflict_most_recent
           (ConflictNoCommonAncestor [Examples.a; Examples.b; Examples.bm] [])
           [Examples.a; Examples.b; Examples.bm]).
  - reflexivity.
  - exists Examples.a. split; [left; reflexivity | reflexivity].
Defined.

(** C4.  A sender that has a bookmark and no snapshot: for this sender
    list, which is not empty, policy MostRecent answers without error the
    path [nil; nil], whose second entry is no snapshot of the sender; and the
    planner, for a sender that lists this bookmark only and a filesystem the
    receiver does not have, returns without error a plan of one step whose
    to-version is nil, which the comment on the field [to] of [Step] rules
    out and the branch of policy All refuses by its check of the path's
    length. *)
Lemma C4_most_recent_bookmarks_only :
  tryAutoresolveConflict (ConflictNoCommonAncestor [Examples.bm] [])
    {| InitialReplication := InitialReplicationAutoResolutionMostRecent |}
  = Returns ([None; None], None)
  /\ [Examples.bm] <> []
  /\ (forall s, In s [Examples.bm] -> isSnapshot s = false)
  /\ (exists s,
         Examples.plan (PlannerExamples.freshFS (Examples.senderOf [Examples.bm])
                          InitialReplicationAutoResolutionMostRecent) false
         = Returns ([s], None)
         /\ from s = None /\ to s = None).
Proof.
  split; [reflexivity|]. split; [discriminate|]. split.
  - intros s [<-|[]]. reflexivity.
  - eexists. split; [vm_compute; reflexivity|]. split; reflexivity.
Qed.

(** C5.  The policy is read only for a no-common-ancestor conflict whose
    receiver list is empty (and whose sender list is not): two policies that
    lead to different results imply such a conflict.  A diverged conflict and
    a no-common-ancestor conflict with receiver versions come back unchanged
    as the error, with an empty path, whatever the policy; the conflict
    "most recent snapshot already present" gives the empty path and no error;
    and with both lists empty the result is an error whatever the policy. *)
Theorem C5_policy_consulted_only_for_initial_replication :
  (forall conflict p1 p2,
      tryAutoresolveConflict conflict p1 <> tryAutoresolveConflict conflict p2 ->
      exists senderVersions,
        As_ConflictNoCommonAncestor conflict = Some (senderVersions, [])
        /\ senderVersions <> [])
  /\ (forall ancestor senderOnly receiverOnly policy,
         tryAutoresolveConflict (ConflictDiverged ancestor senderOnly receiverOnly) policy
         = Returns ([], Some (ConflictDiverged ancestor senderOnly receiverOnly)))
  /\ (forall senderVersions receiverVersions policy,
         receiverVersions <> [] ->
         tryAutoresolveConflict (ConflictNoCommonAncestor senderVersions receiverVersions) policy
         = Returns ([], Some (ConflictNoCommonAncestor senderVersions receiverVersions)))
  /\ (forall senderVersions receiverVersions policy,
         tryAutoresolveConflict
           (ConflictMostRecentSnapshotAlreadyPresent senderVersions receiverVersions) policy
         = Returns ([], None))
  /\ (forall policy,
         tryAutoresolveConflict (ConflictNoCommonAncestor [] []) policy
         = Returns ([], Some (errorString "no snapshots available on sender side"))).
Proof.
  repeat split.
  - intros conflict p1 p2 Hdiff. unfold tryAutoresolveConflict in Hdiff.
    destruct (As_ConflictMostRecentSnapshotAlreadyPresent conflict); [congruence|].
    destruct (As_ConflictNoCommonAncestor conflict) as [[s r]|]; [|congruence].
    destruct r; [|congruence].
    destruct s as [|v s]; [congruence|].
    exists (v :: s). split; [reflexivity | discriminate].
  - intros senderVersions [|r receiverVersions] policy_ Hne; [congruence|reflexivity].
Qed.

(** ** Step.TargetEquals and Step.ReportInfo *)

(** C8, as the code has it.  For two steps of this package, TargetEquals
    panics exactly when the paths of their parents differ; otherwise it
    returns whether the from-GUIDs and the to-GUIDs agree.  So it returns true
    exactly when the parents share the path and the GUID pairs match, and two
    parents that differ while sharing the path do not make it panic. *)
Theorem C8_target_equals (s t : Step) :
  (TargetEquals s (driver_Step_Step t)
     = Panics "Step interface promise broken: parent filesystems must be same"
   <-> fs_Path (parent s) <> fs_Path (parent t))
  /\ (fs_Path (parent s) = fs_Path (parent t) ->
      TargetEquals s (driver_Step_Step t)
      = Returns (Z.eqb (GetGuid (from s)) (GetGuid (from t))
                 && Z.eqb (GetGuid (to s)) (GetGuid (to t))))
  /\ (TargetEquals s (driver_Step_Step t) = Returns true
      <-> fs_Path (parent s) = fs_Path (parent t)
          /\ GetGuid (from s) = GetGuid (from t)
          /\ GetGuid (to s) = GetGuid (to t)).
Proof.
  unfold TargetEquals, EqualToPreviousAttempt.
  destruct (String.eqb_spec (fs_Path (parent s)) (fs_Path (parent t))) as [Heq|Hne]; simpl.
  - split; [|split].
    + split; [discriminate | congruence].
    + reflexivity.
    + split.
      * intros H. injection H as H. apply andb_true_iff in H as [H1 H2].
        apply Z.eqb_eq in H1, H2. auto.
      * intros (_ & H1 & H2). rewrite H1, H2, !Z.eqb_refl. reflexivity.
  - split; [|split].
    + split; auto.
    + congruence.
    + split; [discriminate | intros (H & _); congruence].
Qed.

(** C8 fails as stated: the parents of the two steps below differ (one has a
    receiver descriptor, the other has none) and share their path, and
    TargetEquals returns true instead of panicking. *)
Lemma C8_same_path_different_parents_no_panic :
  let p1 := Examples.fsOf InitialReplicationAutoResolutionAll [Examples.a; Examples.b] [] None in
  let p2 := Examples.fsOf InitialReplicationAutoResolutionAll [Examples.a; Examples.b] []
              (Some (Examples.receiverDescriptor "")) in
  p1 <> p2
  /\ fs_Path p1 = fs_Path p2
  /\ TargetEquals (newStep p1 (Some Examples.a) (Some Examples.b) "")
                  (driver_Step_Step (newStep p2 (Some Examples.a) (Some Examples.b) ""))
     = Returns true.
Proof.
  cbv zeta. split; [|split; reflexivity].
  intros H. apply (f_equal receiverFS) in H. discriminate.
Qed.

Section ReportInfoProperties.

Variable RelName : option VersionPtr -> string.

(** Whatever [RelName] gives: before the byte counter is installed
    ReportInfo reports zero replicated bytes, afterwards what the counter
    stands at; From is the empty string for a step without from-version and
    the RelName of the from-version otherwise, so that From is empty exactly
    when there is no from-version or its RelName is empty; Resumed is true
    exactly when the resume token is not empty. *)
Lemma ReportInfo_fields (s : Step) :
  (byteCounter s = None -> BytesReplicated (ReportInfo RelName s) = 0)
  /\ (forall n, byteCounter s = Some n -> BytesReplicated (ReportInfo RelName s) = n)
  /\ (from s = None -> From (ReportInfo RelName s) = "")
  /\ (From (ReportInfo RelName s) = "" <-> from s = None \/ RelName (from s) = "")
  /\ (Resumed (ReportInfo RelName s) = true <-> resumeToken s <> "").
Proof.
  unfold ReportInfo; cbn [BytesReplicated From Resumed]. repeat split.
  - intros ->. reflexivity.
  - intros n ->. reflexivity.
  - intros ->. reflexivity.
  - destruct (from s) as [v|]; auto.
  - destruct (from s) as [v|]; intros [H|H]; auto; discriminate.
  - destruct (String.eqb_spec (resumeToken s) ""); simpl; auto; discriminate.
  - destruct (String.eqb_spec (resumeToken s) ""); simpl; auto; contradiction.
Qed.

End ReportInfoProperties.

(** ** Step.sendRecv *)

(** C7.  sendRecv first calls Send.  When Send answers a result and a stream
    without error, the only further endpoint call is one Receive, for the
    step's filesystem and the request's to-version, whose clear_resume_token
    is the negation of the result's used_resume_token; the error of sendRecv
    is the one of Receive.  When Send answers with an error, a nil result or
    a nil stream, sendRecv and doReplication fail with an error after that
    single call: neither Receive nor SendCompleted is called. *)
Theorem C7_send_recv (s : Step) (sr : SendReq) (w : World) :
  (forall sres stream,
      Send (sender s) sr = (Some sres, Some stream, None) ->
      let rr := {| ReceiveReq_Filesystem := fs_Path (parent s);
                   ReceiveReq_To := SendReq_To sr;
                   ClearResumeToken := negb (UsedResumeToken sres);
                   ReceiveReq_ReplicationConfig :=
                     policy_ReplicationConfig (policy (parent s)) |} in
      let '(_, w', err) := sendRecv s sr w in
      calls w' = calls w ++ [CallSend sr; CallReceive rr stream; CallBodyClose stream]
      /\ err = snd (Receive (receiver s) rr stream))
  /\ (forall sres stream serr,
         Send (sender s) sr = (sres, stream, serr) ->
         serr <> None \/ sres = None \/ stream = None ->
         let '(_, w', err) := sendRecv s sr w in
         calls w' = calls w ++ [CallSend sr] /\ err <> None)
  /\ (forall sres stream serr,
         Send (sender s) (buildSendRequest s) = (sres, stream, serr) ->
         serr <> None \/ sres = None \/ stream = None ->
         let '(_, w', err) := doReplication s w in
         calls w' = calls w ++ [CallSend (buildSendRequest s)] /\ err <> None).
Proof.
  split; [|split].
  - intros sres stream HSend. unfold sendRecv. rewrite HSend.
    cbn [receiver parent WithByteCounter].
    destruct (Receive (receiver s) _ stream) as [count rerr] eqn:HRecv.
    cbn [snd]. split; [|reflexivity].
    unfold addBytesReplicated. destruct (promBytesReplicated (parent s));
      cbn [calls logCall]; rewrite <- !app_assoc; reflexivity.
  - intros sres stream serr HSend Hnil. unfold sendRecv. rewrite HSend.
    destruct serr as [e|]; [destruct sres, stream; split; (reflexivity || discriminate)|].
    destruct sres as [sres|]; [destruct stream as [stream|]|].
    + destruct Hnil as [H|[H|H]]; congruence.
    + split; [reflexivity | discriminate].
    + split; [reflexivity | discriminate].
  - intros sres stream serr HSend Hnil. unfold doReplication, sendRecv. rewrite HSend.
    destruct serr as [e|]; [destruct sres, stream; split; (reflexivity || discriminate)|].
    destruct sres as [sres|]; [destruct stream as [stream|]|].
    + destruct Hnil as [H|[H|H]]; congruence.
    + split; [reflexivity | discriminate].
    + split; [reflexivity | discriminate].
Qed.

(** Scenario 4, execution of the resume step: the send request carries the
    token and the receive request keeps the receiver's resume state. *)
Example scenario4_resume_step_keeps_token :
  let fs := Examples.fsOf InitialReplicationAutoResolutionAll
              [Examples.a; Examples.b; Examples.c] [Examples.a]
              (Some (Examples.receiverDescriptor "1-ab")) in
  let s := newStep fs (Some Examples.a) (Some Examples.b) "1-ab" in
  let '(s', w', err) := doReplication s {| calls := []; counters := ∅ |} in
  err = None
  /\ byteCounter s' = Some 2
  /\ counters w' !! 0%nat = Some [2]
  /\ exists rr stream,
       calls w' = [CallSend (buildSendRequest s); CallReceive rr stream; CallBodyClose stream;
                   CallSendCompleted {| OriginalReq := buildSendRequest s |}]
       /\ SendReq_ResumeToken (buildSendRequest s) = "1-ab"
       /\ ClearResumeToken rr = false.
Proof.
  cbv zeta. vm_compute. repeat split. eexists _, _. repeat split.
Qed.

Example broken_sender_is_a_protocol_violation :
  let fs := {| fs_sender := Examples.brokenSender;
               fs_receiver := Examples.receiverOf [];
               policy := Examples.policyOf InitialReplicationAutoResolutionAll;
               fs_Path := "zroot/data";
               receiverFS := None;
               senderFS := {| pdu.Path := "zroot/data"; pdu.ResumeToken := "";
                              IsPlaceholder := false |};
               promBytesReplicated := None |} in
  let s := newStep fs None (Some Examples.a) "" in
  let '(_, w', err) := doReplication s {| calls := []; counters := ∅ |} in
  err = Some (errorString "send request returned nil send result")
  /\ calls w' = [CallSend (buildSendRequest s)].
Proof. cbv zeta. vm_compute. split; reflexivity. Qed.

(** ** The per-filesystem planner *)


Lemma Returns_inj {A : Type} (x y : A) : Returns x = Returns y -> x = y.
Proof. congruence. Qed.

Lemma setExpectedSizes_targets (steps : list Step) :
  forall items steps',
    setExpectedSizes steps items = Some steps' ->
    map stepTarget steps' = map stepTarget steps.
Proof.
  induction steps as [|s steps IH]; intros [|item items] steps' H; simpl in H.
  - now inversion H.
  - discriminate.
  - now inversion H.
  - destruct (setExpectedSizes steps items) as [rest|] eqn:E; [|discriminate].
    inversion H; subst. simpl. f_equal. eapply IH; eauto.
Qed.

Lemma setExpectedSizes_in_range (steps : list Step) :
  forall items,
    (length items <= length steps)%nat ->
    exists steps', setExpectedSizes steps items = Some steps'.
Proof.
  induction steps as [|s steps IH]; intros [|item items] Hlen; simpl in *; eauto; try lia.
  destruct (IH items) as [rest ->]; [lia|]. eauto.
Qed.

Lemma updateSizeEstimates_targets (fs : Filesystem) (steps steps' : list Step) err :
  updateSizeEstimates fs steps = Returns (steps', err) ->
  map stepTarget steps' = map stepTarget steps.
Proof.
  unfold updateSizeEstimates.
  destruct (SendDry _ _) as [[resp|] [e|]]; try (intros H; now inversion H).
  destruct (setExpectedSizes steps _) eqn:E; intros H; inversion H; subst.
  eapply setExpectedSizes_targets; eauto.
Qed.

Lemma updateSizeEstimates_returns (fs : Filesystem) (steps : list Step) :
  SendDry_in_protocol (fs_sender fs) ->
  exists steps' err, updateSizeEstimates fs steps = Returns (steps', err).
Proof.
  intros Hproto. unfold updateSizeEstimates.
  match goal with |- context [SendDry _ ?req] => specialize (Hproto req) end.
  destruct (SendDry _ _) as [[resp|] [e|]]; eauto; [|contradiction].
  cbn [SendDryReq_Items] in Hproto. rewrite length_map in Hproto.
  destruct (setExpectedSizes_in_range steps _ Hproto) as [steps' ->]. eauto.
Qed.

Lemma incrementalSteps_short (fs : Filesystem) (l : list VersionPtr) :
  (length l <= 1)%nat -> incrementalSteps fs l = [].
Proof. destruct l as [|x [|y l]]; simpl; auto; lia. Qed.

Lemma pathSteps_snapshots (fs : Filesystem) lst (path : list (option VersionPtr)) :
  forallb isSnapshotEntry path = true ->
  pathSteps fs true lst path = []
  \/ exists f, pathSteps fs true lst path = [newStep fs f lst ""] /\ isSnapshotEntry f = true.
Proof.
  destruct path as [|e [|e2 rest]]; simpl; auto.
  intros H. apply andb_true_iff in H as [He _].
  destruct e as [v|]; simpl in He; [|discriminate].
  rewrite He. right. exists (Some v). auto.
Qed.

Lemma pathSteps_cons (fs : Filesystem) oneStep lst e e2 rest :
  pathSteps fs oneStep lst (e :: e2 :: rest)
  = if match e with Some f => oneStep && isSnapshot f | None => false end
    then [newStep fs e lst ""]
    else newStep fs e e2 "" :: pathSteps fs oneStep lst (e2 :: rest).
Proof. reflexivity. Qed.

Lemma pathSteps_oneStep (fs : Filesystem) lst e (tail : list (option VersionPtr)) :
  forallb isSnapshotEntry tail = true ->
  oneStepShape (map stepTarget (pathSteps fs true lst (e :: tail))).
Proof.
  intros Htail. destruct tail as [|e2 rest].
  - split; [simpl; lia | discriminate].
  - rewrite pathSteps_cons.
    assert (Hsend : match e with Some f => true && isSnapshot f | None => false end
                    = isSnapshotEntry e) by (destruct e; reflexivity).
    rewrite Hsend. destruct (isSnapshotEntry e) eqn:He.
    + split; [simpl; lia | discriminate].
    + destruct (pathSteps_snapshots fs lst (e2 :: rest) Htail) as [->|(f & -> & Hf)].
      * split; [simpl; lia | discriminate].
      * split; [simpl; lia|]. unfold stepTarget; simpl.
        intros f1 t1 tok1 f2 t2 tok2 H. inversion H; subst. auto.
Qed.

Lemma pathSteps_two (fs : Filesystem) oneStep lst e1 e2 :
  exists s, pathSteps fs oneStep lst [e1; e2] = [s].
Proof.
  simpl. destruct (match e1 with Some f => oneStep && isSnapshot f | None => false end); eauto.
Qed.

Lemma resumeSteps_oneStep
    (Sort : list VersionPtr -> list VersionPtr)
    (fs : Filesystem) raw tok sfsvs steps :
  raw <> "" ->
  resumeSteps Sort fs true raw tok sfsvs = (steps, None) ->
  oneStepShape (map stepTarget steps).
Proof.
  intros Hraw. unfold resumeSteps.
  destruct (findResumeVersions tok (Sort sfsvs) 0 None None 0) as [[fromV toV] idx].
  destruct toV as [toV|]; [|discriminate].
  destruct (ptr_eqb fromV (Some toV)); [discriminate|].
  remember (List.filter isSnapshot (skipn idx (Sort sfsvs))) as remaining eqn:Hrem.
  cbn [andb]. destruct (Nat.ltb_spec 1 (length remaining)) as [Hlt|Hge].
  - intros H. inversion H; subst steps. split; [simpl; lia|].
    unfold stepTarget; simpl.
    intros f1 t1 tok1 f2 t2 tok2 Heq. inversion Heq; subst.
    split; [auto|]. split; [|reflexivity].
    destruct (List.filter isSnapshot (skipn idx (Sort sfsvs))) as [|x rest] eqn:Hf;
      [simpl in Hlt; lia|].
    simpl. assert (Hin : In x (List.filter isSnapshot (skipn idx (Sort sfsvs))))
      by (rewrite Hf; left; reflexivity).
    apply filter_In in Hin. apply Hin.
  - rewrite incrementalSteps_short by lia.
    intros H. inversion H; subst steps. split; [simpl; lia | discriminate].
Qed.

Section PlannerProperties.

Variable IncrementalPath :
  list VersionPtr -> list VersionPtr -> list (option VersionPtr) * option error.
Variable Sort : list VersionPtr -> list VersionPtr.
Variable Parse : string -> option ResumeToken * option error.

(** A plan is empty, or its steps are the steps of one of the two branches
    with the size estimates filled in. *)
Lemma doPlanning_inv (fs : Filesystem) (oneStep : bool) (steps : list Step) :
  doPlanning IncrementalPath Sort Parse fs oneStep = Returns (steps, None) ->
  steps = []
  \/ exists steps0,
       map stepTarget steps = map stepTarget steps0
       /\ ((exists r tok sfsvs,
               receiverFS fs = Some r /\ pdu.ResumeToken r <> ""
               /\ resumeSteps Sort fs oneStep (pdu.ResumeToken r) tok sfsvs = (steps0, None))
           \/ (exists rfsvs sfsvs,
                  pathPlan IncrementalPath fs oneStep rfsvs sfsvs = Returns (steps0, None))).
Proof.
  unfold doPlanning.
  destruct (IsPlaceholder (senderFS fs)).
  { destruct (receiverFS fs) as [r|]; [destruct (negb (IsPlaceholder r))|];
      intros H; inversion H; auto. }
  destruct (listBothVersions fs) as [[sresp rresp] [e|]]; [intros H; inversion H|].
  destruct (Nat.ltb (length (GetVersions sresp)) 1); [intros H; inversion H|].
  set (rfsvs := if needReceiverVersions fs then GetVersions rresp else []).
  assert (Hfinish : forall steps0,
    withSizeEstimates fs steps0 = Returns (steps, None) ->
    steps = [] \/ map stepTarget steps = map stepTarget steps0).
  { intros [|s0 steps0] H; [inversion H; auto|]. unfold withSizeEstimates in H.
    destruct (updateSizeEstimates fs (s0 :: steps0)) as [[steps' err]|] eqn:E;
      [|discriminate].
    inversion H; subst. right. eapply updateSizeEstimates_targets; eauto. }
  destruct (receiverFS fs) as [r|] eqn:Hr.
  - destruct (String.eqb_spec (pdu.ResumeToken r) "") as [Hempty|Hraw]; cbn [negb].
    + destruct (pathPlan IncrementalPath fs oneStep rfsvs (GetVersions sresp))
        as [[steps0 [e|]]|] eqn:Hplan; try (intros H; now inversion H).
      intros H. apply Hfinish in H as [->|H]; [auto|]. right. exists steps0. eauto 6.
    + destruct (Parse (pdu.ResumeToken r)) as [tok [e|]]; [intros H; inversion H|].
      destruct tok as [tok|].
      * destruct (resumeSteps Sort fs oneStep (pdu.ResumeToken r) tok (GetVersions sresp))
          as [steps0 [e|]] eqn:Hres; [intros H; inversion H|].
        intros H. apply Hfinish in H as [->|H]; [auto|]. right. exists steps0.
        split; [exact H|]. left. exists r, tok, (GetVersions sresp). auto.
      * destruct (pathPlan IncrementalPath fs oneStep rfsvs (GetVersions sresp))
          as [[steps0 [e|]]|] eqn:Hplan; try (intros H; now inversion H).
        intros H. apply Hfinish in H as [->|H]; [auto|]. right. exists steps0. eauto 6.
  - destruct (pathPlan IncrementalPath fs oneStep rfsvs (GetVersions sresp))
      as [[steps0 [e|]]|] eqn:Hplan; try (intros H; now inversion H).
    intros H. apply Hfinish in H as [->|H]; [auto|]. right. exists steps0. eauto 6.
Qed.


Lemma pathPlan_oneStep (fs : Filesystem) rfsvs sfsvs steps :
  IncrementalPath_snapshots_after_base IncrementalPath ->
  pathPlan IncrementalPath fs true rfsvs sfsvs = Returns (steps, None) ->
  oneStepShape (map stepTarget steps).
Proof.
  intros Hcontract. unfold pathPlan.
  assert (Hempty : oneStepShape (map stepTarget [])) by (split; [simpl; lia | discriminate]).
  assert (Hpath : forall path,
             forallb isSnapshotEntry (tl path) = true ->
             stepsOfPath fs true path = Returns steps ->
             oneStepShape (map stepTarget steps)).
  { intros [|e [|e2 rest]] Htl H; try discriminate; apply Returns_inj in H; rewrite <- H.
    - exact Hempty.
    - apply pathSteps_oneStep. exact Htl. }
  destruct (IncrementalPath rfsvs sfsvs) as [path0 [c|]] eqn:HIP.
  - unfold tryAutoresolveConflict.
    destruct (As_ConflictMostRecentSnapshotAlreadyPresent c).
    { simpl. intros H; inversion H; auto. }
    destruct (As_ConflictNoCommonAncestor c) as [[s r]|]; [|discriminate].
    destruct r; [|discriminate]. destruct s as [|v s]; [discriminate|].
    destruct (InitialReplication (policy_ConflictResolution (policy fs)));
      try discriminate.
    + cbn [stepsOfPath].
      destruct (pathSteps_two fs true
                  (List.last [None; mostRecentSnap (v :: s)] None) None
                  (mostRecentSnap (v :: s))) as [s1 ->].
      intros H; inversion H; subst. split; [simpl; lia | discriminate].
    + rewrite appendSnapshots_filter. cbn [app].
      destruct (stepsOfPath fs true _) as [steps0|] eqn:Hsteps; [|discriminate].
      intros H; inversion H; subst. eapply Hpath; [|exact Hsteps].
      cbn [tl]. apply forallb_forall. intros e He.
      apply in_map_iff in He as (x & <- & Hx). apply filter_In in Hx. apply Hx.
  - destruct (stepsOfPath fs true path0) as [steps0|] eqn:Hsteps; [|discriminate].
    intros H; inversion H; subst. eapply Hpath; eauto.
Qed.

End PlannerProperties.

Lemma SpecModel_IncrementalPath_snapshots_after_base :
  IncrementalPath_snapshots_after_base SpecModel.IncrementalPath.
Proof.
  intros rfsvs sfsvs path. unfold SpecModel.IncrementalPath.
  destruct (SpecModel.splitAtBase _ _) as [[base later]|]; [|discriminate].
  destruct (List.filter isSnapshot later) as [|x snaps] eqn:Hf; [discriminate|].
  destruct (List.filter _ (SpecModel.versionsAfter _ _)); [|discriminate].
  intros H. inversion H; subst path. cbn [tl].
  apply forallb_forall. intros e He.
  change (In e (map Some (x :: snaps))) in He.
  apply in_map_iff in He as (y & <- & Hy).
  rewrite <- Hf in Hy. apply filter_In in Hy. apply Hy.
Qed.

(** C1 fails as stated: the initial replication of three snapshots under
    policy All and the one-step policy is planned in two steps, the full send
    of the first snapshot and the collapsed rest, and neither carries a resume
    token. *)
Lemma C1_two_steps_without_resume_step :
  tryAutoresolveConflict (ConflictNoCommonAncestor [Examples.a; Examples.b; Examples.c] [])
    {| InitialReplication := InitialReplicationAutoResolutionAll |}
  = Returns ([None; Some Examples.a; Some Examples.b; Some Examples.c], None)
  /\ (let fs := Examples.fsOf InitialReplicationAutoResolutionAll
                  [Examples.a; Examples.b; Examples.c] [] None in
      stepsOfPath fs true [None; Some Examples.a; Some Examples.b; Some Examples.c]
      = Returns [newStep fs None (Some Examples.a) "";
                 newStep fs (Some Examples.a) (Some Examples.c) ""])
  /\ planTargets
       (Examples.plan (Examples.fsOf InitialReplicationAutoResolutionAll
                         [Examples.a; Examples.b; Examples.c] [] None) true)
     = Returns ([(None, Some Examples.a, ""); (Some Examples.a, Some Examples.c, "")], None).
Proof. repeat split; vm_compute; reflexivity. Qed.

(** ** The resume branch *)

(** One round of the scan. *)
Lemma findResumeVersions_cons tok sfsv rest idx fromVersion toVersion toVersionIdx :
  findResumeVersions tok (sfsv :: rest) idx fromVersion toVersion toVersionIdx
  = findResumeVersions tok rest (S idx)
      (if matchesFrom tok sfsv then
         match fromVersion with
         | Some f => if isSnapshot f then fromVersion else Some sfsv
         | None => Some sfsv
         end
       else fromVersion)
      (if matchesTo tok sfsv then Some sfsv else toVersion)
      (if matchesTo tok sfsv then idx else toVersionIdx).
Proof.
  cbn [findResumeVersions]. unfold matchesFrom, matchesTo.
  destruct (HasToGUID tok && Z.eqb (Guid (deref sfsv)) (ToGUID tok) && isSnapshot sfsv);
    reflexivity.
Qed.

Lemma last_match_split {A : Type} (p : A -> bool) (l : list A) :
  Forall (fun x => p x = false) l
  \/ exists older v newer,
       l = older ++ v :: newer /\ p v = true /\ Forall (fun x => p x = false) newer.
Proof.
  induction l as [|x l [IH|(older & v & newer & -> & Hv & Hnewer)]].
  - left. constructor.
  - destruct (p x) eqn:Hx.
    + right. exists [], x, l. auto.
    + left. constructor; assumption.
  - right. exists (x :: older), v, newer. auto.
Qed.

Lemma findResumeVersions_to_none tok (l : list VersionPtr) :
  Forall (fun v => matchesTo tok v = false) l ->
  forall idx f t ti, exists f', findResumeVersions tok l idx f t ti = (f', t, ti).
Proof.
  induction 1 as [|x l Hx _ IH]; intros idx f t ti.
  - simpl. eauto.
  - rewrite findResumeVersions_cons, Hx. apply IH.
Qed.

Lemma findResumeVersions_to_last tok (older : list VersionPtr) v newer :
  matchesTo tok v = true ->
  Forall (fun x => matchesTo tok x = false) newer ->
  forall idx f t ti,
    exists f', findResumeVersions tok (older ++ v :: newer) idx f t ti
               = (f', Some v, (idx + length older)%nat).
Proof.
  intros Hv Hnewer. induction older as [|x older IH]; intros idx f t ti.
  - cbn [app]. rewrite findResumeVersions_cons, Hv.
    destruct (findResumeVersions_to_none tok newer Hnewer (S idx)
                (if matchesFrom tok v then
                   match f with
                   | Some f0 => if isSnapshot f0 then f else Some v
                   | None => Some v
                   end
                 else f) (Some v) idx) as [f' ->].
    exists f'. simpl. rewrite Nat.add_0_r. reflexivity.
  - cbn [app]. rewrite findResumeVersions_cons.
    edestruct IH as [f' ->]. exists f'. simpl. rewrite Nat.add_succ_r. reflexivity.
Qed.

(** The to-version found by the scan is the last snapshot of the list that
    carries the token's to-guid, and the index is its index. *)
Lemma findResumeVersions_to_inv tok (l : list VersionPtr) idx f f' v idx' :
  findResumeVersions tok l idx f None 0 = (f', Some v, idx') ->
  exists older newer,
    l = older ++ v :: newer /\ idx' = (idx + length older)%nat
    /\ matchesTo tok v = true /\ Forall (fun x => matchesTo tok x = false) newer.
Proof.
  intros Hfind.
  destruct (last_match_split (matchesTo tok) l) as [Hnone|(older & w & newer & -> & Hw & Hnewer)].
  - destruct (findResumeVersions_to_none tok l Hnone idx f None 0%nat) as [f0 H0].
    rewrite H0 in Hfind. discriminate.
  - destruct (findResumeVersions_to_last tok older w newer Hw Hnewer idx f None 0%nat)
      as [f0 H0].
    rewrite H0 in Hfind. inversion Hfind; subst. exists older, newer. auto.
Qed.

(** The from-version the scan ends with is the one it started with or a
    version of the list that carries the token's from-guid, and it is not nil
    once the list has such a version. *)
Lemma findResumeVersions_from tok (l : list VersionPtr) :
  forall idx f t ti f' t' ti',
    findResumeVersions tok l idx f t ti = (f', t', ti') ->
    (f' = f \/ exists v, f' = Some v /\ In v l /\ matchesFrom tok v = true)
    /\ ((exists v, In v l /\ matchesFrom tok v = true) -> f' <> None).
Proof.
  induction l as [|x l IH]; intros idx f t ti f' t' ti' Hfind.
  - simpl in Hfind. inversion Hfind; subst. split; [auto|]. intros (v & [] & _).
  - rewrite findResumeVersions_cons in Hfind. apply IH in Hfind as [Hres Hfound].
    destruct (matchesFrom tok x) eqn:Hx.
    + assert (Hstep : match f with
                      | Some f0 => if isSnapshot f0 then f else Some x
                      | None => Some x
                      end = f
                      \/ match f with
                         | Some f0 => if isSnapshot f0 then f else Some x
                         | None => Some x
                         end = Some x)
        by (destruct f as [f0|]; [destruct (isSnapshot f0)|]; auto).
      assert (Hsome : match f with
                      | Some f0 => if isSnapshot f0 then f else Some x
                      | None => Some x
                      end <> None)
        by (destruct f as [f0|]; [destruct (isSnapshot f0)|]; discriminate).
      split.
      * destruct Hres as [->|(v & -> & Hin & Hv)].
        -- destruct Hstep as [->| ->]; [auto|]. right. exists x. simpl. auto.
        -- right. exists v. simpl. auto.
      * intros _. destruct Hres as [->|(v & -> & _)]; [exact Hsome | discriminate].
    + split.
      * destruct Hres as [->|(v & -> & Hin & Hv)]; [auto|]. right. exists v. simpl. auto.
      * intros (v & [<-|Hin] & Hv); [congruence|]. apply Hfound. eauto.
Qed.

Lemma findResumeVersions_from_kept tok (l : list VersionPtr) :
  forall idx f t ti,
    isSnapshotEntry f = true ->
    exists t' ti', findResumeVersions tok l idx f t ti = (f, t', ti').
Proof.
  induction l as [|x l IH]; intros idx f t ti Hf.
  - simpl. eauto.
  - rewrite findResumeVersions_cons.
    destruct f as [f0|]; [|discriminate]. simpl in Hf. rewrite Hf.
    destruct (matchesFrom tok x); apply IH; exact Hf.
Qed.

(** With a single snapshot carrying the from-guid the scan ends on it,
    whatever bookmarks share the guid. *)
Lemma findResumeVersions_from_snapshot tok (older : list VersionPtr) v newer :
  matchesFrom tok v = true ->
  isSnapshot v = true ->
  Forall (fun x => matchesFrom tok x && isSnapshot x = false) older ->
  forall idx f t ti,
    isSnapshotEntry f = false ->
    exists t' ti', findResumeVersions tok (older ++ v :: newer) idx f t ti = (Some v, t', ti').
Proof.
  intros Hv Hsnap Holder. induction Holder as [|x older Hx _ IH]; intros idx f t ti Hf.
  - cbn [app]. rewrite findResumeVersions_cons, Hv.
    assert (Hstep : match f with
                    | Some f0 => if isSnapshot f0 then f else Some v
                    | None => Some v
                    end = Some v).
    { destruct f as [f0|]; [|reflexivity]. simpl in Hf. now rewrite Hf. }
    rewrite Hstep. apply findResumeVersions_from_kept. exact Hsnap.
  - cbn [app]. rewrite findResumeVersions_cons. apply IH.
    destruct (matchesFrom tok x) eqn:Hmx; [|exact Hf].
    simpl in Hx.
    destruct f as [f0|]; [|exact Hx]. simpl in Hf. rewrite Hf. exact Hx.
Qed.

Lemma nth_error_last {A : Type} (l : list A) (d : A) :
  l <> [] -> nth_error l (length l - 1) = Some (List.last l d).
Proof.
  induction l as [|x [|y l] IH]; intros Hne; [congruence | reflexivity |].
  replace (length (x :: y :: l) - 1)%nat with (S (length (y :: l) - 1)) by (simpl; lia).
  cbn [nth_error]. rewrite IH by discriminate. reflexivity.
Qed.

(** Once the token is decoded the plan is the one of the resume branch, with
    the size estimates. *)
Lemma doPlanning_with_token IncrementalPath Sort Parse fs raw tok sfsvs oneStep :
  planningWithToken Parse fs raw tok sfsvs ->
  doPlanning IncrementalPath Sort Parse fs oneStep
  = match resumeSteps Sort fs oneStep raw tok sfsvs with
    | (_, Some e) => Returns ([], Some e)
    | (steps, None) => withSizeEstimates fs steps
    end.
Proof.
  intros (Hsender & (sresp & rresp & Hlist & Hversions) & Hne & (r & Hr & Hraw) & Hraw_ne
          & Hparse).
  unfold doPlanning. rewrite Hsender, Hlist, Hversions, Hr, Hraw.
  destruct sfsvs as [|v sfsvs]; [congruence|]. cbn [length Nat.ltb Nat.leb].
  destruct (String.eqb_spec raw "") as [->|_]; [congruence|]. cbn [negb].
  rewrite Hparse. reflexivity.
Qed.

Lemma withSizeEstimates_returns (fs : Filesystem) (steps : list Step) :
  SendDry_in_protocol (fs_sender fs) ->
  exists steps',
    withSizeEstimates fs steps = Returns (steps', None)
    /\ map stepTarget steps' = map stepTarget steps.
Proof.
  intros Hproto. destruct steps as [|s steps]; [exists []; auto|].
  unfold withSizeEstimates.
  destruct (updateSizeEstimates_returns fs (s :: steps) Hproto) as (steps' & err & Hupd).
  rewrite Hupd. exists steps'. split; [reflexivity|].
  eapply updateSizeEstimates_targets; eauto.
Qed.

Lemma resumeSteps_rejected Sort fs oneStep raw tok sfsvs fromVersion toVersion idx :
  findResumeVersions tok (Sort sfsvs) 0 None None 0 = (fromVersion, Some toVersion, idx) ->
  ptr_eqb fromVersion (Some toVersion) = true ->
  resumeSteps Sort fs oneStep raw tok sfsvs
  = ([], Some (errorString "resume token `fromguid` and `toguid` match same version on sener")).
Proof. intros Hfind Hsame. unfold resumeSteps. now rewrite Hfind, Hsame. Qed.

(** C6.  Once the resume token is decoded, the plan is the error "to-guid
    not found on sender", without steps, when no snapshot of the sorted sender
    list carries the token's to-guid; and it is the error "from-guid and
    to-guid match the same version", without steps, when the scan resolves
    both ends of the token to the same version, which is the case when the
    token's from-guid equals its to-guid and one snapshot carries it. *)
Theorem C6_resume_token_rejected
    (IncrementalPath :
       list VersionPtr -> list VersionPtr -> list (option VersionPtr) * option error)
    (Sort : list VersionPtr -> list VersionPtr)
    (Parse : string -> option ResumeToken * option error)
    (fs : Filesystem) (raw : string) (tok : ResumeToken) (sfsvs : list VersionPtr)
    (oneStep : bool) :
  planningWithToken Parse fs raw tok sfsvs ->
  ((forall v, In v (Sort sfsvs) -> isSnapshot v = true -> Guid (deref v) <> ToGUID tok) ->
   doPlanning IncrementalPath Sort Parse fs oneStep
   = Returns ([], Some (ErrResumeTokenToGuidNotFound (ToGUID tok) (ToName tok))))
  /\ (forall fromVersion toVersion idx,
         findResumeVersions tok (Sort sfsvs) 0 None None 0
         = (fromVersion, Some toVersion, idx) ->
         ptr_eqb fromVersion (Some toVersion) = true ->
         doPlanning IncrementalPath Sort Parse fs oneStep
         = Returns ([], Some (errorString
             "resume token `fromguid` and `toguid` match same version on sener")))
  /\ (forall older v newer,
         Sort sfsvs = older ++ v :: newer ->
         isSnapshot v = true ->
         Guid (deref v) = ToGUID tok ->
         HasToGUID tok = true ->
         HasFromGUID tok = true ->
         FromGUID tok = ToGUID tok ->
         (forall x, In x (older ++ newer) -> isSnapshot x = true ->
                    Guid (deref x) <> ToGUID tok) ->
         doPlanning IncrementalPath Sort Parse fs oneStep
         = Returns ([], Some (errorString
             "resume token `fromguid` and `toguid` match same version on sener"))).
Proof.
  intros Hplanning.
  rewrite (doPlanning_with_token IncrementalPath Sort Parse fs raw tok sfsvs oneStep Hplanning).
  split; [|split].
  - intros Hnone. unfold resumeSteps.
    assert (Hall : Forall (fun v => matchesTo tok v = false) (Sort sfsvs)).
    { apply List.Forall_forall. intros v Hin. unfold matchesTo.
      destruct (isSnapshot v) eqn:Hs; [|apply andb_false_r].
      destruct (Z.eqb_spec (Guid (deref v)) (ToGUID tok)) as [Heq|_].
      - now apply Hnone in Heq.
      - now rewrite andb_false_r. }
    destruct (findResumeVersions_to_none tok (Sort sfsvs) Hall 0%nat None None 0%nat)
      as [f' ->].
    reflexivity.
  - intros fromVersion toVersion idx Hfind Hsame.
    now rewrite (resumeSteps_rejected Sort fs oneStep raw tok sfsvs _ _ _ Hfind Hsame).
  - intros older v newer Hsplit Hsnap Hguid HhasTo HhasFrom Hsameguid Hunique.
    assert (Hto : matchesTo tok v = true).
    { unfold matchesTo. rewrite HhasTo, Hsnap, Hguid, Z.eqb_refl. reflexivity. }
    assert (Hfrom : matchesFrom tok v = true).
    { unfold matchesFrom. rewrite HhasFrom, Hsameguid, Hguid, Z.eqb_refl. reflexivity. }
    assert (Hnewer : Forall (fun x => matchesTo tok x = false) newer).
    { apply List.Forall_forall. intros x Hin. unfold matchesTo.
      destruct (isSnapshot x) eqn:Hs; [|apply andb_false_r].
      destruct (Z.eqb_spec (Guid (deref x)) (ToGUID tok)) as [Heq|_].
      - exfalso. apply (Hunique x); auto. apply in_or_app. auto.
      - now rewrite andb_false_r. }
    assert (Holder : Forall (fun x => matchesFrom tok x && isSnapshot x = false) older).
    { apply List.Forall_forall. intros x Hin. unfold matchesFrom.
      destruct (isSnapshot x) eqn:Hs; [|apply andb_false_r].
      rewrite Hsameguid.
      destruct (Z.eqb_spec (Guid (deref x)) (ToGUID tok)) as [Heq|_].
      - exfalso. apply (Hunique x); auto. apply in_or_app. auto.
      - now rewrite !andb_false_r. }
    destruct (findResumeVersions_to_last tok older v newer Hto Hnewer 0%nat None None 0%nat)
      as [f' Hfind1].
    destruct (findResumeVersions_from_snapshot tok older v newer Hfrom Hsnap Holder
                0%nat None None 0%nat eq_refl) as (t' & ti' & Hfind2).
    rewrite Hfind2 in Hfind1. inversion Hfind1; subst f' t' ti'.
    rewrite <- Hsplit in Hfind2.
    rewrite (resumeSteps_rejected Sort fs oneStep raw tok sfsvs _ _ _ Hfind2);
      [reflexivity|].
    simpl. apply Nat.eqb_refl.
Qed.

Lemma planningWithToken_example (token : string) (tok : ResumeToken) sversions rversions :
  sversions <> [] ->
  token <> "" ->
  SpecModel.ParseResumeToken Examples.issued token = (Some tok, None) ->
  planningWithToken (SpecModel.ParseResumeToken Examples.issued)
    (Examples.fsOf InitialReplicationAutoResolutionAll sversions rversions
       (Some (Examples.receiverDescriptor token)))
    token tok sversions.
Proof.
  intros Hne Htoken Hparse. repeat split; auto.
  - exists (Some {| Versions := sversions |}), (Some {| Versions := rversions |}).
    split; reflexivity.
  - exists (Examples.receiverDescriptor token). split; reflexivity.
Qed.

Lemma C6_resume_token_rejected_witness :
  Examples.plan (Examples.fsOf InitialReplicationAutoResolutionAll
                   [Examples.a; Examples.b; Examples.c] [Examples.a]
                   (Some (Examples.receiverDescriptor "1-bb"))) false
  = Returns ([], Some (errorString
      "resume token `fromguid` and `toguid` match same version on sener"))
  /\ Examples.plan (Examples.fsOf InitialReplicationAutoResolutionAll
                      [Examples.a; Examples.c] [Examples.a]
                      (Some (Examples.receiverDescriptor "1-ab"))) false
     = Returns ([], Some (ErrResumeTokenToGuidNotFound 102 "b")).
Proof.
  split.
  - refine (proj2 (proj2 (C6_resume_token_rejected
                            SpecModel.IncrementalPath
                            SpecModel.SortVersionListByCreateTXGThenBookmarkLTSnapshot
                            (SpecModel.ParseResumeToken Examples.issued)
                            _ "1-bb" Examples.tokenBB [Examples.a; Examples.b; Examples.c] false
                            (planningWithToken_example "1-bb" Examples.tokenBB
                               [Examples.a; Examples.b; Examples.c] [Examples.a] _ _ _)))
                   [Examples.a] Examples.b [Examples.c] _ _ _ _ _ _ _);
      try reflexivity; try discriminate.
    intros x [<-|[<-|[]]] _; discriminate.
  - refine (proj1 (C6_resume_token_rejected
                     SpecModel.IncrementalPath
                     SpecModel.SortVersionListByCreateTXGThenBookmarkLTSnapshot
                     (SpecModel.ParseResumeToken Examples.issued)
                     _ "1-ab" Examples.tokenAB [Examples.a; Examples.c] false
                     (planningWithToken_example "1-ab" Examples.tokenAB
                        [Examples.a; Examples.c] [Examples.a] _ _ _)) _);
      try reflexivity; try discriminate.
    intros x [<-|[<-|[]]] _; discriminate.
Defined.

Lemma map_stepTarget_cons_inv (s s0 : Step) (steps steps0 : list Step) :
  map stepTarget (s :: steps) = map stepTarget (s0 :: steps0) ->
  stepTarget s = stepTarget s0 /\ map stepTarget steps = map stepTarget steps0.
Proof.
  cbn [map]. intros H. split.
  - exact (f_equal (hd (stepTarget s)) H).
  - exact (f_equal (@tl _) H).
Qed.

(** The steps of the resume branch once both ends of the token are found and
    differ. *)
Lemma resumeSteps_accepted Sort fs oneStep raw tok sfsvs fromVersion toVersion idx :
  findResumeVersions tok (Sort sfsvs) 0 None None 0 = (fromVersion, Some toVersion, idx) ->
  ptr_eqb fromVersion (Some toVersion) = false ->
  exists newer,
    List.filter isSnapshot (skipn idx (Sort sfsvs))
    = toVersion :: List.filter isSnapshot newer
    /\ isSnapshot toVersion = true
    /\ Guid (deref toVersion) = ToGUID tok
    /\ exists rest,
         resumeSteps Sort fs oneStep raw tok sfsvs
         = (newStep fs fromVersion (Some toVersion) raw :: rest, None)
         /\ (oneStep = true ->
             List.filter isSnapshot newer <> [] ->
             rest = [newStep fs (Some toVersion)
                       (Some (List.last (List.filter isSnapshot newer) toVersion)) ""]).
Proof.
  intros Hfind Hdiff.
  destruct (findResumeVersions_to_inv _ _ _ _ _ _ _ Hfind)
    as (older & newer & Hsplit & Hidx & Hto & _).
  unfold matchesTo in Hto. apply andb_true_iff in Hto as [Hto Hsnap].
  apply andb_true_iff in Hto as [_ Hguid]. apply Z.eqb_eq in Hguid.
  assert (Hrem : List.filter isSnapshot (skipn idx (Sort sfsvs))
                 = toVersion :: List.filter isSnapshot newer).
  { rewrite Hsplit, Hidx. cbn [Nat.add].
    rewrite skipn_app, skipn_all, Nat.sub_diag. cbn [app skipn List.filter].
    now rewrite Hsnap. }
  exists newer. split; [exact Hrem|]. split; [exact Hsnap|]. split; [exact Hguid|].
  unfold resumeSteps. rewrite Hfind, Hdiff, Hrem.
  destruct (oneStep && Nat.ltb 1 (length (toVersion :: List.filter isSnapshot newer)))
    eqn:Hone.
  - eexists. split; [reflexivity|]. intros _ Hne.
    rewrite (nth_error_last _ toVersion) by discriminate.
    destruct (List.filter isSnapshot newer); [congruence | reflexivity].
  - eexists. split; [reflexivity|]. intros -> Hne. exfalso.
    destruct (List.filter isSnapshot newer); [congruence | discriminate].
Qed.

(** C2, as the code has it.  Let the resume token be decoded, let the scan
    of the sorted sender list find its to-version, and let the from-version
    it finds be another version.  Then every plan starts with the resume
    step: it carries the raw token, its to-version is a snapshot with the
    token's to-guid, its from-version is nil when the token has no from-guid
    and has the token's from-guid when some sender version carries it.  With
    the one-step policy and more than one snapshot at or after the to-version
    the plan is exactly the resume step followed by one step from the
    to-version, the first of these snapshots, to the last of them. *)
Theorem C2_resume_plan
    (IncrementalPath :
       list VersionPtr -> list VersionPtr -> list (option VersionPtr) * option error)
    (Sort : list VersionPtr -> list VersionPtr)
    (Parse : string -> option ResumeToken * option error)
    (fs : Filesystem) (raw : string) (tok : ResumeToken) (sfsvs : list VersionPtr)
    (fromVersion : option VersionPtr) (toVersion : VersionPtr) (idx : nat) :
  planningWithToken Parse fs raw tok sfsvs ->
  SendDry_in_protocol (fs_sender fs) ->
  findResumeVersions tok (Sort sfsvs) 0 None None 0 = (fromVersion, Some toVersion, idx) ->
  ptr_eqb fromVersion (Some toVersion) = false ->
  let remainingSFSVs := List.filter isSnapshot (skipn idx (Sort sfsvs)) in
  (forall oneStep,
      exists s1 rest,
        doPlanning IncrementalPath Sort Parse fs oneStep = Returns (s1 :: rest, None)
        /\ stepTarget s1 = (fromVersion, Some toVersion, raw)
        /\ isSnapshot toVersion = true
        /\ GetGuid (to s1) = ToGUID tok
        /\ (HasFromGUID tok = false -> from s1 = None)
        /\ (HasFromGUID tok = true ->
            (exists v, In v (Sort sfsvs) /\ Guid (deref v) = FromGUID tok) ->
            from s1 <> None /\ GetGuid (from s1) = FromGUID tok))
  /\ ((1 < length remainingSFSVs)%nat ->
      hd_error remainingSFSVs = Some toVersion
      /\ exists s1 s2,
           doPlanning IncrementalPath Sort Parse fs true = Returns ([s1; s2], None)
           /\ stepTarget s1 = (fromVersion, Some toVersion, raw)
           /\ stepTarget s2
              = (Some toVersion, Some (List.last remainingSFSVs toVersion), "")).
Proof.
  intros Hplanning Hproto Hfind Hdiff remainingSFSVs. split.
  - intros oneStep.
    rewrite (doPlanning_with_token IncrementalPath Sort Parse fs raw tok sfsvs oneStep
               Hplanning).
    destruct (resumeSteps_accepted Sort fs oneStep raw tok sfsvs _ _ _ Hfind Hdiff)
      as (newer & _ & Hsnap & Hguid & rest & -> & _).
    destruct (withSizeEstimates_returns fs
                (newStep fs fromVersion (Some toVersion) raw :: rest) Hproto)
      as (steps' & -> & Htargets).
    destruct steps' as [|s1 rest']; [discriminate|].
    apply map_stepTarget_cons_inv in Htargets as [Hs1 _].
    change (stepTarget s1 = (fromVersion, Some toVersion, raw)) in Hs1.
    exists s1, rest'.
    split; [reflexivity|]. split; [exact Hs1|]. split; [exact Hsnap|].
    assert (Hf : from s1 = fromVersion) by (unfold stepTarget in Hs1; congruence).
    assert (Ht : to s1 = Some toVersion) by (unfold stepTarget in Hs1; congruence).
    rewrite Hf, Ht. split; [exact Hguid|].
    pose proof (findResumeVersions_from _ _ _ _ _ _ _ _ _ Hfind) as [Hres Hfound].
    split.
    + intros Hno. destruct Hres as [->|(v & _ & _ & Hv)]; [reflexivity|].
      unfold matchesFrom in Hv. rewrite Hno in Hv. discriminate.
    + intros Hhas (v & Hin & Hv).
      assert (Hne : fromVersion <> None).
      { apply Hfound. exists v. split; [exact Hin|].
        unfold matchesFrom. rewrite Hhas, Hv, Z.eqb_refl. reflexivity. }
      split; [exact Hne|].
      destruct Hres as [->|(w & -> & _ & Hw)]; [congruence|].
      unfold matchesFrom in Hw. apply andb_true_iff in Hw as [_ Hw].
      apply Z.eqb_eq in Hw. exact Hw.
  - intros Hmore.
    rewrite (doPlanning_with_token IncrementalPath Sort Parse fs raw tok sfsvs true Hplanning).
    destruct (resumeSteps_accepted Sort fs true raw tok sfsvs _ _ _ Hfind Hdiff)
      as (newer & Hrem & _ & _ & rest & -> & Hrest).
    subst remainingSFSVs. rewrite Hrem in *. split; [reflexivity|].
    assert (Hne : List.filter isSnapshot newer <> []).
    { destruct (List.filter isSnapshot newer); [simpl in Hmore; lia | discriminate]. }
    rewrite (Hrest eq_refl Hne).
    destruct (withSizeEstimates_returns fs
                [newStep fs fromVersion (Some toVersion) raw;
                 newStep fs (Some toVersion)
                   (Some (List.last (List.filter isSnapshot newer) toVersion)) ""] Hproto)
      as (steps' & -> & Htargets).
    destruct steps' as [|s1 [|s2 [|s3 rest']]]; try discriminate.
    apply map_stepTarget_cons_inv in Htargets as [Hs1 Htargets].
    apply map_stepTarget_cons_inv in Htargets as [Hs2 _].
    exists s1, s2.
    split; [reflexivity|]. split; [exact Hs1|]. rewrite Hs2.
    replace (List.last (toVersion :: List.filter isSnapshot newer) toVersion)
      with (List.last (List.filter isSnapshot newer) toVersion)
      by (destruct (List.filter isSnapshot newer); [congruence | reflexivity]).
    reflexivity.
Qed.

Lemma senderOf_in_protocol (versions : list VersionPtr) :
  SendDry_in_protocol (Examples.senderOf versions).
Proof. intros req. simpl. rewrite length_map. lia. Qed.

Lemma C2_resume_plan_witness :
  exists s1 s2,
    Examples.plan (Examples.fsOf InitialReplicationAutoResolutionAll
                     [Examples.a; Examples.b; Examples.c] [Examples.a]
                     (Some (Examples.receiverDescriptor "1-ab"))) true
    = Returns ([s1; s2], None)
    /\ stepTarget s1 = (Some Examples.a, Some Examples.b, "1-ab")
    /\ stepTarget s2 = (Some Examples.b, Some Examples.c, "").
Proof.
  refine (proj2 (proj2 (C2_resume_plan
            SpecModel.IncrementalPath
            SpecModel.SortVersionListByCreateTXGThenBookmarkLTSnapshot
            (SpecModel.ParseResumeToken Examples.issued)
            _ "1-ab" Examples.tokenAB [Examples.a; Examples.b; Examples.c]
            (Some Examples.a) Examples.b 1%nat
            (planningWithToken_example "1-ab" Examples.tokenAB
               [Examples.a; Examples.b; Examples.c] [Examples.a] _ _ _)
            (senderOf_in_protocol _) _ _) _));
    try reflexivity; try discriminate.
  simpl. lia.
Defined.

(** C2 fails as stated, twice.  The token "1-gone" has a from-guid that no
    sender version carries: its plan is accepted and the from-version of the
    first step is nil, so that the step's from-GUID, 0, is not the token's.
    The token "1-bb" names the snapshot b as both ends: its to-version is
    found and two snapshots remain, yet the one-step plan is an error. *)
Lemma C2_from_guid_not_on_sender :
  planTargets (Examples.plan (Examples.fsOf InitialReplicationAutoResolutionAll
                                [Examples.a; Examples.b; Examples.c] [Examples.a]
                                (Some (Examples.receiverDescriptor "1-gone"))) true)
  = Returns ([(None, Some Examples.b, "1-gone"); (Some Examples.b, Some Examples.c, "")],
             None)
  /\ HasFromGUID Examples.tokenGoneB = true
  /\ GetGuid None <> FromGUID Examples.tokenGoneB
  /\ Examples.plan (Examples.fsOf InitialReplicationAutoResolutionAll
                      [Examples.a; Examples.b; Examples.c] [Examples.a]
                      (Some (Examples.receiverDescriptor "1-bb"))) true
     = Returns ([], Some (errorString
         "resume token `fromguid` and `toguid` match same version on sener")).
Proof.
  split; [vm_compute; reflexivity|]. split; [reflexivity|].
  split; [discriminate | vm_compute; reflexivity].
Qed.

(** ** The batched destroy *)

Section DestroyProperties.

Variable D : Type.
Variable Destroy : D -> list string -> D * option zfs.error.
Variable maxBatchSize : Z.

Lemma touchesOnly_refl (P : zfs.DestroySnapOp -> Prop) (st : zfs.State D) :
  touchesOnly P st st.
Proof.
  split; [|reflexivity]. exists []. split; [now rewrite app_nil_r | constructor].
Qed.

Lemma touchesOnly_trans (P : zfs.DestroySnapOp -> Prop) (st1 st2 st3 : zfs.State D) :
  touchesOnly P st1 st2 -> touchesOnly P st2 st3 -> touchesOnly P st1 st3.
Proof.
  intros [(c1 & Hc1 & HP1) Hf1] [(c2 & Hc2 & HP2) Hf2]. split.
  - exists (c1 ++ c2). split; [now rewrite Hc2, Hc1, app_assoc|].
    apply Forall_app. auto.
  - intros p Hp. rewrite Hf2, Hf1; auto.
Qed.

Lemma touchesOnly_mono (P Q : zfs.DestroySnapOp -> Prop) (st st' : zfs.State D) :
  (forall r, P r -> Q r) -> touchesOnly P st st' -> touchesOnly Q st st'.
Proof.
  intros HPQ [(c & Hc & HP) Hf]. split.
  - exists c. split; [exact Hc|].
    eapply List.Forall_impl; [|exact HP]. intros call Hcall.
    eapply List.Forall_impl; [|exact Hcall]. exact HPQ.
  - intros p Hp. apply Hf. intros r Hr. apply Hp, HPQ, Hr.
Qed.

Lemma assignErrOut_touches (P : zfs.DestroySnapOp -> Prop) r err (st : zfs.State D) :
  P r -> touchesOnly P st (zfs.assignErrOut D r err st).
Proof.
  intros Hr. split.
  - exists []. split; [now rewrite app_nil_r | constructor].
  - intros p Hp. cbn [zfs.assignErrOut zfs.errs]. apply lookup_insert_ne. auto.
Qed.

Lemma callDestroy_touches (P : zfs.DestroySnapOp -> Prop) batch args (st : zfs.State D) :
  Forall P batch ->
  touchesOnly P st (snd (zfs.callDestroy D Destroy batch args st)).
Proof.
  intros Hbatch. unfold zfs.callDestroy.
  destruct (Destroy (zfs.destroyer D st) args) as [d' err]. split.
  - exists [(batch, args)]. split; [reflexivity|]. repeat constructor. exact Hbatch.
  - reflexivity.
Qed.

Lemma setDestroySnapOpErr_touches (P : zfs.DestroySnapOp -> Prop) b err :
  Forall P b ->
  forall st : zfs.State D, touchesOnly P st (zfs.setDestroySnapOpErr D b err st).
Proof.
  induction 1 as [|r b Hr _ IH]; intros st; cbn [zfs.setDestroySnapOpErr].
  - apply touchesOnly_refl.
  - eapply touchesOnly_trans; [apply assignErrOut_touches; exact Hr | apply IH].
Qed.

Lemma doDestroySeq_touches (P : zfs.DestroySnapOp -> Prop) reqs :
  Forall P reqs ->
  forall st : zfs.State D, touchesOnly P st (zfs.doDestroySeq D Destroy reqs st).
Proof.
  induction 1 as [|r reqs Hr _ IH]; intros st; cbn [zfs.doDestroySeq].
  - apply touchesOnly_refl.
  - pose proof (callDestroy_touches P [r]
                  [zfs.Filesystem r +:+ "@" +:+ zfs.Name r] st
                  ltac:(repeat constructor; exact Hr)) as Hcall.
    destruct (zfs.callDestroy D Destroy [r] _ st) as [err st1]. cbn [snd] in Hcall.
    eapply touchesOnly_trans; [exact Hcall|].
    eapply touchesOnly_trans; [apply assignErrOut_touches; exact Hr | apply IH].
Qed.

Lemma Forall_In_self {A : Type} (l : list A) : Forall (fun x => In x l) l.
Proof. apply List.Forall_forall. auto. Qed.

Lemma sameFilesystem_incl (b b' : list zfs.DestroySnapOp) :
  (forall r, In r b' -> In r b) -> sameFilesystem b -> sameFilesystem b'.
Proof. intros Hincl Hsame r1 r2 H1 H2. apply Hsame; auto. Qed.

Lemma tryBatch_returns (batch : list zfs.DestroySnapOp) (st : zfs.State D) :
  sameFilesystem batch ->
  exists err st',
    zfs.tryBatch D Destroy batch st = Returns (err, st')
    /\ touchesOnly (fun r => In r batch) st st'.
Proof.
  intros Hsame. unfold zfs.tryBatch. destruct batch as [|first rest].
  - exists None, st. split; [reflexivity | apply touchesOnly_refl].
  - assert (Hall : forallb (fun r => String.eqb (zfs.Filesystem first) (zfs.Filesystem r))
                     (first :: rest) = true).
    { apply forallb_forall. intros r Hr. apply String.eqb_eq.
      apply Hsame; [left; reflexivity | exact Hr]. }
    rewrite Hall.
    pose proof (callDestroy_touches (fun r => In r (first :: rest)) (first :: rest)
                  [zfs.Filesystem first +:+ "@"
                   +:+ String.concat "," (map zfs.Name (first :: rest))] st
                  (Forall_In_self _)) as Hcall.
    destruct (zfs.callDestroy D Destroy (first :: rest) _ st) as [err st'].
    exists err, st'. split; [reflexivity | exact Hcall].
Qed.

Lemma In_firstn {A : Type} (n : nat) (l : list A) x : In x (firstn n l) -> In x l.
Proof. intros H. rewrite <- (firstn_skipn n l). apply in_or_app. auto. Qed.

Lemma In_skipn {A : Type} (n : nat) (l : list A) x : In x (skipn n l) -> In x l.
Proof. intros H. rewrite <- (firstn_skipn n l). apply in_or_app. auto. Qed.

Lemma stripUndestroyable_incl undestroyable (fsbatch strippedBatch remaining : list zfs.DestroySnapOp) :
  zfs.stripUndestroyable undestroyable fsbatch = (strippedBatch, remaining) ->
  (forall r, In r strippedBatch -> In r fsbatch)
  /\ (forall r, In r remaining -> In r fsbatch).
Proof.
  unfold zfs.stripUndestroyable. intros H. inversion H; subst.
  split; intros r Hr; apply filter_In in Hr; apply Hr.
Qed.

(** The recursion never panics and never runs out of fuel on a batch of one
    filesystem, given fuel for the length of the batch. *)
Lemma doDestroyBatchedRec_returns (fuel : nat) :
  forall (fsbatch : list zfs.DestroySnapOp) (st : zfs.State D),
    (length fsbatch <= fuel)%nat ->
    sameFilesystem fsbatch ->
    exists st',
      zfs.doDestroyBatchedRec D Destroy fuel fsbatch st = Some (Returns st')
      /\ touchesOnly (fun r => In r fsbatch) st st'.
Proof.
  induction fuel as [|fuel IH]; intros fsbatch st Hlen Hsame.
  - destruct fsbatch; [|simpl in Hlen; lia].
    exists st. split; [reflexivity | apply touchesOnly_refl].
  - assert (Hseq : forall l st0,
               (forall r, In r l -> In r fsbatch) ->
               touchesOnly (fun r => In r fsbatch) st0 (zfs.doDestroySeq D Destroy l st0)).
    { intros l st0 Hincl. apply doDestroySeq_touches. apply List.Forall_forall. exact Hincl. }
    cbn [zfs.doDestroyBatchedRec].
    destruct (Nat.leb_spec (length fsbatch) 1) as [Hshort|Hlong].
    { eexists. split; [reflexivity|]. apply Hseq. auto. }
    destruct (tryBatch_returns fsbatch st Hsame) as (err & st1 & -> & Htry).
    destruct err as [err|].
    2:{ eexists. split; [reflexivity|]. eapply touchesOnly_trans; [exact Htry|].
        apply setDestroySnapOpErr_touches, Forall_In_self. }
    destruct (match zfs.As_PathError err with
              | Some inner => zfs.Is_E2BIG inner
              | None => false
              end).
    + assert (Hhalf : (0 < length fsbatch / 2 < length fsbatch)%nat).
      { split; [apply Nat.div_str_pos; lia | apply Nat.div_lt; lia]. }
      destruct (IH (firstn (length fsbatch / 2) fsbatch) st1) as (st2 & -> & H2).
      { rewrite length_firstn. lia. }
      { eapply sameFilesystem_incl; [|exact Hsame]. intros r. apply In_firstn. }
      destruct (IH (skipn (length fsbatch / 2) fsbatch) st2) as (st3 & -> & H3).
      { rewrite length_skipn. lia. }
      { eapply sameFilesystem_incl; [|exact Hsame]. intros r. apply In_skipn. }
      exists st3. split; [reflexivity|].
      eapply touchesOnly_trans; [exact Htry|].
      eapply touchesOnly_trans.
      * eapply touchesOnly_mono; [|exact H2]. intros r. apply In_firstn.
      * eapply touchesOnly_mono; [|exact H3]. intros r. apply In_skipn.
    + destruct (zfs.As_DestroySnapshotsError err) as [undestroyable|].
      2:{ eexists. split; [reflexivity|].
          eapply touchesOnly_trans; [exact Htry | apply Hseq; auto]. }
      destruct (zfs.stripUndestroyable undestroyable fsbatch)
        as [strippedBatch remaining] eqn:Hstrip.
      apply stripUndestroyable_incl in Hstrip as [Hstripped Hremaining].
      destruct (tryBatch_returns strippedBatch st1
                  (sameFilesystem_incl _ _ Hstripped Hsame)) as (err2 & st2 & -> & Htry2).
      apply (touchesOnly_mono _ (fun r => In r fsbatch)) in Htry2; [|exact Hstripped].
      destruct err2 as [err2|].
      * eexists. split; [reflexivity|].
        eapply touchesOnly_trans; [exact Htry|].
        eapply touchesOnly_trans; [exact Htry2 | apply Hseq; auto].
      * eexists. split; [reflexivity|].
        eapply touchesOnly_trans; [exact Htry|].
        eapply touchesOnly_trans; [exact Htry2|].
        eapply touchesOnly_trans; [|apply Hseq; exact Hremaining].
        apply setDestroySnapOpErr_touches. apply List.Forall_forall. exact Hstripped.
Qed.

Lemma doDestroyBatches_returns (perFS : list (list zfs.DestroySnapOp)) :
  Forall sameFilesystem perFS ->
  forall st : zfs.State D,
    exists st',
      zfs.doDestroyBatches D Destroy perFS st = Some (Returns st')
      /\ touchesOnly (fun r => In r (concat perFS)) st st'.
Proof.
  induction 1 as [|fsbatch perFS Hsame _ IH]; intros st; cbn [zfs.doDestroyBatches].
  - exists st. split; [reflexivity | apply touchesOnly_refl].
  - destruct (doDestroyBatchedRec_returns (length fsbatch) fsbatch st (Nat.le_refl _) Hsame)
      as (st1 & -> & H1).
    destruct (IH st1) as (st2 & -> & H2).
    exists st2. split; [reflexivity|].
    eapply touchesOnly_trans.
    + eapply touchesOnly_mono; [|exact H1]. intros r Hr. cbn [concat]. apply in_or_app. auto.
    + eapply touchesOnly_mono; [|exact H2]. intros r Hr. cbn [concat]. apply in_or_app. auto.
Qed.

End DestroyProperties.

Section DestroyEntryPoint.

Variable D : Type.
Variable Destroy : D -> list string -> D * option zfs.error.
Variable maxBatchSize : Z.

Lemma assignErrOut_holds r e (st : zfs.State D) p :
  holdsError st p \/ zfs.ErrOut r = p ->
  holdsError (zfs.assignErrOut D r (Some e) st) p.
Proof.
  unfold holdsError. cbn [zfs.assignErrOut zfs.errs]. intros H.
  destruct (decide (zfs.ErrOut r = p)) as [->|Hne].
  - exists e. apply lookup_insert_eq.
  - destruct H as [[e0 H]|H]; [|contradiction].
    exists e0. rewrite lookup_insert_ne; auto.
Qed.

(** The validation loop keeps the requests with a filesystem and a name, in
    order, leaves an error in the variable of every other request, and calls
    nothing. *)
Lemma validate_spec (reqs : list zfs.DestroySnapOp) :
  forall st : zfs.State D,
    exists st1,
      zfs.validate D reqs st = (List.filter validOp reqs, st1)
      /\ zfs.destroyer D st1 = zfs.destroyer D st
      /\ zfs.destroyed D st1 = zfs.destroyed D st
      /\ (forall p, holdsError st p -> holdsError st1 p)
      /\ (forall r, In r reqs -> validOp r = false -> holdsError st1 (zfs.ErrOut r)).
Proof.
  induction reqs as [|req rest IH]; intros st.
  - exists st. simpl. repeat split; auto. intros r [].
  - cbn [zfs.validate List.filter]. unfold validOp at 1.
    destruct (String.eqb (zfs.Filesystem req) "") eqn:Hfs; cbn [negb andb].
    + destruct (IH (zfs.assignErrOut D req
                      (Some (zfs.errorString "Filesystem must not be an empty string")) st))
        as (st1 & -> & Hd & Hl & Hkeep & Hbad).
      exists st1. repeat split; auto.
      * intros p Hp. apply Hkeep, assignErrOut_holds. auto.
      * intros r [<-|Hin] Hr; [|auto]. apply Hkeep, assignErrOut_holds. auto.
    + destruct (String.eqb (zfs.Name req) "") eqn:Hname; cbn [negb].
      * destruct (IH (zfs.assignErrOut D req
                        (Some (zfs.errorString "Name must not be an empty string")) st))
          as (st1 & -> & Hd & Hl & Hkeep & Hbad).
        exists st1. repeat split; auto.
        -- intros p Hp. apply Hkeep, assignErrOut_holds. auto.
        -- intros r [<-|Hin] Hr; [|auto]. apply Hkeep, assignErrOut_holds. auto.
      * destruct (IH st) as (st1 & -> & Hd & Hl & Hkeep & Hbad).
        exists st1. repeat split; auto.
        intros r [<-|Hin] Hr; [|auto].
        unfold validOp in Hr. rewrite Hfs, Hname in Hr. discriminate.
Qed.

Lemma insertOp_perm x (l : list zfs.DestroySnapOp) : Permutation (zfs.insertOp x l) (x :: l).
Proof.
  induction l as [|y l IH]; cbn [zfs.insertOp]; [reflexivity|].
  destruct (zfs.lessOp y x); [|reflexivity].
  rewrite IH. apply perm_swap.
Qed.

Lemma sortStable_perm (l : list zfs.DestroySnapOp) : Permutation (zfs.sortStable l) l.
Proof.
  induction l as [|x l IH]; cbn [zfs.sortStable]; [reflexivity|].
  rewrite insertOp_perm. now constructor.
Qed.

Lemma takeBatch_spec (fs : string) (l : list zfs.DestroySnapOp) :
  forall taken b remainder,
    zfs.takeBatch maxBatchSize fs taken l = (b, remainder) ->
    l = b ++ remainder /\ Forall (fun r => zfs.Filesystem r = fs) b.
Proof.
  induction l as [|r rest IH]; intros taken b remainder H; cbn [zfs.takeBatch] in H.
  - inversion H. auto.
  - destruct ((Z.ltb maxBatchSize 1 || Z.ltb taken maxBatchSize)
              && String.eqb (zfs.Filesystem r) fs) eqn:Hcond.
    + destruct (zfs.takeBatch maxBatchSize fs (taken + 1) rest) as [b' rem'] eqn:Hrec.
      inversion H; subst. destruct (IH _ _ _ Hrec) as [-> Hb'].
      split; [reflexivity|]. constructor; [|exact Hb'].
      apply andb_true_iff in Hcond as [_ Hfs]. now apply String.eqb_eq.
    + inversion H. auto.
Qed.

(** The batch that starts at a request holds that request: the round of the
    grouping loop makes progress. *)
Lemma takeBatch_head r (rest : list zfs.DestroySnapOp) :
  exists b remainder,
    zfs.takeBatch maxBatchSize (zfs.Filesystem r) 0 (r :: rest) = (r :: b, remainder).
Proof.
  cbn [zfs.takeBatch].
  assert (Hcond : (Z.ltb maxBatchSize 1 || Z.ltb 0 maxBatchSize)
                  && String.eqb (zfs.Filesystem r) (zfs.Filesystem r) = true).
  { rewrite String.eqb_refl, andb_true_r.
    destruct (Z.ltb_spec maxBatchSize 1); [reflexivity|].
    destruct (Z.ltb_spec 0 maxBatchSize); [reflexivity | lia]. }
  rewrite Hcond.
  destruct (zfs.takeBatch maxBatchSize (zfs.Filesystem r) (0 + 1) rest) as [b remainder].
  eauto.
Qed.

Lemma groupBatches_spec (fuel : nat) :
  forall sorted : list zfs.DestroySnapOp,
    (length sorted <= fuel)%nat ->
    concat (zfs.groupBatches maxBatchSize fuel sorted) = sorted
    /\ Forall (fun b => b <> [] /\ sameFilesystem b)
              (zfs.groupBatches maxBatchSize fuel sorted).
Proof.
  induction fuel as [|fuel IH]; intros [|r rest] Hlen; cbn [zfs.groupBatches];
    try (split; [reflexivity | constructor]).
  - simpl in Hlen. lia.
  - destruct (takeBatch_head r rest) as (b & remainder & Htake). rewrite Htake.
    apply takeBatch_spec in Htake as [Hsplit Hfs].
    assert (Hrem : (length remainder <= fuel)%nat).
    { apply (f_equal (@length _)) in Hsplit. cbn [length app] in Hsplit.
      rewrite length_app in Hsplit. simpl in Hlen. lia. }
    destruct (IH remainder Hrem) as [Hconcat Hall]. split.
    + cbn [concat]. rewrite Hconcat. symmetry. exact Hsplit.
    + constructor; [|exact Hall]. split; [discriminate|].
      rewrite List.Forall_forall in Hfs.
      intros r1 r2 H1 H2. rewrite (Hfs r1 H1), (Hfs r2 H2). reflexivity.
Qed.

(** The batches are a partition of the requests, each batch on one
    filesystem. *)
Lemma buildBatches_spec (reqs : list zfs.DestroySnapOp) :
  Permutation (concat (zfs.buildBatches maxBatchSize reqs)) reqs
  /\ Forall (fun b => b <> [] /\ sameFilesystem b) (zfs.buildBatches maxBatchSize reqs).
Proof.
  unfold zfs.buildBatches. destruct reqs as [|r reqs]; [split; [reflexivity | constructor]|].
  destruct (groupBatches_spec (length (zfs.sortStable (r :: reqs)))
              (zfs.sortStable (r :: reqs)) (Nat.le_refl _)) as [Hconcat Hall].
  split; [|exact Hall]. rewrite Hconcat. apply sortStable_perm.
Qed.

(** C10.  Whatever the requests, the destroyer and the batch size limit:
    the validation leaves an error in the variable of every request with an
    empty Filesystem or an empty Name; the batches built from the other
    requests are a partition of them into non-empty batches, each on one
    filesystem; doDestroy returns, so the panic of tryBatch is not reached;
    every call of the destroyer is made for requests of the input that have a
    filesystem and a name; and the error of a rejected request is still in
    its variable at the end, unless a valid request shares the variable. *)
Theorem C10_doDestroy_rejects_and_batches
    (reqs : list zfs.DestroySnapOp) (st : zfs.State D) :
  let validated := List.filter validOp reqs in
  let rejected r := In r reqs /\ (zfs.Filesystem r = "" \/ zfs.Name r = "") in
  (exists st1,
      zfs.validate D reqs st = (validated, st1)
      /\ zfs.destroyed D st1 = zfs.destroyed D st
      /\ forall r, rejected r -> holdsError st1 (zfs.ErrOut r))
  /\ Permutation (concat (zfs.buildBatches maxBatchSize validated)) validated
  /\ Forall (fun b => b <> [] /\ sameFilesystem b) (zfs.buildBatches maxBatchSize validated)
  /\ exists st',
       zfs.doDestroy D Destroy maxBatchSize reqs st = Some (Returns st')
       /\ (exists calls_,
              zfs.destroyed D st' = zfs.destroyed D st ++ calls_
              /\ Forall (fun call =>
                           Forall (fun r => In r reqs /\ zfs.Filesystem r <> ""
                                            /\ zfs.Name r <> "" /\ ~ rejected r)
                                  (fst call)) calls_)
       /\ (forall r, rejected r ->
                     (forall r', In r' validated -> zfs.ErrOut r' <> zfs.ErrOut r) ->
                     holdsError st' (zfs.ErrOut r)).
Proof.
  intros validated rejected.
  assert (Hvalid : forall r, validOp r = true <-> zfs.Filesystem r <> "" /\ zfs.Name r <> "").
  { intros r. unfold validOp.
    destruct (String.eqb_spec (zfs.Filesystem r) ""), (String.eqb_spec (zfs.Name r) "");
      simpl; split; try tauto; try discriminate; intros [? ?]; congruence. }
  assert (Hrejected : forall r, rejected r -> In r reqs /\ validOp r = false).
  { intros r [Hin Hempty]. split; [exact Hin|].
    destruct (validOp r) eqn:Hv; [|reflexivity].
    apply Hvalid in Hv. tauto. }
  destruct (validate_spec reqs st) as (st1 & Hval & Hd & Hl & _ & Hbad).
  destruct (buildBatches_spec validated) as [Hperm Hall].
  split; [|split; [exact Hperm | split; [exact Hall|]]].
  { exists st1. split; [exact Hval|]. split; [exact Hl|].
    intros r Hr. apply Hrejected in Hr as [Hin Hv]. auto. }
  unfold zfs.doDestroy, zfs.doDestroyBatched. rewrite Hval. fold validated.
  destruct (doDestroyBatches_returns D Destroy (zfs.buildBatches maxBatchSize validated)
              ltac:(eapply List.Forall_impl; [|exact Hall]; intros b Hb; apply Hb) st1)
    as (st' & -> & Htouch).
  apply (touchesOnly_mono D _ (fun r => In r validated)) in Htouch.
  2:{ intros r Hr. eapply Permutation_in; [exact Hperm | exact Hr]. }
  destruct Htouch as [(calls_ & Hcalls & Hlogged) Hframe].
  exists st'. split; [reflexivity|]. split.
  - exists calls_. split; [now rewrite Hcalls, Hl|].
    eapply List.Forall_impl; [|exact Hlogged]. intros call Hcall.
    eapply List.Forall_impl; [|exact Hcall]. intros r Hr.
    apply filter_In in Hr as [Hin Hv]. split; [exact Hin|].
    pose proof (proj1 (Hvalid r) Hv) as [Hfs Hname]. split; [exact Hfs|]. split; [exact Hname|].
    intros [_ [Hempty|Hempty]]; contradiction.
  - intros r Hr Hunshared. apply Hrejected in Hr as [Hin Hv].
    destruct (Hbad r Hin Hv) as [e He]. exists e.
    rewrite Hframe; [exact He|]. exact Hunshared.
Qed.

End DestroyEntryPoint.

(** A destroyer that answers E2BIG to more than two names at once and
    refuses the snapshot [held]; its state counts the calls. *)
Example doDestroy_run :
  let Destroy (n : nat) (args : list string) : nat * option zfs.error :=
    (S n,
     match args with
     | [arg] =>
         if Nat.ltb 14 (String.length arg)
         then Some (zfs.PathError "fork/exec" "/sbin/zfs" (zfs.Errno zfs.E2BIG))
         else if String.eqb arg "tank/a@held" then Some (zfs.errorString "dataset is busy")
         else None
     | _ => Some (zfs.errorString "unexpected number of arguments")
     end) in
  let op fs name p := {| zfs.Filesystem := fs; zfs.Name := name; zfs.ErrOut := p |} in
  let reqs := [op "tank/b" "s1" 0; op "" "s2" 1; op "tank/a" "s3" 2; op "tank/a" "held" 3;
               op "tank/a" "s1" 4; op "tank/b" "" 5]%nat in
  match zfs.doDestroy nat Destroy 0 reqs
          {| zfs.errs := ∅; zfs.destroyer := 0%nat; zfs.destroyed := [] |} with
  | Some (Returns st') =>
      map snd (zfs.destroyed nat st')
      = [["tank/a@held,s1,s3"]; ["tank/a@held"]; ["tank/a@s1,s3"]; ["tank/b@s1"]]
      /\ zfs.errs nat st' !! 1%nat
         = Some (Some (zfs.errorString "Filesystem must not be an empty string"))
      /\ zfs.errs nat st' !! 5%nat
         = Some (Some (zfs.errorString "Name must not be an empty string"))
      /\ zfs.errs nat st' !! 3%nat = Some (Some (zfs.errorString "dataset is busy"))
      /\ zfs.errs nat st' !! 2%nat = Some None
  | _ => False
  end.
Proof. vm_compute. repeat split. Qed.

(** When TargetEquals answers true. *)
Lemma TargetEquals_true_iff (s t : Step) :
  TargetEquals s (driver_Step_Step t) = Returns true
  <-> fs_Path (parent s) = fs_Path (parent t)
      /\ GetGuid (from s) = GetGuid (from t)
      /\ GetGuid (to s) = GetGuid (to t).
Proof.
  unfold TargetEquals, EqualToPreviousAttempt.
  destruct (String.eqb_spec (fs_Path (parent s)) (fs_Path (parent t))) as [Heq|Hne]; simpl.
  - split.
    + intros H. apply Returns_inj in H. apply andb_true_iff in H as [H1 H2].
      apply Z.eqb_eq in H1, H2. auto.
    + intros (_ & H1 & H2). rewrite H1, H2, !Z.eqb_refl. reflexivity.
  - split; [discriminate | intros (H & _); congruence].
Qed.

(** * Further properties of the planner and the step engine *)

(** ** Step.TargetEquals as an equivalence *)

(** X1.  On the steps of this package TargetEquals is reflexive and
    symmetric, panics included, and transitive where it returns true: steps
    are compared by the path of their parent and their two GUIDs only. *)
Theorem TargetEquals_equivalence (s t u : Step) :
  TargetEquals s (driver_Step_Step s) = Returns true
  /\ TargetEquals s (driver_Step_Step t) = TargetEquals t (driver_Step_Step s)
  /\ (TargetEquals s (driver_Step_Step t) = Returns true ->
      TargetEquals t (driver_Step_Step u) = Returns true ->
      TargetEquals s (driver_Step_Step u) = Returns true).
Proof.
  split; [|split].
  - apply TargetEquals_true_iff. auto.
  - unfold TargetEquals, EqualToPreviousAttempt.
    rewrite (String.eqb_sym (fs_Path (parent t))).
    destruct (String.eqb (fs_Path (parent s)) (fs_Path (parent t))); [|reflexivity].
    cbn [negb]. now rewrite (Z.eqb_sym (GetGuid (from t))), (Z.eqb_sym (GetGuid (to t))).
  - intros Hst Htu. apply TargetEquals_true_iff in Hst as (H1 & H2 & H3).
    apply TargetEquals_true_iff in Htu as (H4 & H5 & H6).
    apply TargetEquals_true_iff. repeat split; congruence.
Qed.

(** ** What the auto-resolver can answer *)

Lemma mostRecentSnap_In (l : list VersionPtr) s :
  mostRecentSnap l = Some s -> In s l /\ isSnapshot s = true.
Proof.
  intros H. pose proof (mostRecentSnap_spec l) as Hspec. rewrite H in Hspec.
  destruct Hspec as (older & newer & -> & Hs & _). split; [|exact Hs].
  apply in_or_app. right. left. reflexivity.
Qed.

(** X2.  Whatever the conflict and the policy, a result of the auto-resolver
    has an error or a path, never both.  A path it returns is empty or starts
    with nil, and each of its other entries is nil or a snapshot of the
    conflict's sender list: no bookmark, no receiver version, nothing the
    sender does not have. *)
Theorem tryAutoresolveConflict_paths
    (conflict : error) (policy_ : ConflictResolution)
    (path : list (option VersionPtr)) (reason : option error) :
  tryAutoresolveConflict conflict policy_ = Returns (path, reason) ->
  (reason <> None -> path = [])
  /\ (path <> [] ->
      exists senderVersions later,
        As_ConflictNoCommonAncestor conflict = Some (senderVersions, [])
        /\ path = None :: later
        /\ forall e, In e later ->
                     e = None
                     \/ exists v, e = Some v /\ In v senderVersions /\ isSnapshot v = true).
Proof.
  unfold tryAutoresolveConflict.
  destruct (As_ConflictMostRecentSnapshotAlreadyPresent conflict).
  { intros H. inversion H. split; congruence. }
  destruct (As_ConflictNoCommonAncestor conflict) as [[s r]|].
  2:{ intros H. inversion H. split; congruence. }
  destruct r as [|r0 r].
  2:{ intros H. inversion H. split; congruence. }
  destruct s as [|v s].
  { intros H. inversion H. split; congruence. }
  destruct (InitialReplication policy_); intros H; inversion H; subst.
  - split; [congruence|]. intros _. exists (v :: s), [mostRecentSnap (v :: s)].
    split; [reflexivity|]. split; [reflexivity|].
    intros e [<-|[]]. destruct (mostRecentSnap (v :: s)) as [m|] eqn:Hm; [|auto].
    right. exists m. apply mostRecentSnap_In in Hm. tauto.
  - split; [congruence|]. intros _.
    exists (v :: s), (map Some (List.filter isSnapshot (v :: s))).
    split; [reflexivity|]. split; [exact (appendSnapshots_filter (v :: s) [None])|].
    intros e He. apply in_map_iff in He as (x & <- & Hx). apply filter_In in Hx.
    right. exists x. tauto.
  - split; congruence.
Qed.

Lemma tryAutoresolveConflict_paths_witness :
  exists later,
    [None; Some Examples.a; Some Examples.b] = None :: later
    /\ forall e, In e later ->
                 e = None
                 \/ exists v, e = Some v /\ In v [Examples.a; Examples.bm; Examples.b]
                              /\ isSnapshot v = true.
Proof.
  destruct (proj2 (tryAutoresolveConflict_paths
                     (wrapError "plan: "
                        (ConflictNoCommonAncestor [Examples.a; Examples.bm; Examples.b] []))
                     {| InitialReplication := InitialReplicationAutoResolutionAll |}
                     [None; Some Examples.a; Some Examples.b] None eq_refl)
                  ltac:(discriminate))
    as (senderVersions & later & Hnca & Hpath & Hlater).
  exists later. split; [exact Hpath|].
  injection Hnca as <-. exact Hlater.
Defined.

(** ** Invariants of a plan *)

Ltac break_match_in H :=
  match type of H with
  | context [match ?x with _ => _ end] => destruct x eqn:?
  end.

Lemma withSizeEstimates_no_error (fs : Filesystem) (steps steps' : list Step) e :
  withSizeEstimates fs steps <> Returns (steps', Some e).
Proof.
  unfold withSizeEstimates. destruct steps; [discriminate|].
  destruct (updateSizeEstimates fs _) as [[s' err]|]; discriminate.
Qed.

Lemma incrementalSteps_fresh (fs : Filesystem) (l : list VersionPtr) :
  Forall (freshStep fs) (incrementalSteps fs l).
Proof.
  induction l as [|a [|b l] IH]; try constructor.
  - exists (Some a), (Some b), "". reflexivity.
  - exact IH.
Qed.

Lemma pathSteps_fresh (fs : Filesystem) oneStep lst (path : list (option VersionPtr)) :
  Forall (freshStep fs) (pathSteps fs oneStep lst path).
Proof.
  induction path as [|e1 [|e2 rest] IH]; try constructor.
  rewrite pathSteps_cons.
  destruct (match e1 with Some f => oneStep && isSnapshot f | None => false end).
  - repeat constructor. exists e1, lst, "". reflexivity.
  - constructor; [|exact IH]. exists e1, e2, "". reflexivity.
Qed.

Lemma stepsOfPath_fresh (fs : Filesystem) oneStep path steps :
  stepsOfPath fs oneStep path = Returns steps -> Forall (freshStep fs) steps.
Proof.
  destruct path as [|e1 [|e2 rest]]; intros H; try discriminate;
    apply Returns_inj in H; subst steps; [constructor | apply pathSteps_fresh].
Qed.

Lemma resumeSteps_fresh Sort (fs : Filesystem) oneStep raw tok sfsvs steps err :
  resumeSteps Sort fs oneStep raw tok sfsvs = (steps, err) -> Forall (freshStep fs) steps.
Proof.
  unfold resumeSteps.
  destruct (findResumeVersions tok (Sort sfsvs) 0 None None 0) as [[fromV toV] idx].
  destruct toV as [toV|]; [|intros H; inversion H; constructor].
  destruct (ptr_eqb fromV (Some toV)); [intros H; inversion H; constructor|].
  destruct (oneStep && Nat.ltb 1 _); intros H; inversion H; subst.
  - repeat constructor; eexists _, _, _; reflexivity.
  - constructor; [eexists _, _, _; reflexivity | apply incrementalSteps_fresh].
Qed.

Lemma pathPlan_fresh IncrementalPath (fs : Filesystem) oneStep rfsvs sfsvs steps err :
  pathPlan IncrementalPath fs oneStep rfsvs sfsvs = Returns (steps, err) ->
  Forall (freshStep fs) steps.
Proof.
  unfold pathPlan. destruct (IncrementalPath rfsvs sfsvs) as [path0 conflict0].
  destruct (match conflict0 with
            | Some c => tryAutoresolveConflict c (policy_ConflictResolution (policy fs))
            | None => Returns (path0, None)
            end) as [[path [c|]]|]; try discriminate.
  - intros H. inversion H. constructor.
  - destruct (stepsOfPath fs oneStep path) as [steps0|] eqn:Hsteps; [|discriminate].
    intros H. inversion H; subst. eapply stepsOfPath_fresh; eauto.
Qed.

Lemma freshStep_plannedFor (fs : Filesystem) (s : Step) :
  freshStep fs s -> plannedFor fs s /\ expectedSize s = 0.
Proof. intros (f & t & tok & ->). repeat split. Qed.

Lemma setExpectedSizes_plannedFor (fs : Filesystem) (steps : list Step) :
  forall items steps',
    setExpectedSizes steps items = Some steps' ->
    Forall (plannedFor fs) steps -> Forall (plannedFor fs) steps'.
Proof.
  induction steps as [|s steps IH]; intros [|item items] steps' H Hall; simpl in H.
  - now inversion H.
  - discriminate.
  - now inversion H.
  - destruct (setExpectedSizes steps items) as [rest|] eqn:E; [|discriminate].
    inversion H; subst. inversion Hall; subst. constructor; [|eapply IH; eauto].
    assumption.
Qed.

Lemma withSizeEstimates_plannedFor (fs : Filesystem) (steps steps' : list Step) err :
  withSizeEstimates fs steps = Returns (steps', err) ->
  Forall (freshStep fs) steps ->
  Forall (plannedFor fs) steps'
  /\ ((forall req, snd (SendDry (fs_sender fs) req) <> None) ->
      Forall (fun s => expectedSize s = 0) steps').
Proof.
  intros H Hfresh.
  assert (Hplanned : Forall (plannedFor fs) steps).
  { eapply List.Forall_impl; [|exact Hfresh].
    intros s Hs. exact (proj1 (freshStep_plannedFor fs s Hs)). }
  assert (Hzero : Forall (fun s => expectedSize s = 0) steps).
  { eapply List.Forall_impl; [|exact Hfresh].
    intros s Hs. exact (proj2 (freshStep_plannedFor fs s Hs)). }
  unfold withSizeEstimates in H. destruct steps as [|s steps].
  { inversion H. split; auto. }
  unfold updateSizeEstimates in H.
  match type of H with context [SendDry _ ?req] =>
    destruct (SendDry (fs_sender fs) req) as [[resp|] [e|]] eqn:Hdry end;
    try discriminate; try (inversion H; subst; split; auto; fail).
  destruct (setExpectedSizes (s :: steps) (SendDryRes_Items resp)) as [steps1|] eqn:Hset;
    [|discriminate].
  inversion H; subst. split.
  - eapply setExpectedSizes_plannedFor; eauto.
  - intros Hfail. exfalso.
    match type of Hdry with SendDry _ ?req = _ => apply (Hfail req) end.
    now rewrite Hdry.
Qed.

(** The steps of a plan are those of one of the two branches, with the size
    estimates. *)
Lemma doPlanning_branches IncrementalPath Sort Parse fs oneStep steps err :
  doPlanning IncrementalPath Sort Parse fs oneStep = Returns (steps, err) ->
  steps = []
  \/ exists steps0,
       withSizeEstimates fs steps0 = Returns (steps, err)
       /\ Forall (freshStep fs) steps0.
Proof.
  unfold doPlanning. intros H.
  repeat (break_match_in H; try discriminate; try (inversion H; auto; fail)).
  all: right;
    match goal with
    | Hm : match ?o with Some _ => Returns _ | None => _ end = Returns (?l, None) |- _ =>
        exists l; split; [exact H|];
        destruct o;
        [ apply Returns_inj in Hm; eapply resumeSteps_fresh; exact Hm
        | eapply pathPlan_fresh; exact Hm ]
    end.
Qed.

(** ** The plan along an incremental path *)

Lemma last_any_default {A : Type} (l : list A) (d d' : A) :
  l <> [] -> List.last l d = List.last l d'.
Proof.
  induction l as [|x [|y l] IH]; intros Hne; [congruence | reflexivity |].
  change (List.last (y :: l) d = List.last (y :: l) d'). apply IH. discriminate.
Qed.

Lemma chained_cons f t tok f2 t2 tok2 ts :
  chained ((f, t, tok) :: (f2, t2, tok2) :: ts) <-> t = f2 /\ chained ((f2, t2, tok2) :: ts).
Proof. reflexivity. Qed.

Lemma chained_pairTargets f e tok (l : list (option VersionPtr)) :
  chained ((f, e, tok) :: pairTargets (e :: l)).
Proof.
  revert f e tok. induction l as [|e2 l IH]; intros f e tok; [exact I|].
  change (pairTargets (e :: e2 :: l)) with ((e, e2, "") :: pairTargets (e2 :: l)).
  apply chained_cons. split; [reflexivity | apply IH].
Qed.

Lemma pathSteps_false_targets (fs : Filesystem) lst (path : list (option VersionPtr)) :
  map stepTarget (pathSteps fs false lst path) = pairTargets path.
Proof.
  induction path as [|e1 [|e2 rest] IH]; try reflexivity.
  rewrite pathSteps_cons.
  assert (Hc : match e1 with Some f => false && isSnapshot f | None => false end = false)
    by (destruct e1; reflexivity).
  rewrite Hc. cbn [map]. rewrite IH. reflexivity.
Qed.

Lemma pathSteps_chain (fs : Filesystem) (oneStep : bool) (rest : list (option VersionPtr)) :
  forall e1 e2,
    exists s steps,
      pathSteps fs oneStep (List.last (e2 :: rest) None) (e1 :: e2 :: rest) = s :: steps
      /\ from s = e1
      /\ to (List.last (s :: steps) s) = List.last (e2 :: rest) None
      /\ chained (map stepTarget (s :: steps))
      /\ Forall (fun s => resumeToken s = "") (s :: steps)
      /\ (length (s :: steps) <= S (length rest))%nat.
Proof.
  induction rest as [|e3 rest IH]; intros e1 e2; rewrite pathSteps_cons.
  - destruct (match e1 with Some f => oneStep && isSnapshot f | None => false end);
      eexists _, []; (split; [reflexivity|]);
      (split; [reflexivity|]); (split; [reflexivity|]); (split; [exact I|]);
      (split; [repeat constructor | simpl; lia]).
  - destruct (match e1 with Some f => oneStep && isSnapshot f | None => false end).
    + eexists _, []. split; [reflexivity|].
      split; [reflexivity|]. split; [reflexivity|]. split; [exact I|].
      split; [repeat constructor | simpl; lia].
    + destruct (IH e2 e3) as (s2 & steps2 & Heq & Hfrom & Hlast & Hchain & Htok & Hlen).
      change (List.last (e2 :: e3 :: rest) None) with (List.last (e3 :: rest) None).
      rewrite Heq. eexists _, (s2 :: steps2). split; [reflexivity|].
      split; [reflexivity|]. split; [|split; [|split]].
      * change (List.last (newStep fs e1 e2 "" :: s2 :: steps2) (newStep fs e1 e2 ""))
          with (List.last (s2 :: steps2) (newStep fs e1 e2 "")).
        rewrite (last_any_default _ _ s2) by discriminate. exact Hlast.
      * cbn [map]. unfold stepTarget at 1 2. apply chained_cons.
        split; [cbn [newStep to]; congruence | exact Hchain].
      * constructor; [reflexivity | exact Htok].
      * simpl in *. lia.
Qed.

(** X5.  With or without the one-step policy, the steps made from a path of
    two or more entries form one chain from the first entry of the path to
    its last: the first step starts at the first entry, each step starts
    where the one before it ended, the last step ends at the last entry, none
    carries a resume token, and there are at most as many steps as the path
    has entries after the first; without the one-step policy the steps are
    exactly the pairs of neighbours of the path. *)
Theorem stepsOfPath_is_chain
    (fs : Filesystem) (oneStep : bool) (e1 e2 : option VersionPtr)
    (rest : list (option VersionPtr)) :
  let path := e1 :: e2 :: rest in
  (exists s steps,
      stepsOfPath fs oneStep path = Returns (s :: steps)
      /\ from s = e1
      /\ to (List.last (s :: steps) s) = List.last path None
      /\ chained (map stepTarget (s :: steps))
      /\ Forall (fun s => resumeToken s = "") (s :: steps)
      /\ (length (s :: steps) <= length path - 1)%nat)
  /\ exists steps,
       stepsOfPath fs false path = Returns steps
       /\ map stepTarget steps = pairTargets path.
Proof.
  cbv zeta. split.
  - destruct (pathSteps_chain fs oneStep rest e1 e2)
      as (s & steps & Heq & Hfrom & Hlast & Hchain & Htok & Hlen).
    exists s, steps. cbn [stepsOfPath].
    change (List.last (e1 :: e2 :: rest) None) with (List.last (e2 :: rest) None).
    rewrite Heq. split; [reflexivity|]. split; [exact Hfrom|]. split; [exact Hlast|].
    split; [exact Hchain|]. split; [exact Htok|]. simpl in *. lia.
  - eexists. split; [reflexivity|]. apply pathSteps_false_targets.
Qed.

(** Without a token the plan is the one along the incremental path, with the
    size estimates. *)
Lemma doPlanning_without_token IncrementalPath Sort Parse fs rfsvs sfsvs oneStep :
  planningWithoutToken Parse fs rfsvs sfsvs ->
  doPlanning IncrementalPath Sort Parse fs oneStep
  = match pathPlan IncrementalPath fs oneStep rfsvs sfsvs with
    | Panics msg => Panics msg
    | Returns (_, Some e) => Returns ([], Some e)
    | Returns (steps, None) => withSizeEstimates fs steps
    end.
Proof.
  intros (Hsender & (sresp & rresp & Hlist & Hversions & Hrfsvs) & Hne & Htoken).
  unfold doPlanning. rewrite Hsender, Hlist, Hversions, Hrfsvs.
  destruct sfsvs as [|v sfsvs]; [congruence|]. cbn [length Nat.ltb Nat.leb].
  destruct (receiverFS fs) as [r|]; [|reflexivity].
  destruct (String.eqb_spec (pdu.ResumeToken r) "") as [Hempty|Hraw]; cbn [negb];
    [reflexivity|].
  destruct Htoken as [Hempty|Hparse]; [congruence|]. rewrite Hparse. reflexivity.
Qed.

(** X6.  When the planning takes the branch without resume token and the
    incremental path has two or more entries, then, the sender keeping to the
    protocol of the size estimate, the plan without the one-step policy has
    exactly one step for each pair of neighbours of the path, in order and
    without token; and the plan with the one-step policy, when the path
    starts at a snapshot, is the single step from that snapshot to the last
    entry of the path. *)
Theorem doPlanning_follows_incremental_path
    (IncrementalPath :
       list VersionPtr -> list VersionPtr -> list (option VersionPtr) * option error)
    (Sort : list VersionPtr -> list VersionPtr)
    (Parse : string -> option ResumeToken * option error)
    (fs : Filesystem) (rfsvs sfsvs : list VersionPtr)
    (e1 e2 : option VersionPtr) (rest : list (option VersionPtr)) :
  planningWithoutToken Parse fs rfsvs sfsvs ->
  IncrementalPath rfsvs sfsvs = (e1 :: e2 :: rest, None) ->
  SendDry_in_protocol (fs_sender fs) ->
  (exists steps,
      doPlanning IncrementalPath Sort Parse fs false = Returns (steps, None)
      /\ map stepTarget steps = pairTargets (e1 :: e2 :: rest))
  /\ (isSnapshotEntry e1 = true ->
      exists s,
        doPlanning IncrementalPath Sort Parse fs true = Returns ([s], None)
        /\ stepTarget s = (e1, List.last (e2 :: rest) None, "")).
Proof.
  intros Hplanning HIP Hproto. split.
  - rewrite (doPlanning_without_token _ _ _ _ _ _ false Hplanning).
    unfold pathPlan. rewrite HIP. cbn [stepsOfPath].
    destruct (withSizeEstimates_returns fs
                (pathSteps fs false (List.last (e1 :: e2 :: rest) None) (e1 :: e2 :: rest))
                Hproto) as (steps & -> & Htargets).
    exists steps. split; [reflexivity|].
    rewrite Htargets. apply pathSteps_false_targets.
  - intros Hsnap.
    rewrite (doPlanning_without_token _ _ _ _ _ _ true Hplanning).
    unfold pathPlan. rewrite HIP. cbn [stepsOfPath]. rewrite pathSteps_cons.
    destruct e1 as [base|]; [|discriminate]. cbn [isSnapshotEntry] in Hsnap.
    rewrite Hsnap. cbn [andb].
    destruct (withSizeEstimates_returns fs
                [newStep fs (Some base) (List.last (Some base :: e2 :: rest) None) ""] Hproto)
      as (steps & -> & Htargets).
    destruct steps as [|s [|s2 steps]]; try discriminate.
    exists s. split; [reflexivity|].
    exact (f_equal (hd (stepTarget s)) Htargets).
Qed.

Lemma doPlanning_follows_incremental_path_witness :
  exists steps,
    Examples.plan (Examples.fsOf InitialReplicationAutoResolutionAll
                     [Examples.a; Examples.b; Examples.c] [Examples.a]
                     (Some (Examples.receiverDescriptor ""))) false
    = Returns (steps, None)
    /\ map stepTarget steps
       = pairTargets [Some Examples.a; Some Examples.b; Some Examples.c].
Proof.
  refine (proj1 (doPlanning_follows_incremental_path
                   SpecModel.IncrementalPath
                   SpecModel.SortVersionListByCreateTXGThenBookmarkLTSnapshot
                   (SpecModel.ParseResumeToken Examples.issued)
                   (Examples.fsOf InitialReplicationAutoResolutionAll
                      [Examples.a; Examples.b; Examples.c] [Examples.a]
                      (Some (Examples.receiverDescriptor "")))
                   [Examples.a] [Examples.a; Examples.b; Examples.c]
                   (Some Examples.a) (Some Examples.b) [Some Examples.c] _ _
                   (senderOf_in_protocol _))).
  - repeat split; try discriminate.
    + eexists _, _. repeat split.
    + left. reflexivity.
  - vm_compute. reflexivity.
Defined.

(** ** The plan of the resume branch *)

Lemma incrementalSteps_targets (fs : Filesystem) (l : list VersionPtr) :
  map stepTarget (incrementalSteps fs l) = pairTargets (map Some l).
Proof.
  induction l as [|a [|b l] IH]; try reflexivity.
  change (incrementalSteps fs (a :: b :: l))
    with (newStep fs (Some a) (Some b) "" :: incrementalSteps fs (b :: l)).
  cbn [map]. rewrite IH. reflexivity.
Qed.

Lemma withSizeEstimates_targets (fs : Filesystem) (steps steps' : list Step) err :
  withSizeEstimates fs steps = Returns (steps', err) ->
  map stepTarget steps' = map stepTarget steps.
Proof.
  unfold withSizeEstimates. destruct steps as [|s steps]; [intros H; now inversion H|].
  destruct (updateSizeEstimates fs (s :: steps)) as [[steps1 e]|] eqn:Hupd; [|discriminate].
  intros H. inversion H; subst. eapply updateSizeEstimates_targets; eauto.
Qed.

(** The targets of the resume branch: the resume step, then the collapsed
    step or one step for each pair of neighbouring snapshots from the
    to-version on. *)
Lemma resumeSteps_targets Sort (fs : Filesystem) oneStep raw tok sfsvs steps :
  resumeSteps Sort fs oneStep raw tok sfsvs = (steps, None) ->
  exists fromVersion toVersion older newer,
    Sort sfsvs = older ++ toVersion :: newer
    /\ isSnapshot toVersion = true
    /\ Guid (deref toVersion) = ToGUID tok
    /\ let snaps := List.filter isSnapshot newer in
       map stepTarget steps
       = (fromVersion, Some toVersion, raw)
         :: (if oneStep && negb (Nat.eqb (length snaps) 0)
             then [(Some toVersion, Some (List.last snaps toVersion), "")]
             else pairTargets (map Some (toVersion :: snaps))).
Proof.
  intros Hres. unfold resumeSteps in Hres.
  destruct (findResumeVersions tok (Sort sfsvs) 0 None None 0) as [[fromV toV] idx] eqn:Hfind.
  destruct toV as [toV|]; [|discriminate].
  destruct (ptr_eqb fromV (Some toV)) eqn:Hdiff; [discriminate|].
  destruct (resumeSteps_accepted Sort fs oneStep raw tok sfsvs _ _ _ Hfind Hdiff)
    as (newer & Hrem & Hsnap & Hguid & _).
  destruct (findResumeVersions_to_inv _ _ _ _ _ _ _ Hfind)
    as (older & newer' & Hsplit & Hidx & _ & _).
  assert (Hnewer : List.filter isSnapshot newer' = List.filter isSnapshot newer).
  { rewrite Hsplit, Hidx in Hrem. cbn [Nat.add] in Hrem.
    rewrite skipn_app, skipn_all, Nat.sub_diag in Hrem. cbn [app skipn List.filter] in Hrem.
    rewrite Hsnap in Hrem. congruence. }
  exists fromV, toV, older, newer'. split; [exact Hsplit|]. split; [exact Hsnap|].
  split; [exact Hguid|]. cbv zeta. rewrite Hnewer. rewrite Hrem in Hres.
  destruct (List.filter isSnapshot newer) as [|x snaps].
  - change (Nat.ltb 1 (length [toV])) with false in Hres.
    rewrite andb_false_r in Hres. cbn [length Nat.eqb negb]. rewrite andb_false_r.
    apply (f_equal fst) in Hres. cbn [fst] in Hres. subst steps. reflexivity.
  - change (Nat.ltb 1 (length (toV :: x :: snaps))) with true in Hres.
    cbn [length Nat.eqb negb]. destruct oneStep; cbn [andb] in *.
    + rewrite (nth_error_last _ toV) in Hres by discriminate.
      apply (f_equal fst) in Hres. cbn [fst] in Hres. subst steps. reflexivity.
    + apply (f_equal fst) in Hres. cbn [fst] in Hres. subst steps.
      cbn [map]. rewrite incrementalSteps_targets. reflexivity.
Qed.

Lemma last_app_nonempty {A : Type} (l1 l2 : list A) (d : A) :
  l2 <> [] -> List.last (l1 ++ l2) d = List.last l2 d.
Proof.
  intros Hne. induction l1 as [|x l1 IH]; [reflexivity|].
  cbn [app]. destruct (l1 ++ l2) eqn:E.
  - apply app_eq_nil in E as [_ E]. congruence.
  - rewrite <- E in *. rewrite <- IH. rewrite E. reflexivity.
Qed.

Lemma last_In {A : Type} (l : list A) (d : A) : l <> [] -> In (List.last l d) l.
Proof.
  induction l as [|x [|y l] IH]; intros Hne; [congruence | left; reflexivity |].
  right. apply IH. discriminate.
Qed.

Lemma last_map_Some (l : list VersionPtr) (d : VersionPtr) :
  l <> [] -> List.last (map Some l) None = Some (List.last l d).
Proof.
  induction l as [|x [|y l] IH]; intros Hne; [congruence | reflexivity |].
  change (List.last (map Some (y :: l)) None = Some (List.last (y :: l) d)).
  apply IH. discriminate.
Qed.

Lemma last_pairTargets (l : list (option VersionPtr)) :
  forall f e tok d,
    snd (fst (List.last ((f, e, tok) :: pairTargets (e :: l)) d)) = List.last (e :: l) None.
Proof.
  induction l as [|e2 l IH]; intros f e tok d; [reflexivity|].
  change (pairTargets (e :: e2 :: l)) with ((e, e2, "") :: pairTargets (e2 :: l)).
  change (List.last ((f, e, tok) :: (e, e2, "") :: pairTargets (e2 :: l)) d)
    with (List.last ((e, e2, "") :: pairTargets (e2 :: l)) d).
  rewrite IH. reflexivity.
Qed.

Lemma pairTargets_to (l : list (option VersionPtr)) e :
  map (fun t => snd (fst t)) (pairTargets (e :: l)) = l.
Proof.
  revert e. induction l as [|e2 l IH]; intros e; [reflexivity|].
  change (pairTargets (e :: e2 :: l)) with ((e, e2, "") :: pairTargets (e2 :: l)).
  cbn [map fst snd]. now rewrite IH.
Qed.

Lemma pairTargets_no_token (l : list (option VersionPtr)) :
  Forall (fun t => snd t = "") (pairTargets l).
Proof.
  unfold pairTargets. apply List.Forall_forall. intros t Ht.
  apply in_map_iff in Ht as (p & <- & _). reflexivity.
Qed.

(** X7.  Once the resume token is decoded, every plan that doPlanning
    returns, with or without the one-step policy, reads as follows.  Its
    first step carries the raw token and ends at a snapshot with the token's
    to-guid; no later step carries a token; every later step ends at a
    snapshot; each step starts where the one before it ended; and the last
    step ends at the last snapshot of the sorted sender list. *)
Theorem doPlanning_resume_plan_is_chain
    (IncrementalPath :
       list VersionPtr -> list VersionPtr -> list (option VersionPtr) * option error)
    (Sort : list VersionPtr -> list VersionPtr)
    (Parse : string -> option ResumeToken * option error)
    (fs : Filesystem) (raw : string) (tok : ResumeToken) (sfsvs : list VersionPtr)
    (oneStep : bool) (steps : list Step) :
  planningWithToken Parse fs raw tok sfsvs ->
  doPlanning IncrementalPath Sort Parse fs oneStep = Returns (steps, None) ->
  exists fromVersion toVersion later,
    map stepTarget steps = (fromVersion, Some toVersion, raw) :: later
    /\ isSnapshot toVersion = true
    /\ Guid (deref toVersion) = ToGUID tok
    /\ Forall (fun t => snd t = "" /\ isSnapshotEntry (snd (fst t)) = true) later
    /\ chained (map stepTarget steps)
    /\ snd (fst (List.last (map stepTarget steps) (None, None, "")))
       = Some (List.last (List.filter isSnapshot (Sort sfsvs)) toVersion).
Proof.
  intros Hplanning Hplan.
  rewrite (doPlanning_with_token IncrementalPath Sort Parse fs raw tok sfsvs oneStep Hplanning)
    in Hplan.
  destruct (resumeSteps Sort fs oneStep raw tok sfsvs) as [steps0 [e|]] eqn:Hres;
    [discriminate|].
  apply withSizeEstimates_targets in Hplan. rewrite Hplan.
  destruct (resumeSteps_targets Sort fs oneStep raw tok sfsvs steps0 Hres)
    as (fromV & toV & older & newer & Hsplit & Hsnap & Hguid & Htargets).
  cbv zeta in Htargets. rewrite Htargets.
  assert (Hsnaps : forall x, In x (List.filter isSnapshot newer) -> isSnapshot x = true)
    by (intros x Hx; apply filter_In in Hx; apply Hx).
  assert (Hlast : List.last (List.filter isSnapshot (older ++ toV :: newer)) toV
                  = List.last (toV :: List.filter isSnapshot newer) toV).
  { rewrite List.filter_app. cbn [List.filter]. rewrite Hsnap.
    apply last_app_nonempty. discriminate. }
  eexists fromV, toV, _. split; [reflexivity|]. split; [exact Hsnap|]. split; [exact Hguid|].
  rewrite Hsplit, Hlast. clear Hlast.
  destruct (List.filter isSnapshot newer) as [|x snaps] eqn:Hf.
  - rewrite andb_false_r. cbn. repeat split. constructor.
  - cbn [length Nat.eqb negb]. destruct oneStep; cbn [andb].
    + split; [|split].
      * repeat constructor. cbn [fst snd isSnapshotEntry].
        apply Hsnaps, last_In. discriminate.
      * apply chained_cons. split; [reflexivity | exact I].
      * reflexivity.
    + split; [|split].
      * apply List.Forall_forall. intros t Ht. split.
        -- pose proof (pairTargets_no_token (map Some (toV :: x :: snaps))) as Hall.
           rewrite List.Forall_forall in Hall. apply Hall, Ht.
        -- pose proof (in_map (fun t => snd (fst t)) _ _ Ht) as Hin.
           change (map Some (toV :: x :: snaps))
             with (Some toV :: map Some (x :: snaps)) in Hin.
           rewrite pairTargets_to in Hin. cbn beta in Hin.
           apply in_map_iff in Hin as (y & Hy1 & Hy). rewrite <- Hy1. apply Hsnaps, Hy.
      * apply (chained_pairTargets fromV (Some toV) raw (map Some (x :: snaps))).
      * change (map Some (toV :: x :: snaps)) with (Some toV :: map Some (x :: snaps)).
        rewrite last_pairTargets.
        change (Some toV :: map Some (x :: snaps)) with (map Some (toV :: x :: snaps)).
        apply last_map_Some. discriminate.
Qed.

Lemma doPlanning_resume_plan_is_chain_witness :
  let fs := Examples.fsOf InitialReplicationAutoResolutionAll
              [Examples.a; Examples.bm; Examples.b; Examples.c] [Examples.a]
              (Some (Examples.receiverDescriptor "1-ab")) in
  let steps := [Examples.withExpectedSize 100
                  (newStep fs (Some Examples.a) (Some Examples.b) "1-ab");
                Examples.withExpectedSize 100
                  (newStep fs (Some Examples.b) (Some Examples.c) "")] in
  exists fromVersion toVersion later,
    map stepTarget steps = (fromVersion, Some toVersion, "1-ab") :: later
    /\ isSnapshot toVersion = true
    /\ Guid (deref toVersion) = 102
    /\ Forall (fun t => snd t = "" /\ isSnapshotEntry (snd (fst t)) = true) later
    /\ chained (map stepTarget steps)
    /\ snd (fst (List.last (map stepTarget steps) (None, None, "")))
       = Some (List.last
                 (List.filter isSnapshot
                    (SpecModel.SortVersionListByCreateTXGThenBookmarkLTSnapshot
                       [Examples.a; Examples.bm; Examples.b; Examples.c])) toVersion).
Proof.
  cbv zeta.
  refine (doPlanning_resume_plan_is_chain
            SpecModel.IncrementalPath
            SpecModel.SortVersionListByCreateTXGThenBookmarkLTSnapshot
            (SpecModel.ParseResumeToken Examples.issued)
            _ "1-ab" Examples.tokenAB [Examples.a; Examples.bm; Examples.b; Examples.c]
            true _
            (planningWithToken_example "1-ab" Examples.tokenAB
               [Examples.a; Examples.bm; Examples.b; Examples.c] [Examples.a] _ _ _) _);
    try reflexivity; try discriminate.
Defined.

(** X8.  Once the resume token is decoded, a plan returned without the
    one-step policy replicates every snapshot from the token's to-version on:
    the to-versions of its steps are, in order, the to-version found for the
    token followed by all snapshots after it in the sorted sender list, each
    exactly once; bookmarks after the to-version get no step. *)
Theorem doPlanning_resume_replicates_every_snapshot
    (IncrementalPath :
       list VersionPtr -> list VersionPtr -> list (option VersionPtr) * option error)
    (Sort : list VersionPtr -> list VersionPtr)
    (Parse : string -> option ResumeToken * option error)
    (fs : Filesystem) (raw : string) (tok : ResumeToken) (sfsvs : list VersionPtr)
    (steps : list Step) :
  planningWithToken Parse fs raw tok sfsvs ->
  doPlanning IncrementalPath Sort Parse fs false = Returns (steps, None) ->
  exists older toVersion newer,
    Sort sfsvs = older ++ toVersion :: newer
    /\ isSnapshot toVersion = true
    /\ Guid (deref toVersion) = ToGUID tok
    /\ map to steps = map Some (toVersion :: List.filter isSnapshot newer).
Proof.
  intros Hplanning Hplan.
  rewrite (doPlanning_with_token IncrementalPath Sort Parse fs raw tok sfsvs false Hplanning)
    in Hplan.
  destruct (resumeSteps Sort fs false raw tok sfsvs) as [steps0 [e|]] eqn:Hres;
    [discriminate|].
  apply withSizeEstimates_targets in Hplan.
  destruct (resumeSteps_targets Sort fs false raw tok sfsvs steps0 Hres)
    as (fromV & toV & older & newer & Hsplit & Hsnap & Hguid & Htargets).
  cbv zeta in Htargets. cbn [andb] in Htargets. rewrite <- Hplan in Htargets.
  exists older, toV, newer. split; [exact Hsplit|]. split; [exact Hsnap|].
  split; [exact Hguid|].
  apply (f_equal (map (fun t => snd (fst t)))) in Htargets.
  rewrite map_map in Htargets. cbn [map fst snd] in Htargets.
  change (map Some (toV :: List.filter isSnapshot newer))
    with (Some toV :: map Some (List.filter isSnapshot newer)) in Htargets.
  rewrite pairTargets_to in Htargets. exact Htargets.
Qed.

Lemma doPlanning_resume_replicates_every_snapshot_witness :
  let fs := Examples.fsOf InitialReplicationAutoResolutionAll
              [Examples.a; Examples.b; Examples.bm; Examples.c] [Examples.a]
              (Some (Examples.receiverDescriptor "1-ab")) in
  let steps := [Examples.withExpectedSize 100
                  (newStep fs (Some Examples.a) (Some Examples.b) "1-ab");
                Examples.withExpectedSize 100
                  (newStep fs (Some Examples.b) (Some Examples.c) "")] in
  exists older toVersion newer,
    SpecModel.SortVersionListByCreateTXGThenBookmarkLTSnapshot
      [Examples.a; Examples.b; Examples.bm; Examples.c] = older ++ toVersion :: newer
    /\ isSnapshot toVersion = true
    /\ Guid (deref toVersion) = 102
    /\ map to steps = map Some (toVersion :: List.filter isSnapshot newer).
Proof.
  cbv zeta.
  refine (doPlanning_resume_replicates_every_snapshot
            SpecModel.IncrementalPath
            SpecModel.SortVersionListByCreateTXGThenBookmarkLTSnapshot
            (SpecModel.ParseResumeToken Examples.issued)
            _ "1-ab" Examples.tokenAB [Examples.a; Examples.b; Examples.bm; Examples.c]
            _
            (planningWithToken_example "1-ab" Examples.tokenAB
               [Examples.a; Examples.b; Examples.bm; Examples.c] [Examples.a] _ _ _) _);
    try reflexivity; try discriminate.
Defined.

(** ** Size estimates *)

Lemma setExpectedSizes_by_position (steps : list Step) :
  forall items steps',
    setExpectedSizes steps items = Some steps' ->
    length steps' = length steps
    /\ forall i s s',
         nth_error steps i = Some s ->
         nth_error steps' i = Some s' ->
         expectedSize s' = match nth_error items i with
                           | Some item => SendRes_ExpectedSize item
                           | None => expectedSize s
                           end.
Proof.
  induction steps as [|s0 steps IH]; intros [|item items] steps' H; simpl in H.
  - inversion H. split; [reflexivity|]. intros [|i] s s'; discriminate.
  - discriminate.
  - inversion H; subst. split; [reflexivity|].
    intros i s s' Hs Hs'. assert (s' = s) by congruence. subst.
    now destruct i.
  - destruct (setExpectedSizes steps items) as [rest|] eqn:E; [|discriminate].
    inversion H; subst. destruct (IH _ _ E) as [Hlen Hpos]. split; [simpl; congruence|].
    intros [|i] s s' Hs Hs'; cbn [nth_error] in *.
    + inversion Hs'; subst. reflexivity.
    + eapply Hpos; eauto.
Qed.

Lemma setExpectedSizes_out_of_range (steps : list Step) :
  forall items,
    (length steps < length items)%nat -> setExpectedSizes steps items = None.
Proof.
  induction steps as [|s steps IH]; intros [|item items] Hlen; simpl in *; try lia; auto.
  rewrite IH by lia. reflexivity.
Qed.

(** X9.  The size estimate asks the sender once, for the send requests of
    all steps in order, and reads the answer by position.  An error leaves
    the steps as they are and is returned; a response with no more items than
    steps gives step i the expected size of item i and leaves the steps
    beyond the response as they are, no step changing what it replicates; a
    nil response without error and a response with more items than steps
    make the call panic. *)
Theorem updateSizeEstimates_by_position (fs : Filesystem) (steps : list Step) :
  match SendDry (fs_sender fs)
          {| SendDryReq_Items := map buildSendRequest steps;
             Concurrency := SizeEstimationConcurrency (policy fs) |} with
  | (_, Some e) => updateSizeEstimates fs steps = Returns (steps, Some e)
  | (None, None) => exists msg, updateSizeEstimates fs steps = Panics msg
  | (Some resp, None) =>
      let items := SendDryRes_Items resp in
      if Nat.leb (length items) (length steps) then
        exists steps',
          updateSizeEstimates fs steps = Returns (steps', None)
          /\ map stepTarget steps' = map stepTarget steps
          /\ forall i s s',
               nth_error steps i = Some s ->
               nth_error steps' i = Some s' ->
               expectedSize s' = match nth_error items i with
                                 | Some item => SendRes_ExpectedSize item
                                 | None => expectedSize s
                                 end
      else exists msg, updateSizeEstimates fs steps = Panics msg
  end.
Proof.
  unfold updateSizeEstimates.
  destruct (SendDry _ _) as [[resp|] [e|]]; try reflexivity; [|eauto].
  cbv zeta. destruct (Nat.leb_spec (length (SendDryRes_Items resp)) (length steps)) as [Hle|Hgt].
  - destruct (setExpectedSizes_in_range steps _ Hle) as [steps' Hset]. rewrite Hset.
    exists steps'. split; [reflexivity|]. split.
    + eapply setExpectedSizes_targets; eauto.
    + apply (setExpectedSizes_by_position _ _ _ Hset).
  - rewrite setExpectedSizes_out_of_range by exact Hgt. eauto.
Qed.

(** ** Running a step *)

(** X10.  When Send answers a result and a stream, doReplication makes, in
    this order, the calls Send, Receive, the close of the stream and, only if
    Receive succeeded, SendCompleted with the very send request; its error is
    the one of Receive, else the one of SendCompleted.  Whether Receive
    failed or not, the step's byte counter stands at the bytes Receive read
    and the filesystem's counter, if there is one, was asked exactly once
    more to add, namely that amount (converted to a float64 by the call);
    no other counter was touched. *)
Theorem doReplication_accounting (s : Step) (w : World) (sres : SendRes) (stream : ReadCloser) :
  Send (sender s) (buildSendRequest s) = (Some sres, Some stream, None) ->
  let sr := buildSendRequest s in
  let rr := {| ReceiveReq_Filesystem := fs_Path (parent s);
               ReceiveReq_To := to s;
               ClearResumeToken := negb (UsedResumeToken sres);
               ReceiveReq_ReplicationConfig := policy_ReplicationConfig (policy (parent s)) |} in
  let completed := {| OriginalReq := sr |} in
  let count := fst (Receive (receiver s) rr stream) in
  let rerr := snd (Receive (receiver s) rr stream) in
  let '(s', w', err) := doReplication s w in
  byteCounter s' = Some count
  /\ counters w' = match promBytesReplicated (parent s) with
                   | Some c => <[c := default [] (counters w !! c) ++ [count]]> (counters w)
                   | None => counters w
                   end
  /\ calls w' = calls w ++ [CallSend sr; CallReceive rr stream; CallBodyClose stream]
                        ++ match rerr with
                           | None => [CallSendCompleted completed]
                           | Some _ => []
                           end
  /\ err = match rerr with
           | Some e => Some e
           | None => SendCompleted (sender s) completed
           end.
Proof.
  intros HSend. cbv zeta. unfold doReplication, sendRecv. rewrite HSend.
  cbn [receiver parent WithByteCounter buildSendRequest SendReq_To].
  destruct (Receive (receiver s) _ stream) as [count [e|]]; cbn [fst snd].
  - split; [reflexivity|]. unfold addBytesReplicated.
    destruct (promBytesReplicated (parent s)); cbn [calls counters logCall];
      (split; [reflexivity|]); (split; [|reflexivity]);
      rewrite <- !app_assoc; reflexivity.
  - split; [reflexivity|]. unfold addBytesReplicated.
    destruct (promBytesReplicated (parent s)); cbn [calls counters logCall sender];
      (split; [reflexivity|]); (split; [|reflexivity]);
      rewrite <- !app_assoc; reflexivity.
Qed.

Lemma doReplication_accounting_witness :
  let fs := Examples.fsOf InitialReplicationAutoResolutionAll
              [Examples.a; Examples.b] [Examples.a] (Some (Examples.receiverDescriptor "")) in
  let s := newStep fs (Some Examples.a) (Some Examples.b) "" in
  let '(s', w', err) := doReplication s {| calls := []; counters := {[ 0%nat := [40] ]} |} in
  byteCounter s' = Some 2 /\ counters w' !! 0%nat = Some [40; 2] /\ err = None.
Proof.
  cbv zeta.
  pose proof (doReplication_accounting
                (newStep (Examples.fsOf InitialReplicationAutoResolutionAll
                            [Examples.a; Examples.b] [Examples.a]
                            (Some (Examples.receiverDescriptor "")))
                   (Some Examples.a) (Some Examples.b) "")
                {| calls := []; counters := {[ 0%nat := [40] ]} |}
                {| UsedResumeToken := false; SendRes_ExpectedSize := 100 |}
                [Byte.x00; Byte.x01] eq_refl) as H.
  cbv zeta in H.
  destruct (doReplication _ _) as [[s' w'] err].
  destruct H as (H1 & H2 & _ & H4).
  split; [exact H1|]. split; [rewrite H2; reflexivity | exact H4].
Defined.

Section ReportAfterReplication.

Variable RelName : option VersionPtr -> string.

(** X11.  Running a step changes nothing of its report but the replicated
    bytes: after doReplication, whatever Send and Receive answered,
    ReportInfo shows the same From, To, Resumed and BytesExpected as before;
    and once Send answered a result and a stream, BytesReplicated is the
    number of bytes Receive read. *)
Theorem ReportInfo_after_doReplication (s : Step) (w : World) :
  let '(s', _, _) := doReplication s w in
  From (ReportInfo RelName s') = From (ReportInfo RelName s)
  /\ To (ReportInfo RelName s') = To (ReportInfo RelName s)
  /\ Resumed (ReportInfo RelName s') = Resumed (ReportInfo RelName s)
  /\ BytesExpected (ReportInfo RelName s') = BytesExpected (ReportInfo RelName s)
  /\ match Send (sender s) (buildSendRequest s) with
     | (Some sres, Some stream, None) =>
         BytesReplicated (ReportInfo RelName s')
         = fst (Receive (receiver s)
                  {| ReceiveReq_Filesystem := fs_Path (parent s);
                     ReceiveReq_To := to s;
                     ClearResumeToken := negb (UsedResumeToken sres);
                     ReceiveReq_ReplicationConfig :=
                       policy_ReplicationConfig (policy (parent s)) |} stream)
     | _ => BytesReplicated (ReportInfo RelName s')
            = BytesReplicated (ReportInfo RelName s)
     end.
Proof.
  unfold doReplication, sendRecv.
  destruct (Send (sender s) (buildSendRequest s)) as [[[sres|] [stream|]] [e|]];
    try (repeat split; reflexivity).
  cbn [receiver parent WithByteCounter buildSendRequest SendReq_To].
  destruct (Receive (receiver s) _ stream) as [count [e|]]; repeat split; reflexivity.
Qed.

End ReportAfterReplication.

(** ** The planner across filesystems *)

Lemma findReceiverFS_spec (path : string) (rfss : list pdu.Filesystem) :
  forall acc,
    match findReceiverFS path rfss acc with
    | Some rfs =>
        (exists before after,
            rfss = before ++ rfs :: after
            /\ Path rfs = path
            /\ Forall (fun x => Path x <> path) after)
        \/ (acc = Some rfs /\ Forall (fun x => Path x <> path) rfss)
    | None => acc = None /\ Forall (fun x => Path x <> path) rfss
    end.
Proof.
  induction rfss as [|rfs rest IH]; intros acc; simpl.
  - destruct acc; [right|]; split; auto.
  - specialize (IH (if String.eqb (Path rfs) path then Some rfs else acc)).
    destruct (findReceiverFS path rest _) as [found|].
    + destruct IH as [(before & after & -> & Hp & Hafter)|[Hacc Hrest]].
      * left. exists (rfs :: before), after. auto.
      * destruct (String.eqb_spec (Path rfs) path) as [Heq|Hne].
        -- inversion Hacc; subst found. left. exists [], rest. auto.
        -- right. split; [exact Hacc|]. constructor; assumption.
    + destruct IH as [Hacc Hrest].
      destruct (String.eqb_spec (Path rfs) path) as [Heq|Hne]; [discriminate|].
      split; [exact Hacc|]. constructor; assumption.
Qed.

(** X12.  When both endpoints list their filesystems, the planner makes one
    filesystem for each filesystem of the sender, in the sender's order, under
    the sender's path and with the planner's endpoints and policy.  Its
    receiver side is the last filesystem of the receiver's listing that has
    the same path, and nil exactly when the receiver lists none with that
    path; what only the receiver lists is planned for nowhere.  When a
    listing fails there are no filesystems, and the error is the one of a
    failed listing. *)
Theorem Planner_doPlanning_pairs (p : Planner) :
  match sender_ListFilesystems p, receiver_ListFilesystems p with
  | (sres, None), (rres, None) =>
      exists q,
        Planner_doPlanning p = (q, None)
        /\ map senderFS q = GetFilesystems sres
        /\ Forall (fun f =>
                     fs_Path f = Path (senderFS f)
                     /\ fs_sender f = planner_sender p
                     /\ fs_receiver f = planner_receiver p
                     /\ policy f = planner_policy p
                     /\ match receiverFS f with
                        | Some rfs =>
                            exists before after,
                              GetFilesystems rres = before ++ rfs :: after
                              /\ Path rfs = fs_Path f
                              /\ Forall (fun x => Path x <> fs_Path f) after
                        | None =>
                            Forall (fun x => Path x <> fs_Path f) (GetFilesystems rres)
                        end) q
  | (_, Some e), (_, None) => Planner_doPlanning p = ([], Some e)
  | (_, None), (_, Some e) => Planner_doPlanning p = ([], Some e)
  | (_, Some e1), (_, Some e2) =>
      exists e, Planner_doPlanning p = ([], Some e) /\ (e = e1 \/ e = e2)
  end.
Proof.
  unfold Planner_doPlanning.
  destruct (sender_ListFilesystems p) as [sres [e1|]],
           (receiver_ListFilesystems p) as [rres [e2|]]; try reflexivity.
  - exists e1. auto.
  - eexists. split; [reflexivity|]. split.
    + rewrite map_map. cbn [senderFS]. apply map_id.
    + apply List.Forall_forall. intros f Hf. apply in_map_iff in Hf as (fs & <- & _).
      cbn [fs_Path senderFS fs_sender fs_receiver policy receiverFS].
      repeat (split; [reflexivity|]).
      pose proof (findReceiverFS_spec (Path fs) (GetFilesystems rres) None) as Hspec.
      destruct (findReceiverFS (Path fs) (GetFilesystems rres) None) as [rfs|].
      * destruct Hspec as [Hsplit|[Hacc _]]; [exact Hsplit | discriminate].
      * exact (proj2 Hspec).
Qed.

(** X13.  A filesystem is recognised among the filesystems of an attempt's
    plan exactly when the sender of that attempt listed a filesystem with its
    path: Plan hands out one driver filesystem for each filesystem of the
    sender, and EqualToPreviousAttempt holds for one of them if and only if
    the path is among the paths the sender listed. *)
Theorem Plan_recognises_listed_paths (p : Planner) (dfss : list driver_FS) (f : Filesystem) :
  Plan p = (dfss, None) ->
  length dfss = length (GetFilesystems (fst (sender_ListFilesystems p)))
  /\ (Exists (fun d => EqualToPreviousAttempt f d = true) dfss
      <-> In (fs_Path f) (map Path (GetFilesystems (fst (sender_ListFilesystems p))))).
Proof.
  unfold Plan, Planner_doPlanning.
  destruct (sender_ListFilesystems p) as [sres [e1|]],
           (receiver_ListFilesystems p) as [rres [e2|]]; try discriminate.
  intros H. inversion H; subst dfss; clear H. cbn [fst].
  split; [now rewrite !length_map|].
  rewrite List.Exists_exists. split.
  - intros (d & Hd & Heq).
    apply in_map_iff in Hd as (g & <- & Hg). apply in_map_iff in Hg as (fs & <- & Hfs).
    cbn in Heq. apply String.eqb_eq in Heq. rewrite Heq. now apply in_map.
  - intros Hin. apply in_map_iff in Hin as (fs & Hpath & Hfs).
    eexists. split.
    + apply in_map, in_map. exact Hfs.
    + cbn. rewrite Hpath. apply String.eqb_refl.
Qed.

Lemma Plan_recognises_listed_paths_witness :
  let p := PlannerExamples.plannerOf
             [PlannerExamples.fsDesc "zroot/a"; PlannerExamples.fsDesc "zroot/data"]
             [PlannerExamples.fsDesc "zroot/data"] in
  exists dfss f,
    Plan p = (dfss, None)
    /\ length dfss = 2%nat
    /\ Exists (fun d => EqualToPreviousAttempt f d = true) dfss.
Proof.
  cbv zeta.
  eexists. exists (Examples.fsOf InitialReplicationAutoResolutionAll [] [] None).
  split; [reflexivity|].
  destruct (Plan_recognises_listed_paths
              (PlannerExamples.plannerOf
                 [PlannerExamples.fsDesc "zroot/a"; PlannerExamples.fsDesc "zroot/data"]
                 [PlannerExamples.fsDesc "zroot/data"])
              _ (Examples.fsOf InitialReplicationAutoResolutionAll [] [] None) eq_refl)
    as [Hlen Hiff].
  split; [exact Hlen|]. apply Hiff. vm_compute. auto.
Defined.

Section ConnectivityProperties.

Variable Error : error -> string.

(** X14.  WaitForConnectivity returns nil exactly when both endpoints are
    reachable.  When one endpoint alone fails, the returned error wraps that
    endpoint's error, which Unwrap gives back; when both fail, the returned
    error wraps neither. *)
Theorem WaitForConnectivity_reports_unreachable (p : Planner) :
  (WaitForConnectivity Error p = None
   <-> sender_WaitForConnectivity p = None /\ receiver_WaitForConnectivity p = None)
  /\ match sender_WaitForConnectivity p, receiver_WaitForConnectivity p with
     | None, None => True
     | Some e, None | None, Some e =>
         exists r, WaitForConnectivity Error p = Some r /\ Unwrap r = Some e
     | Some _, Some _ =>
         exists r, WaitForConnectivity Error p = Some r /\ Unwrap r = None
     end.
Proof.
  unfold WaitForConnectivity.
  destruct (sender_WaitForConnectivity p) as [se|], (receiver_WaitForConnectivity p) as [re|].
  - destruct (String.eqb _ _);
      (split; [split; [|intros [H _]]; discriminate|]); eexists; split; reflexivity.
  - split; [split; [|intros [H _]]; discriminate|]. eexists; split; reflexivity.
  - split; [split; [|intros [_ H]]; discriminate|]. eexists; split; reflexivity.
  - split; [split; auto | exact I].
Qed.

End ConnectivityProperties.

Section PlanFSProperties.

Variable IncrementalPath :
  list VersionPtr -> list VersionPtr -> list (option VersionPtr) * option error.
Variable Sort : list VersionPtr -> list VersionPtr.
Variable Parse : string -> option ResumeToken * option error.

(** X15.  The steps of two plans can be compared exactly when the plans are
    for filesystems with the same path: for every step planned for f and
    every driver step PlanFS returned for g, TargetEquals returns, whether
    the guids of their from- and to-versions agree, if f and g have the same
    path, and panics if they have not. *)
Theorem PlanFS_steps_comparable (f g : Filesystem) (o1 o2 : bool)
    (steps : list Step) (err : option error) (dsteps : list driver_Step) (s : Step) (d : driver_Step) :
  doPlanning IncrementalPath Sort Parse f o1 = Returns (steps, err) ->
  PlanFS IncrementalPath Sort Parse g o2 = Returns (dsteps, None) ->
  In s steps -> In d dsteps ->
  exists t,
    d = driver_Step_Step t
    /\ if String.eqb (fs_Path f) (fs_Path g)
       then TargetEquals s d
            = Returns (Z.eqb (GetGuid (from s)) (GetGuid (from t))
                       && Z.eqb (GetGuid (to s)) (GetGuid (to t)))
       else exists msg, TargetEquals s d = Panics msg.
Proof.
  intros Hf Hg Hs Hd.
  unfold PlanFS in Hg.
  destruct (doPlanning IncrementalPath Sort Parse g o2) as [[gsteps [e|]]|msg] eqn:Eg;
    try discriminate.
  apply Returns_inj in Hg. inversion Hg; subst dsteps; clear Hg.
  apply in_map_iff in Hd as (t & <- & Ht). exists t. split; [reflexivity|].
  assert (Hps : parent s = f).
  { apply doPlanning_branches in Hf as [->|(steps0 & Hest & Hfresh)]; [contradiction|].
    destruct (withSizeEstimates_plannedFor _ _ _ _ Hest Hfresh) as [Hall _].
    rewrite List.Forall_forall in Hall. apply (Hall s Hs). }
  assert (Hpt : parent t = g).
  { apply doPlanning_branches in Eg as [->|(steps0 & Hest & Hfresh)]; [contradiction|].
    destruct (withSizeEstimates_plannedFor _ _ _ _ Hest Hfresh) as [Hall _].
    rewrite List.Forall_forall in Hall. apply (Hall t Ht). }
  unfold TargetEquals, EqualToPreviousAttempt. rewrite Hps, Hpt.
  destruct (String.eqb (fs_Path f) (fs_Path g)); simpl; eauto.
Qed.

End PlanFSProperties.

Lemma PlanFS_steps_comparable_witness :
  let fs := Examples.fsOf InitialReplicationAutoResolutionAll
              [Examples.a; Examples.b; Examples.c] [Examples.a]
              (Some (Examples.receiverDescriptor "")) in
  let s := Examples.withExpectedSize 100 (newStep fs (Some Examples.a) (Some Examples.b) "") in
  let u := Examples.withExpectedSize 100 (newStep fs (Some Examples.a) (Some Examples.c) "") in
  TargetEquals s (driver_Step_Step u) = Returns false.
Proof.
  cbv zeta.
  destruct (PlanFS_steps_comparable
              SpecModel.IncrementalPath
              SpecModel.SortVersionListByCreateTXGThenBookmarkLTSnapshot
              (SpecModel.ParseResumeToken Examples.issued)
              (Examples.fsOf InitialReplicationAutoResolutionAll
                 [Examples.a; Examples.b; Examples.c] [Examples.a]
                 (Some (Examples.receiverDescriptor "")))
              (Examples.fsOf InitialReplicationAutoResolutionAll
                 [Examples.a; Examples.b; Examples.c] [Examples.a]
                 (Some (Examples.receiverDescriptor "")))
              false true _ None _
              (Examples.withExpectedSize 100
                 (newStep (Examples.fsOf InitialReplicationAutoResolutionAll
                             [Examples.a; Examples.b; Examples.c] [Examples.a]
                             (Some (Examples.receiverDescriptor "")))
                    (Some Examples.a) (Some Examples.b) ""))
              (driver_Step_Step
                 (Examples.withExpectedSize 100
                    (newStep (Examples.fsOf InitialReplicationAutoResolutionAll
                                [Examples.a; Examples.b; Examples.c] [Examples.a]
                                (Some (Examples.receiverDescriptor "")))
                       (Some Examples.a) (Some Examples.c) "")))
              eq_refl eq_refl (or_introl eq_refl) (or_introl eq_refl))
    as (t & Ht & Hcmp).
  inversion Ht; subst t. exact Hcmp.
Defined.

(** ** The runs of the batched destroy *)

Section DestroyRunProperties.

Variable D : Type.
Variable Destroy : D -> list string -> D * option zfs.error.
Variable maxBatchSize : Z.

Lemma doDestroyBatchedRec_Run (fuel : nat) :
  forall (b : list zfs.DestroySnapOp) (st st' : zfs.State D),
    zfs.doDestroyBatchedRec D Destroy fuel b st = Some (Returns st') ->
    Run D Destroy b st st'.
Proof.
  induction fuel as [|fuel IH]; intros b st st' H; cbn [zfs.doDestroyBatchedRec] in H;
    (destruct (Nat.leb_spec (length b) 1) as [Hshort|Hlong];
     [inversion H; subst; now apply Run_seq|]);
    (destruct (zfs.tryBatch D Destroy b st) as [[[err|] st1]|msg] eqn:Htry;
     [|inversion H; subst; now apply Run_batch|discriminate]);
    change (match zfs.As_PathError err with
            | Some inner => zfs.Is_E2BIG inner
            | None => false
            end) with (isE2BIG err) in H;
    destruct (isE2BIG err) eqn:HE; try discriminate.
  2:{ destruct (zfs.doDestroyBatchedRec D Destroy fuel (firstn (length b / 2) b) st1)
        as [[st2|msg]|] eqn:H1; try discriminate.
      eapply Run_halve; eauto. }
  all: destruct (zfs.As_DestroySnapshotsError err) as [undestroyable|] eqn:HD;
    [|inversion H; subst; eapply Run_single; eauto].
  all: rewrite (surjective_pairing (zfs.stripUndestroyable undestroyable b)) in H;
    destruct (zfs.tryBatch D Destroy (fst (zfs.stripUndestroyable undestroyable b)) st1)
      as [[[err2|] st2]|msg] eqn:Htry2; try discriminate;
    inversion H; subst;
    [eapply Run_single; eauto; right; eauto | eapply Run_stripped; eauto].
Qed.

Lemma doDestroyBatches_Runs (perFS : list (list zfs.DestroySnapOp)) :
  forall st st' : zfs.State D,
    zfs.doDestroyBatches D Destroy perFS st = Some (Returns st') ->
    Runs D Destroy perFS st st'.
Proof.
  induction perFS as [|b rest IH]; intros st st' H; cbn [zfs.doDestroyBatches] in H.
  - inversion H; subst. constructor.
  - destruct (zfs.doDestroyBatchedRec D Destroy (length b) b st) as [[st1|msg]|] eqn:Hb;
      try discriminate.
    econstructor; [eapply doDestroyBatchedRec_Run; exact Hb | apply IH; exact H].
Qed.

(** *** What a run leaves in the log *)

Lemma tryBatch_inv (b : list zfs.DestroySnapOp) (st st1 : zfs.State D) err :
  zfs.tryBatch D Destroy b st = Returns (err, st1) ->
  zfs.errs D st1 = zfs.errs D st
  /\ zfs.destroyed D st1
     = zfs.destroyed D st ++ match b with [] => [] | _ :: _ => [(b, [batchArg b])] end
  /\ (b = [] -> err = None)
  /\ (b <> [] -> exists d args, err = snd (Destroy d args)).
Proof.
  unfold zfs.tryBatch. destruct b as [|first rest].
  - intros H. inversion H; subst. rewrite app_nil_r. repeat split; auto. congruence.
  - destruct (forallb _ _); [|discriminate]. unfold zfs.callDestroy.
    destruct (Destroy (zfs.destroyer D st) _) as [d' e] eqn:HD. intros H.
    inversion H; subst. cbn [zfs.errs zfs.destroyed]. repeat split; [discriminate|].
    intros _. eexists _, _. rewrite HD. reflexivity.
Qed.

Lemma setDestroySnapOpErr_log (b : list zfs.DestroySnapOp) err :
  forall st : zfs.State D,
    zfs.destroyed D (zfs.setDestroySnapOpErr D b err st) = zfs.destroyed D st.
Proof.
  induction b as [|r b IH]; intros st; cbn [zfs.setDestroySnapOpErr]; [reflexivity|].
  rewrite IH. reflexivity.
Qed.

Lemma doDestroySeq_log (l : list zfs.DestroySnapOp) :
  forall st : zfs.State D,
    zfs.destroyed D (zfs.doDestroySeq D Destroy l st)
    = zfs.destroyed D st ++ map (fun r => ([r], [batchArg [r]])) l.
Proof.
  induction l as [|r l IH]; intros st; cbn [zfs.doDestroySeq map].
  - now rewrite app_nil_r.
  - unfold zfs.callDestroy. destruct (Destroy (zfs.destroyer D st) _) as [d' e].
    rewrite IH. cbn [zfs.assignErrOut zfs.destroyed]. rewrite <- app_assoc. reflexivity.
Qed.

Lemma singles_wellFormed (n : nat) (l : list zfs.DestroySnapOp) :
  (l <> [] -> 1 <= n)%nat ->
  Forall (wellFormedCall n) (map (fun r => ([r], [batchArg [r]])) l).
Proof.
  intros Hn. apply List.Forall_forall. intros call Hcall.
  apply in_map_iff in Hcall as (r & <- & Hr).
  split; [discriminate|]. split; [|reflexivity].
  cbn [fst length]. apply Hn. intros ->. contradiction.
Qed.

Lemma singles_cover (l : list zfs.DestroySnapOp) r :
  In r l -> Exists (fun call => In r (fst call)) (map (fun r => ([r], [batchArg [r]])) l).
Proof.
  intros Hr. apply List.Exists_exists. exists ([r], [batchArg [r]]). split.
  - apply in_map_iff. eauto.
  - left. reflexivity.
Qed.

Lemma wellFormedCall_mono (n m : nat) call :
  (n <= m)%nat -> wellFormedCall n call -> wellFormedCall m call.
Proof. intros Hnm (H1 & H2 & H3). repeat split; auto. lia. Qed.

Lemma stripUndestroyable_length undestroyable (b : list zfs.DestroySnapOp) :
  (length (fst (zfs.stripUndestroyable undestroyable b)) <= length b)%nat
  /\ (length (snd (zfs.stripUndestroyable undestroyable b)) <= length b)%nat.
Proof.
  unfold zfs.stripUndestroyable. cbn [fst snd]. split; apply List.filter_length_le.
Qed.

Lemma stripUndestroyable_cases undestroyable (b : list zfs.DestroySnapOp) r :
  In r b ->
  In r (fst (zfs.stripUndestroyable undestroyable b))
  \/ In r (snd (zfs.stripUndestroyable undestroyable b)).
Proof.
  intros Hr. unfold zfs.stripUndestroyable. cbn [fst snd].
  destruct (existsb (fun u => String.eqb u (zfs.Name r)) undestroyable) eqn:Hu.
  - right. apply filter_In. auto.
  - left. apply filter_In. rewrite Hu. auto.
Qed.

(** Every call of a run is made for a part of the batch, with the one
    argument composed for that part, and every request of the batch is part
    of some call. *)
Lemma Run_log (b : list zfs.DestroySnapOp) (st st' : zfs.State D) :
  Run D Destroy b st st' ->
  exists calls_,
    zfs.destroyed D st' = zfs.destroyed D st ++ calls_
    /\ Forall (wellFormedCall (length b)) calls_
    /\ forall r, In r b -> Exists (fun call => In r (fst call)) calls_.
Proof.
  induction 1 as [b st Hshort
                 |b st st1 Hlong Htry
                 |b st st1 st2 st3 err Hlong Htry HE _ IH1 _ IH2
                 |b st st1 st2 err undestroyable Hlong Htry HE HD Htry2
                 |b st st1 st2 err Hlong Htry HE Hcase].
  - eexists. split; [apply doDestroySeq_log|]. split.
    + apply singles_wellFormed. destruct b; [congruence | simpl; lia].
    + apply singles_cover.
  - apply tryBatch_inv in Htry as (_ & Hlog & _).
    destruct b as [|first rest]; [simpl in Hlong; lia|].
    eexists. split; [rewrite setDestroySnapOpErr_log; exact Hlog|]. split.
    + constructor; [|constructor]. repeat split; [discriminate | cbn [fst]; lia].
    + intros r Hr. now constructor.
  - apply tryBatch_inv in Htry as (_ & Hlog & _).
    destruct IH1 as (c1 & Hc1 & Hw1 & Hcov1), IH2 as (c2 & Hc2 & Hw2 & Hcov2).
    set (half := (length b / 2)%nat) in *.
    assert (Hb : b <> []) by (destruct b; [simpl in Hlong; lia | discriminate]).
    exists ((b, [batchArg b]) :: c1 ++ c2). split.
    { rewrite Hc2, Hc1, Hlog. destruct b; [congruence|].
      rewrite <- !app_assoc. reflexivity. }
    split.
    + constructor; [repeat split; auto|]. apply Forall_app. split.
      * eapply List.Forall_impl; [|exact Hw1]. intros call.
        apply wellFormedCall_mono. rewrite length_firstn. lia.
      * eapply List.Forall_impl; [|exact Hw2]. intros call.
        apply wellFormedCall_mono. rewrite length_skipn. lia.
    + intros r Hr. now constructor.
  - apply tryBatch_inv in Htry as (_ & Hlog & _).
    apply tryBatch_inv in Htry2 as (_ & Hlog2 & _).
    destruct (stripUndestroyable_length undestroyable b) as [Hl1 Hl2].
    assert (Hb : b <> []) by (destruct b; [simpl in Hlong; lia | discriminate]).
    exists ((b, [batchArg b])
            :: match fst (zfs.stripUndestroyable undestroyable b) with
               | [] => []
               | _ :: _ => [(fst (zfs.stripUndestroyable undestroyable b),
                             [batchArg (fst (zfs.stripUndestroyable undestroyable b))])]
               end
            ++ map (fun r => ([r], [batchArg [r]]))
                 (snd (zfs.stripUndestroyable undestroyable b))).
    split.
    { rewrite doDestroySeq_log, setDestroySnapOpErr_log, Hlog2, Hlog.
      destruct b; [congruence|]. rewrite <- !app_assoc. reflexivity. }
    split.
    + constructor; [repeat split; auto|]. apply Forall_app. split.
      * destruct (fst (zfs.stripUndestroyable undestroyable b)) as [|s0 srest] eqn:Hs;
          constructor; [|constructor]. repeat split; [discriminate | exact Hl1].
      * apply singles_wellFormed. lia.
    + intros r Hr. now constructor.
  - apply tryBatch_inv in Htry as (_ & Hlog & _).
    assert (Hb : b <> []) by (destruct b; [simpl in Hlong; lia | discriminate]).
    destruct Hcase as [[_ ->]|(undestroyable & err2 & _ & Htry2)].
    + exists ((b, [batchArg b]) :: map (fun r => ([r], [batchArg [r]])) b). split.
      { rewrite doDestroySeq_log, Hlog. destruct b; [congruence|].
        rewrite <- !app_assoc. reflexivity. }
      split; [|intros r Hr; now constructor].
      constructor; [repeat split; auto|]. apply singles_wellFormed. lia.
    + apply tryBatch_inv in Htry2 as (_ & Hlog2 & _).
      destruct (stripUndestroyable_length undestroyable b) as [Hl1 _].
      exists ((b, [batchArg b])
              :: match fst (zfs.stripUndestroyable undestroyable b) with
                 | [] => []
                 | _ :: _ => [(fst (zfs.stripUndestroyable undestroyable b),
                               [batchArg (fst (zfs.stripUndestroyable undestroyable b))])]
                 end
              ++ map (fun r => ([r], [batchArg [r]])) b).
      split.
      { rewrite doDestroySeq_log, Hlog2, Hlog. destruct b; [congruence|].
        rewrite <- !app_assoc. reflexivity. }
      split; [|intros r Hr; now constructor].
      constructor; [repeat split; auto|]. apply Forall_app. split.
      * destruct (fst (zfs.stripUndestroyable undestroyable b)) as [|s0 srest] eqn:Hs;
          constructor; [|constructor]. repeat split; [discriminate | exact Hl1].
      * apply singles_wellFormed. lia.
Qed.

Lemma Runs_log (perFS : list (list zfs.DestroySnapOp)) (st st' : zfs.State D) :
  Runs D Destroy perFS st st' ->
  exists calls_,
    zfs.destroyed D st' = zfs.destroyed D st ++ calls_
    /\ Forall (fun call => exists b, In b perFS /\ wellFormedCall (length b) call) calls_
    /\ forall r, In r (concat perFS) -> Exists (fun call => In r (fst call)) calls_.
Proof.
  induction 1 as [st|b rest st st1 st2 Hrun _ (c2 & Hc2 & Hw2 & Hcov2)].
  - exists []. split; [now rewrite app_nil_r|]. split; [constructor|]. intros r [].
  - apply Run_log in Hrun as (c1 & Hc1 & Hw1 & Hcov1).
    exists (c1 ++ c2). split; [now rewrite Hc2, Hc1, app_assoc|]. split.
    + apply Forall_app. split.
      * eapply List.Forall_impl; [|exact Hw1]. intros call Hcall.
        exists b. split; [left; reflexivity | exact Hcall].
      * eapply List.Forall_impl; [|exact Hw2]. intros call (b' & Hb' & Hcall).
        exists b'. split; [right; exact Hb' | exact Hcall].
    + intros r Hr. cbn [concat] in Hr. apply List.Exists_app.
      apply in_app_or in Hr as [Hr|Hr]; auto.
Qed.

(** *** What a run leaves in the error variables *)

Section Settled.

Variable Q : option zfs.error -> Prop.
Hypothesis Q_Destroy : forall d args, Q (snd (Destroy d args)).
Hypothesis Q_nil : Q None.

Lemma assignErrOut_settled r v (st : zfs.State D) p :
  Q v ->
  settled Q st p \/ zfs.ErrOut r = p ->
  settled Q (zfs.assignErrOut D r v st) p.
Proof.
  intros Hv H. unfold settled. cbn [zfs.assignErrOut zfs.errs].
  destruct (decide (zfs.ErrOut r = p)) as [->|Hne].
  - exists v. split; [apply lookup_insert_eq | exact Hv].
  - destruct H as [(v0 & H0 & HQ)|H]; [|contradiction].
    exists v0. split; [rewrite lookup_insert_ne; auto | exact HQ].
Qed.

Lemma setDestroySnapOpErr_settled (b : list zfs.DestroySnapOp) :
  forall st : zfs.State D,
    (forall r, In r b -> settled Q (zfs.setDestroySnapOpErr D b None st) (zfs.ErrOut r))
    /\ (forall p, settled Q st p -> settled Q (zfs.setDestroySnapOpErr D b None st) p).
Proof.
  induction b as [|r0 b IH]; intros st; cbn [zfs.setDestroySnapOpErr].
  - split; [intros r [] | auto].
  - destruct (IH (zfs.assignErrOut D r0 None st)) as [Hin Hkeep]. split.
    + intros r [<-|Hr]; [|auto]. apply Hkeep, assignErrOut_settled; auto.
    + intros p Hp. apply Hkeep, assignErrOut_settled; auto.
Qed.

Lemma doDestroySeq_settled (l : list zfs.DestroySnapOp) :
  forall st : zfs.State D,
    (forall r, In r l -> settled Q (zfs.doDestroySeq D Destroy l st) (zfs.ErrOut r))
    /\ (forall p, settled Q st p -> settled Q (zfs.doDestroySeq D Destroy l st) p).
Proof.
  induction l as [|r0 l IH]; intros st; cbn [zfs.doDestroySeq].
  - split; [intros r [] | auto].
  - unfold zfs.callDestroy.
    pose proof (Q_Destroy (zfs.destroyer D st)
                  [zfs.Filesystem r0 +:+ "@" +:+ zfs.Name r0]) as HQ.
    destruct (Destroy (zfs.destroyer D st) _) as [d' e]. cbn [snd] in HQ.
    match goal with
    | |- context [zfs.doDestroySeq D Destroy l ?s] => destruct (IH s) as [Hin Hkeep]
    end.
    split.
    + intros r [<-|Hr]; [|auto]. apply Hkeep, assignErrOut_settled; auto.
    + intros p Hp. apply Hkeep, assignErrOut_settled; auto.
Qed.

Lemma settled_same_errs (st st1 : zfs.State D) p :
  zfs.errs D st1 = zfs.errs D st -> settled Q st p -> settled Q st1 p.
Proof. unfold settled. intros ->. auto. Qed.

(** A run writes the variable of every request of the batch, and a variable
    written before stays written. *)
Lemma Run_settled (b : list zfs.DestroySnapOp) (st st' : zfs.State D) :
  Run D Destroy b st st' ->
  (forall r, In r b -> settled Q st' (zfs.ErrOut r))
  /\ (forall p, settled Q st p -> settled Q st' p).
Proof.
  induction 1 as [b st Hshort
                 |b st st1 Hlong Htry
                 |b st st1 st2 st3 err Hlong Htry HE _ [IH1 K1] _ [IH2 K2]
                 |b st st1 st2 err undestroyable Hlong Htry HE HD Htry2
                 |b st st1 st2 err Hlong Htry HE Hcase].
  - apply doDestroySeq_settled.
  - apply tryBatch_inv in Htry as (Herrs & _).
    destruct (setDestroySnapOpErr_settled b st1) as [Hin Hkeep].
    split; [exact Hin|]. intros p Hp. eapply Hkeep, settled_same_errs; eauto.
  - apply tryBatch_inv in Htry as (Herrs & _). split.
    + intros r Hr. rewrite <- (firstn_skipn (length b / 2) b) in Hr.
      apply in_app_or in Hr as [Hr|Hr]; auto.
    + intros p Hp. eapply K2, K1, settled_same_errs; eauto.
  - apply tryBatch_inv in Htry as (Herrs & _).
    apply tryBatch_inv in Htry2 as (Herrs2 & _).
    destruct (setDestroySnapOpErr_settled
                (fst (zfs.stripUndestroyable undestroyable b)) st2) as [Hin Hkeep].
    match goal with
    | |- context [zfs.doDestroySeq D Destroy ?l ?s] =>
        destruct (doDestroySeq_settled l s) as [Hin2 Hkeep2]
    end.
    split.
    + intros r Hr.
      destruct (stripUndestroyable_cases undestroyable b r Hr) as [Hs|Hs]; auto.
    + intros p Hp. eapply Hkeep2, Hkeep, settled_same_errs; [exact Herrs2|].
      eapply settled_same_errs; eauto.
  - apply tryBatch_inv in Htry as (Herrs & _).
    destruct (doDestroySeq_settled b st2) as [Hin Hkeep].
    split; [exact Hin|]. intros p Hp. apply Hkeep.
    destruct Hcase as [[_ ->]|(undestroyable & err2 & _ & Htry2)].
    + eapply settled_same_errs; eauto.
    + apply tryBatch_inv in Htry2 as (Herrs2 & _).
      eapply settled_same_errs; [exact Herrs2|]. eapply settled_same_errs; eauto.
Qed.

Lemma Runs_settled (perFS : list (list zfs.DestroySnapOp)) (st st' : zfs.State D) :
  Runs D Destroy perFS st st' ->
  (forall r, In r (concat perFS) -> settled Q st' (zfs.ErrOut r))
  /\ (forall p, settled Q st p -> settled Q st' p).
Proof.
  induction 1 as [st|b rest st st1 st2 Hrun _ [IH K]].
  - split; [intros r [] | auto].
  - apply Run_settled in Hrun as [H1 K1]. split.
    + intros r Hr. cbn [concat] in Hr. apply in_app_or in Hr as [Hr|Hr]; auto.
    + auto.
Qed.

End Settled.

(** *** A destroyer that never fails *)

Lemma Run_obliging (b : list zfs.DestroySnapOp) (st st' : zfs.State D) :
  (forall d args, snd (Destroy d args) = None) ->
  b <> [] ->
  Run D Destroy b st st' ->
  zfs.destroyed D st' = zfs.destroyed D st ++ [(b, [batchArg b])].
Proof.
  intros Hok Hb Hrun.
  assert (Hnever : forall st0 st1 err,
             zfs.tryBatch D Destroy b st0 = Returns (Some err, st1) -> False).
  { intros st0 st1 err Htry. apply tryBatch_inv in Htry as (_ & _ & _ & Hcall).
    destruct (Hcall Hb) as (d & args & Herr). rewrite Hok in Herr. discriminate. }
  inversion Hrun; subst; try (exfalso; eapply Hnever; eassumption).
  - destruct b as [|r [|r' b]]; [congruence| |simpl in *; lia].
    apply doDestroySeq_log.
  - match goal with
    | Htry : zfs.tryBatch D Destroy b st = Returns (None, _) |- _ =>
        apply tryBatch_inv in Htry as (_ & Hlog & _)
    end.
    rewrite setDestroySnapOpErr_log, Hlog. destruct b; [congruence | reflexivity].
Qed.

Lemma Runs_obliging (perFS : list (list zfs.DestroySnapOp)) (st st' : zfs.State D) :
  (forall d args, snd (Destroy d args) = None) ->
  Forall (fun b => b <> []) perFS ->
  Runs D Destroy perFS st st' ->
  zfs.destroyed D st' = zfs.destroyed D st ++ map (fun b => (b, [batchArg b])) perFS.
Proof.
  intros Hok Hne Hruns.
  induction Hruns as [st|b rest st st1 st2 Hrun _ IH].
  - now rewrite app_nil_r.
  - apply Forall_cons_iff in Hne as [Hb Hrest]. rewrite (IH Hrest).
    rewrite (Run_obliging _ _ _ Hok Hb Hrun).
    cbn [map]. rewrite <- app_assoc. reflexivity.
Qed.

(** *** The entry point *)

(** doDestroy returns, and what it leaves is the validation followed by the
    runs over the batches of the validated requests. *)
Lemma doDestroy_Runs (reqs : list zfs.DestroySnapOp) (st : zfs.State D) :
  exists st1 st',
    zfs.validate D reqs st = (List.filter validOp reqs, st1)
    /\ zfs.destroyed D st1 = zfs.destroyed D st
    /\ (forall p, holdsError st p -> holdsError st1 p)
    /\ (forall r, In r reqs -> validOp r = false -> holdsError st1 (zfs.ErrOut r))
    /\ zfs.doDestroy D Destroy maxBatchSize reqs st = Some (Returns st')
    /\ Runs D Destroy (zfs.buildBatches maxBatchSize (List.filter validOp reqs)) st1 st'.
Proof.
  destruct (validate_spec D reqs st) as (st1 & Hval & _ & Hlog & Hkeep & Hbad).
  destruct (buildBatches_spec maxBatchSize (List.filter validOp reqs)) as [_ Hall].
  destruct (doDestroyBatches_returns D Destroy
              (zfs.buildBatches maxBatchSize (List.filter validOp reqs))
              ltac:(eapply List.Forall_impl; [|exact Hall]; intros b Hb; apply Hb) st1)
    as (st' & Hrun & _).
  exists st1, st'. unfold zfs.doDestroy, zfs.doDestroyBatched. rewrite Hval.
  repeat (split; [reflexivity || assumption|]). apply doDestroyBatches_Runs. exact Hrun.
Qed.

Lemma ContainsAny_at (fs rest : string) :
  strings_ContainsAny (fs +:+ "@" +:+ rest) "@" = true.
Proof.
  induction fs as [|c fs IH]; simpl in *; [reflexivity|].
  rewrite IH. apply orb_true_r.
Qed.

(** X16.  Whatever the requests and the destroyer, every call doDestroy
    makes to the destroyer is made for a batch that is not empty and passes
    exactly one argument, the filesystem of the batch, an at-sign and the
    names of the batch joined by commas: behind ZFSDestroyFilesystemVersions,
    destroyerImpl.Destroy never reaches one of its two panics and hands that
    argument to ZFSDestroy. *)
Theorem doDestroy_calls_pass_sanity_checks (reqs : list zfs.DestroySnapOp) (st : zfs.State D) :
  exists st' calls_,
    zfs.doDestroy D Destroy maxBatchSize reqs st = Some (Returns st')
    /\ zfs.destroyed D st' = zfs.destroyed D st ++ calls_
    /\ Forall (fun call =>
                 fst call <> []
                 /\ snd call = [batchFilesystem (fst call) +:+ "@"
                                +:+ String.concat "," (map zfs.Name (fst call))]
                 /\ forall (W : Type) (ZFSDestroy : W -> string -> W * option zfs.error)
                           (w : W),
                      destroyerImpl_Destroy W ZFSDestroy w (snd call)
                      = Returns (ZFSDestroy w (batchArg (fst call)))) calls_.
Proof.
  destruct (doDestroy_Runs reqs st) as (st1 & st' & _ & Hlog1 & _ & _ & Hret & Hruns).
  apply Runs_log in Hruns as (calls_ & Hlog & Hwf & _).
  exists st', calls_. split; [exact Hret|]. split; [now rewrite Hlog, Hlog1|].
  eapply List.Forall_impl; [|exact Hwf].
  intros [batch args] (b & _ & Hne & _ & Hargs). cbn [fst snd] in *.
  destruct batch as [|first rest]; [congruence|].
  split; [discriminate|]. split; [exact Hargs|].
  intros W ZFSDestroy w. rewrite Hargs. unfold destroyerImpl_Destroy, batchArg.
  rewrite ContainsAny_at. reflexivity.
Qed.

(** X17.  Whatever the requests and the destroyer, doDestroy answers every
    request: at the end the error variable of every request has been written,
    and every request that has a filesystem and a name was part of the batch
    of at least one call of the destroyer. *)
Theorem doDestroy_answers_every_request (reqs : list zfs.DestroySnapOp) (st : zfs.State D) :
  exists st' calls_,
    zfs.doDestroy D Destroy maxBatchSize reqs st = Some (Returns st')
    /\ zfs.destroyed D st' = zfs.destroyed D st ++ calls_
    /\ (forall r, In r reqs -> is_Some (zfs.errs D st' !! zfs.ErrOut r))
    /\ (forall r, In r reqs -> validOp r = true ->
                  Exists (fun call => In r (fst call)) calls_).
Proof.
  destruct (doDestroy_Runs reqs st) as (st1 & st' & _ & Hlog1 & _ & Hbad & Hret & Hruns).
  destruct (buildBatches_spec maxBatchSize (List.filter validOp reqs)) as [Hperm _].
  destruct (Runs_settled (fun _ => True) (fun _ _ => I) I _ _ _ Hruns) as [Hin Hkeep].
  apply Runs_log in Hruns as (calls_ & Hlog & _ & Hcov).
  assert (Hbatched : forall r, In r reqs -> validOp r = true ->
                               In r (concat (zfs.buildBatches maxBatchSize
                                               (List.filter validOp reqs)))).
  { intros r Hr Hv. eapply Permutation_in; [symmetry; exact Hperm|].
    apply filter_In. auto. }
  exists st', calls_. split; [exact Hret|]. split; [now rewrite Hlog, Hlog1|]. split.
  - intros r Hr.
    assert (Hs : settled (fun _ => True) st' (zfs.ErrOut r)).
    { destruct (validOp r) eqn:Hv; [apply Hin, Hbatched; auto|].
      apply Hkeep. destruct (Hbad r Hr Hv) as [e He]. exists (Some e). auto. }
    destruct Hs as (v & Hv & _). rewrite Hv. eauto.
  - intros r Hr Hv. apply Hcov, Hbatched; auto.
Qed.

(** X18.  With a destroyer that never fails, doDestroy calls it exactly
    once for each batch buildBatches makes of the requests that have a
    filesystem and a name, in the order of the batches, and at the end the
    error variable of every such request holds nil. *)
Theorem doDestroy_with_destroyer_that_never_fails
    (reqs : list zfs.DestroySnapOp) (st : zfs.State D) :
  (forall d args, snd (Destroy d args) = None) ->
  exists st',
    zfs.doDestroy D Destroy maxBatchSize reqs st = Some (Returns st')
    /\ zfs.destroyed D st'
       = zfs.destroyed D st
         ++ map (fun b => (b, [batchArg b]))
              (zfs.buildBatches maxBatchSize (List.filter validOp reqs))
    /\ forall r, In r reqs -> validOp r = true ->
                 zfs.errs D st' !! zfs.ErrOut r = Some None.
Proof.
  intros Hok.
  destruct (doDestroy_Runs reqs st) as (st1 & st' & _ & Hlog1 & _ & _ & Hret & Hruns).
  destruct (buildBatches_spec maxBatchSize (List.filter validOp reqs)) as [Hperm Hall].
  exists st'. split; [exact Hret|]. split.
  - rewrite <- Hlog1. apply Runs_obliging; [exact Hok| |exact Hruns].
    eapply List.Forall_impl; [|exact Hall]. intros b Hb. apply Hb.
  - intros r Hr Hv.
    destruct (Runs_settled (fun v => v = None) Hok eq_refl _ _ _ Hruns) as [Hin _].
    destruct (Hin r) as (v & Hlook & ->); [|exact Hlook].
    eapply Permutation_in; [symmetry; exact Hperm|]. apply filter_In. auto.
Qed.

End DestroyRunProperties.

Lemma doDestroy_with_destroyer_that_never_fails_witness :
  let op fs name p := {| zfs.Filesystem := fs; zfs.Name := name; zfs.ErrOut := p |} in
  let reqs := [op "tank/b" "s1" 0; op "" "s2" 1; op "tank/a" "s3" 2;
               op "tank/a" "s1" 3]%nat in
  exists st',
    zfs.doDestroy unit obligingDestroyer 0 reqs
      {| zfs.errs := ∅; zfs.destroyer := tt; zfs.destroyed := [] |} = Some (Returns st')
    /\ map snd (zfs.destroyed unit st') = [["tank/a@s1,s3"]; ["tank/b@s1"]]
    /\ zfs.errs unit st' !! 2%nat = Some None.
Proof.
  cbv zeta.
  destruct (doDestroy_with_destroyer_that_never_fails unit obligingDestroyer 0
              [ {| zfs.Filesystem := "tank/b"; zfs.Name := "s1"; zfs.ErrOut := 0 |};
                {| zfs.Filesystem := ""; zfs.Name := "s2"; zfs.ErrOut := 1 |};
                {| zfs.Filesystem := "tank/a"; zfs.Name := "s3"; zfs.ErrOut := 2 |};
                {| zfs.Filesystem := "tank/a"; zfs.Name := "s1"; zfs.ErrOut := 3 |} ]%nat
              {| zfs.errs := ∅; zfs.destroyer := tt; zfs.destroyed := [] |}
              (fun d args => eq_refl)) as (st' & Hret & Hlog & Herrs).
  exists st'. split; [exact Hret|]. split.
  - rewrite Hlog. reflexivity.
  - apply (Herrs {| zfs.Filesystem := "tank/a"; zfs.Name := "s3"; zfs.ErrOut := 2%nat |});
      [simpl; auto | reflexivity].
Defined.

(** ** The batches *)

Section BatchLimit.

Variable D : Type.
Variable Destroy : D -> list string -> D * option zfs.error.
Variable maxBatchSize : Z.

Lemma takeBatch_length (fs : string) (l : list zfs.DestroySnapOp) :
  forall taken b remainder,
    zfs.takeBatch maxBatchSize fs taken l = (b, remainder) ->
    1 <= maxBatchSize -> taken <= maxBatchSize ->
    taken + Z.of_nat (length b) <= maxBatchSize.
Proof.
  induction l as [|r rest IH]; intros taken b remainder H Hmax Htaken;
    cbn [zfs.takeBatch] in H.
  - inversion H. simpl. lia.
  - destruct ((Z.ltb maxBatchSize 1 || Z.ltb taken maxBatchSize)
              && String.eqb (zfs.Filesystem r) fs) eqn:Hcond.
    + destruct (zfs.takeBatch maxBatchSize fs (taken + 1) rest) as [b' rem'] eqn:Hrec.
      inversion H; subst.
      apply andb_true_iff in Hcond as [Hroom _]. apply orb_true_iff in Hroom as [Hno|Hroom].
      * apply Z.ltb_lt in Hno. lia.
      * apply Z.ltb_lt in Hroom. specialize (IH _ _ _ Hrec Hmax ltac:(lia)).
        cbn [length]. lia.
    + inversion H. simpl. lia.
Qed.

Lemma groupBatches_length (fuel : nat) :
  forall sorted : list zfs.DestroySnapOp,
    1 <= maxBatchSize ->
    Forall (fun b => Z.of_nat (length b) <= maxBatchSize)
           (zfs.groupBatches maxBatchSize fuel sorted).
Proof.
  induction fuel as [|fuel IH]; intros [|r rest] Hmax; cbn [zfs.groupBatches];
    try constructor.
  - destruct (zfs.takeBatch maxBatchSize (zfs.Filesystem r) 0 (r :: rest))
      as [b remainder] eqn:Htake.
    constructor; [|apply IH; exact Hmax].
    pose proof (takeBatch_length _ _ _ _ _ Htake Hmax ltac:(lia)). lia.
Qed.

(** X19.  With a batch size limit of at least 1, no batch of buildBatches
    holds more requests than the limit, and doDestroy never asks the
    destroyer for more snapshots in one call than the limit, whatever the
    destroyer answers. *)
Theorem doDestroy_respects_batch_limit (reqs : list zfs.DestroySnapOp) (st : zfs.State D) :
  1 <= maxBatchSize ->
  Forall (fun b => Z.of_nat (length b) <= maxBatchSize) (zfs.buildBatches maxBatchSize reqs)
  /\ exists st' calls_,
       zfs.doDestroy D Destroy maxBatchSize reqs st = Some (Returns st')
       /\ zfs.destroyed D st' = zfs.destroyed D st ++ calls_
       /\ Forall (fun call => Z.of_nat (length (fst call)) <= maxBatchSize) calls_.
Proof.
  intros Hmax.
  assert (Hbatches : forall l,
             Forall (fun b => Z.of_nat (length b) <= maxBatchSize)
                    (zfs.buildBatches maxBatchSize l)).
  { intros l. unfold zfs.buildBatches. destruct l; [constructor|].
    apply groupBatches_length. exact Hmax. }
  split; [apply Hbatches|].
  destruct (doDestroy_Runs D Destroy maxBatchSize reqs st)
    as (st1 & st' & _ & Hlog1 & _ & _ & Hret & Hruns).
  apply Runs_log in Hruns as (calls_ & Hlog & Hwf & _).
  exists st', calls_. split; [exact Hret|]. split; [now rewrite Hlog, Hlog1|].
  eapply List.Forall_impl; [|exact Hwf].
  intros call (b & Hb & _ & Hlen & _).
  specialize (Hbatches (List.filter validOp reqs)).
  rewrite List.Forall_forall in Hbatches. specialize (Hbatches b Hb). lia.
Qed.

End BatchLimit.

Lemma doDestroy_respects_batch_limit_witness :
  let op fs name p := {| zfs.Filesystem := fs; zfs.Name := name; zfs.ErrOut := p |} in
  let reqs := [op "tank/a" "s1" 0; op "tank/a" "s2" 1; op "tank/a" "s3" 2]%nat in
  Forall (fun b => Z.of_nat (length b) <= 2) (zfs.buildBatches 2 reqs)
  /\ map (map zfs.Name) (zfs.buildBatches 2 reqs) = [["s1"; "s2"]; ["s3"]].
Proof.
  cbv zeta. split; [|reflexivity].
  exact (proj1 (doDestroy_respects_batch_limit unit obligingDestroyer 2
                  [ {| zfs.Filesystem := "tank/a"; zfs.Name := "s1"; zfs.ErrOut := 0 |};
                    {| zfs.Filesystem := "tank/a"; zfs.Name := "s2"; zfs.ErrOut := 1 |};
                    {| zfs.Filesystem := "tank/a"; zfs.Name := "s3"; zfs.ErrOut := 2 |} ]%nat
                  {| zfs.errs := ∅; zfs.destroyer := tt; zfs.destroyed := [] |}
                  ltac:(lia))).
Defined.

(** *** The order of the batches *)

Lemma Ascii_compare_refl (c : ascii) : Ascii.compare c c = Eq.
Proof. unfold Ascii.compare. apply N.compare_refl. Qed.

Lemma String_compare_refl (s : string) : String.compare s s = Eq.
Proof.
  induction s as [|c s IH]; [reflexivity|].
  cbn [String.compare]. rewrite Ascii_compare_refl. exact IH.
Qed.

Lemma String_compare_lt_trans (a : string) :
  forall b c,
    String.compare a b = Lt -> String.compare b c = Lt -> String.compare a c = Lt.
Proof.
  induction a as [|x a IH]; intros [|y b] [|z c]; cbn [String.compare];
    try discriminate; try reflexivity.
  destruct (Ascii.compare x y) eqn:Hxy; try discriminate;
    destruct (Ascii.compare y z) eqn:Hyz; try discriminate; intros Hab Hbc.
  - apply Ascii.compare_eq_iff in Hxy, Hyz. subst.
    rewrite Ascii_compare_refl. eapply IH; eauto.
  - apply Ascii.compare_eq_iff in Hxy. subst. rewrite Hyz. reflexivity.
  - apply Ascii.compare_eq_iff in Hyz. subst. rewrite Hxy. reflexivity.
  - unfold Ascii.compare in *. rewrite N.compare_lt_iff in *.
    assert (H : (N_of_ascii x < N_of_ascii z)%N) by lia.
    apply N.compare_lt_iff in H. rewrite H. reflexivity.
Qed.

Lemma String_compare_lt_le_trans (a b c : string) :
  String.compare a b = Lt -> String.compare b c <> Gt -> String.compare a c = Lt.
Proof.
  intros Hab Hbc. destruct (String.compare b c) eqn:E; [| |congruence].
  - apply String.compare_eq_iff in E. now subst.
  - eapply String_compare_lt_trans; eauto.
Qed.

Lemma String_compare_le_lt_trans (a b c : string) :
  String.compare a b <> Gt -> String.compare b c = Lt -> String.compare a c = Lt.
Proof.
  intros Hab Hbc. destruct (String.compare a b) eqn:E; [| |congruence].
  - apply String.compare_eq_iff in E. now subst.
  - eapply String_compare_lt_trans; eauto.
Qed.

Lemma String_compare_le_trans (a b c : string) :
  String.compare a b <> Gt -> String.compare b c <> Gt -> String.compare a c <> Gt.
Proof.
  intros Hab Hbc. destruct (String.compare a b) eqn:E; [| |congruence].
  - apply String.compare_eq_iff in E. now subst.
  - rewrite (String_compare_lt_le_trans _ _ _ E Hbc). discriminate.
Qed.

Lemma String_compare_gt_lt (a b : string) :
  String.compare a b = Gt <-> String.compare b a = Lt.
Proof.
  rewrite (String.compare_antisym b a). destruct (String.compare a b); simpl; split;
    congruence.
Qed.

(** [lessOp] is the strict part of the order by filesystem, then name. *)
Lemma lessOp_true_iff (a b : zfs.DestroySnapOp) :
  zfs.lessOp a b = true
  <-> String.compare (zfs.Filesystem a) (zfs.Filesystem b) = Lt
      \/ (zfs.Filesystem a = zfs.Filesystem b
          /\ String.compare (zfs.Name a) (zfs.Name b) = Lt).
Proof.
  unfold zfs.lessOp.
  destruct (String.compare (zfs.Filesystem a) (zfs.Filesystem b)) eqn:Efs.
  - apply String.compare_eq_iff in Efs.
    destruct (String.compare (zfs.Name a) (zfs.Name b));
      (split; [intros H; try discriminate; auto | intros [H|[_ H]]; congruence]).
  - split; auto.
  - split; [discriminate|]. intros [H|[H _]]; [discriminate|].
    rewrite H, String_compare_refl in Efs. discriminate.
Qed.

Lemma notAfter_iff (a b : zfs.DestroySnapOp) :
  notAfter a b
  <-> String.compare (zfs.Filesystem a) (zfs.Filesystem b) = Lt
      \/ (zfs.Filesystem a = zfs.Filesystem b
          /\ String.compare (zfs.Name a) (zfs.Name b) <> Gt).
Proof.
  unfold notAfter. rewrite <- not_true_iff_false, lessOp_true_iff. split.
  - intros H.
    destruct (String.compare (zfs.Filesystem a) (zfs.Filesystem b)) eqn:Efs; auto.
    + right. apply String.compare_eq_iff in Efs. split; [exact Efs|].
      intros Hgt. apply String_compare_gt_lt in Hgt. apply H. auto.
    + exfalso. apply String_compare_gt_lt in Efs. apply H. auto.
  - intros [Hlt|[Heq Hle]] [Hba|[Hfs Hba]].
    + pose proof (String_compare_lt_trans _ _ _ Hlt Hba) as Hrefl.
      rewrite String_compare_refl in Hrefl. discriminate.
    + rewrite Hfs, String_compare_refl in Hlt. discriminate.
    + rewrite Heq, String_compare_refl in Hba. discriminate.
    + apply String_compare_gt_lt in Hba. congruence.
Qed.

Lemma notAfter_trans (a b c : zfs.DestroySnapOp) :
  notAfter a b -> notAfter b c -> notAfter a c.
Proof.
  rewrite !notAfter_iff. intros [Hab|[Hab Nab]] [Hbc|[Hbc Nbc]].
  - left. eapply String_compare_lt_trans; eauto.
  - left. rewrite <- Hbc. exact Hab.
  - left. rewrite Hab. exact Hbc.
  - right. split; [congruence|]. eapply String_compare_le_trans; eauto.
Qed.

Lemma notAfter_of_less (a b : zfs.DestroySnapOp) :
  zfs.lessOp a b = true -> notAfter a b.
Proof.
  rewrite lessOp_true_iff, notAfter_iff. intros [H|[H1 H2]]; [auto|].
  right. split; [exact H1 | congruence].
Qed.

Lemma notAfter_fs (a b : zfs.DestroySnapOp) : notAfter a b -> fsNotAfter a b.
Proof.
  rewrite notAfter_iff. unfold fsNotAfter. intros [H|[H _]]; [congruence|].
  rewrite H, String_compare_refl. discriminate.
Qed.

Lemma insertOp_sorted x (l : list zfs.DestroySnapOp) :
  StronglySorted notAfter l -> StronglySorted notAfter (zfs.insertOp x l).
Proof.
  induction 1 as [|y l Hsorted IH Hy]; cbn [zfs.insertOp].
  - repeat constructor.
  - destruct (zfs.lessOp y x) eqn:Hyx.
    + constructor; [exact IH|].
      apply List.Forall_forall. intros z Hz.
      apply (Permutation_in _ (insertOp_perm x l)) in Hz as [<-|Hz].
      * now apply notAfter_of_less.
      * rewrite List.Forall_forall in Hy. auto.
    + constructor; [now constructor|].
      constructor; [exact Hyx|].
      eapply List.Forall_impl; [|exact Hy]. intros z. now apply notAfter_trans.
Qed.

Lemma sortStable_sorted (l : list zfs.DestroySnapOp) :
  StronglySorted notAfter (zfs.sortStable l).
Proof.
  induction l as [|x l IH]; cbn [zfs.sortStable]; [constructor|].
  now apply insertOp_sorted.
Qed.

Section BatchOrder.

Variable maxBatchSize : Z.

(** X20.  Whatever the batch size limit, the batches of buildBatches, one
    after the other, are the requests in the order of the stable sort: a
    permutation of the requests in which no request comes before one that is
    less than it by filesystem and then by name. *)
Theorem buildBatches_in_sorted_order (reqs : list zfs.DestroySnapOp) :
  concat (zfs.buildBatches maxBatchSize reqs) = zfs.sortStable reqs
  /\ Permutation (zfs.sortStable reqs) reqs
  /\ StronglySorted notAfter (zfs.sortStable reqs).
Proof.
  split; [|split; [apply sortStable_perm | apply sortStable_sorted]].
  unfold zfs.buildBatches. destruct reqs as [|r reqs]; [reflexivity|].
  apply groupBatches_spec. apply Nat.le_refl.
Qed.

Lemma StronglySorted_app_r {A : Type} (R : A -> A -> Prop) (l1 l2 : list A) :
  StronglySorted R (l1 ++ l2) -> StronglySorted R l2.
Proof.
  induction l1 as [|x l1 IH]; [auto|]. cbn [app]. intros H.
  apply StronglySorted_inv in H as [H _]. auto.
Qed.

Lemma takeBatch_unlimited (fs : string) (l : list zfs.DestroySnapOp) :
  maxBatchSize < 1 ->
  forall taken b remainder,
    zfs.takeBatch maxBatchSize fs taken l = (b, remainder) ->
    match remainder with
    | [] => True
    | h :: _ => zfs.Filesystem h <> fs
    end.
Proof.
  intros Hmax. induction l as [|r rest IH]; intros taken b remainder H;
    cbn [zfs.takeBatch] in H.
  - inversion H. exact I.
  - apply Z.ltb_lt in Hmax as Hno. rewrite Hno in H. cbn [orb andb] in H.
    destruct (String.eqb_spec (zfs.Filesystem r) fs) as [Heq|Hne].
    + destruct (zfs.takeBatch maxBatchSize fs (taken + 1) rest) as [b' rem'] eqn:Hrec.
      inversion H; subst. eapply IH; eauto.
    + inversion H; subst. exact Hne.
Qed.

Lemma groupBatches_increasing (fuel : nat) :
  maxBatchSize < 1 ->
  forall sorted : list zfs.DestroySnapOp,
    (length sorted <= fuel)%nat ->
    StronglySorted fsNotAfter sorted ->
    StronglySorted batchBefore (zfs.groupBatches maxBatchSize fuel sorted)
    /\ Forall (fun b => exists x, In x sorted /\ batchFilesystem b = zfs.Filesystem x)
              (zfs.groupBatches maxBatchSize fuel sorted).
Proof.
  intros Hmax.
  induction fuel as [|fuel IH]; intros [|r rest] Hlen Hsorted; cbn [zfs.groupBatches];
    try (split; constructor).
  - destruct (takeBatch_head maxBatchSize r rest) as (b & remainder & Htake).
    rewrite Htake.
    pose proof (takeBatch_unlimited _ _ Hmax _ _ _ Htake) as Hhead.
    apply takeBatch_spec in Htake as [Hsplit _].
    assert (Hrem : (length remainder <= fuel)%nat).
    { apply (f_equal (@length _)) in Hsplit. cbn [length app] in Hsplit.
      rewrite length_app in Hsplit. simpl in Hlen. lia. }
    assert (Hsorted' : StronglySorted fsNotAfter remainder).
    { rewrite Hsplit in Hsorted. change (r :: b ++ remainder) with ((r :: b) ++ remainder)
        in Hsorted. now apply StronglySorted_app_r in Hsorted. }
    destruct (IH remainder Hrem Hsorted') as [Hinc Hfs].
    assert (Hin : forall x, In x remainder -> In x (r :: rest)).
    { intros x Hx. rewrite Hsplit. right. apply in_or_app. auto. }
    split.
    + constructor; [exact Hinc|].
      eapply List.Forall_impl; [|exact Hfs]. intros b' (x & Hx & Hb').
      unfold batchBefore. cbn [batchFilesystem]. rewrite Hb'.
      destruct remainder as [|h rem']; [contradiction|].
      assert (Hrh : String.compare (zfs.Filesystem r) (zfs.Filesystem h) = Lt).
      { apply StronglySorted_inv in Hsorted as [_ Hr].
        rewrite List.Forall_forall in Hr.
        assert (Hle : fsNotAfter r h) by (apply Hr; inversion Hsplit; subst;
                                          apply in_or_app; right; left; reflexivity).
        unfold fsNotAfter in Hle.
        destruct (String.compare (zfs.Filesystem r) (zfs.Filesystem h)) eqn:E;
          [|reflexivity|congruence].
        apply String.compare_eq_iff in E. congruence. }
      destruct Hx as [<-|Hx]; [exact Hrh|].
      apply StronglySorted_inv in Hsorted' as [_ Hh].
      rewrite List.Forall_forall in Hh.
      eapply String_compare_lt_le_trans; [exact Hrh | apply Hh; exact Hx].
    + constructor; [exists r; split; [left|]; reflexivity|].
      eapply List.Forall_impl; [|exact Hfs]. intros b' (x & Hx & Hb'). eauto.
Qed.

Lemma StronglySorted_batchBefore_NoDup (l : list (list zfs.DestroySnapOp)) :
  StronglySorted batchBefore l -> List.NoDup (map batchFilesystem l).
Proof.
  induction 1 as [|b l _ IH Hb]; cbn [map]; constructor; [|exact IH].
  intros Hin. apply in_map_iff in Hin as (b' & Heq & Hb').
  rewrite List.Forall_forall in Hb. specialize (Hb b' Hb').
  unfold batchBefore in Hb. rewrite Heq, String_compare_refl in Hb. discriminate.
Qed.

(** X21.  Without a batch size limit (a limit below 1) buildBatches makes
    one batch for each filesystem, in the order of the filesystems: the
    filesystems of the batches increase strictly, so no two batches are on
    the same filesystem, and a batch holds every request of its
    filesystem. *)
Theorem buildBatches_one_batch_per_filesystem (reqs : list zfs.DestroySnapOp) :
  maxBatchSize < 1 ->
  StronglySorted batchBefore (zfs.buildBatches maxBatchSize reqs)
  /\ List.NoDup (map batchFilesystem (zfs.buildBatches maxBatchSize reqs))
  /\ forall b r,
       In b (zfs.buildBatches maxBatchSize reqs) ->
       In r reqs -> zfs.Filesystem r = batchFilesystem b -> In r b.
Proof.
  intros Hmax.
  assert (Hinc : StronglySorted batchBefore (zfs.buildBatches maxBatchSize reqs)).
  { unfold zfs.buildBatches. destruct reqs as [|r0 reqs]; [constructor|].
    apply groupBatches_increasing; [exact Hmax | apply Nat.le_refl|].
    induction (sortStable_sorted (r0 :: reqs)) as [|x l _ IH Hx]; constructor; [exact IH|].
    eapply List.Forall_impl; [|exact Hx]. intros y. apply notAfter_fs. }
  split; [exact Hinc|]. split; [now apply StronglySorted_batchBefore_NoDup|].
  intros b r Hb Hr Hfs.
  destruct (buildBatches_spec maxBatchSize reqs) as [Hperm Hall].
  apply (Permutation_in _ (Permutation_sym Hperm)) in Hr.
  apply in_concat in Hr as (b' & Hb' & Hrb').
  assert (Hfs' : batchFilesystem b' = zfs.Filesystem r).
  { rewrite List.Forall_forall in Hall. destruct (Hall b' Hb') as [Hne Hsame].
    destruct b' as [|first rest]; [congruence|]. cbn [batchFilesystem].
    apply Hsame; [left; reflexivity | exact Hrb']. }
  assert (b' = b); [|now subst].
  clear - Hinc Hb Hb' Hfs Hfs'.
  induction Hinc as [|b0 l _ IH Hb0]; [contradiction|].
  rewrite List.Forall_forall in Hb0. unfold batchBefore in Hb0.
  destruct Hb as [->|Hb], Hb' as [->|Hb']; auto.
  - specialize (Hb0 b' Hb'). rewrite Hfs', Hfs, String_compare_refl in Hb0. discriminate.
  - specialize (Hb0 b Hb). rewrite <- Hfs, <- Hfs', String_compare_refl in Hb0.
    discriminate.
Qed.

End BatchOrder.

Lemma buildBatches_one_batch_per_filesystem_witness :
  let op fs name p := {| zfs.Filesystem := fs; zfs.Name := name; zfs.ErrOut := p |} in
  let reqs := [op "tank/b" "s1" 0; op "tank/a" "s3" 1; op "tank/b" "s0" 2;
               op "tank/a" "s1" 3]%nat in
  List.NoDup (map batchFilesystem (zfs.buildBatches 0 reqs))
  /\ map (map zfs.Name) (zfs.buildBatches 0 reqs) = [["s1"; "s3"]; ["s0"; "s1"]].
Proof.
  cbv zeta. split; [|reflexivity].
  exact (proj1 (proj2 (buildBatches_one_batch_per_filesystem 0
                  [ {| zfs.Filesystem := "tank/b"; zfs.Name := "s1"; zfs.ErrOut := 0 |};
                    {| zfs.Filesystem := "tank/a"; zfs.Name := "s3"; zfs.ErrOut := 1 |};
                    {| zfs.Filesystem := "tank/b"; zfs.Name := "s0"; zfs.ErrOut := 2 |};
                    {| zfs.Filesystem := "tank/a"; zfs.Name := "s1"; zfs.ErrOut := 3 |} ]%nat
                  ltac:(lia)))).
Defined.

(** ** When the planning panics *)







(** ** A sender without snapshots *)

Section BookmarksOnly.

Variable IncrementalPath :
  list VersionPtr -> list VersionPtr -> list (option VersionPtr) * option error.
Variable Sort : list VersionPtr -> list VersionPtr.
Variable Parse : string -> option ResumeToken * option error.

(** X23.  A sender that holds versions but no snapshot is planned for as
    follows when the receiver has nothing and there is no resume token, the
    conflict being the one without common ancestor: under policy All the
    planning panics, the path of the resolver having the single entry nil;
    under policy MostRecent, the sender keeping to the protocol of the size
    estimate, the plan is a single step from nil to nil. *)
Theorem doPlanning_sender_without_snapshots
    (fs : Filesystem) (oneStep : bool) (rfsvs sfsvs sorted : list VersionPtr)
    (path : list (option VersionPtr)) (conflict : error) :
  planningWithoutToken Parse fs rfsvs sfsvs ->
  IncrementalPath rfsvs sfsvs = (path, Some conflict) ->
  As_ConflictNoCommonAncestor conflict = Some (sorted, []) ->
  sorted <> [] ->
  Forall (fun v => isSnapshot v = false) sorted ->
  (InitialReplication (policy_ConflictResolution (policy fs))
   = InitialReplicationAutoResolutionAll ->
   exists msg, doPlanning IncrementalPath Sort Parse fs oneStep = Panics msg)
  /\ (InitialReplication (policy_ConflictResolution (policy fs))
      = InitialReplicationAutoResolutionMostRecent ->
      SendDry_in_protocol (fs_sender fs) ->
      exists s,
        doPlanning IncrementalPath Sort Parse fs oneStep = Returns ([s], None)
        /\ stepTarget s = (None, None, "")).
Proof.
  intros Hplanning HIP Hnca Hne Hbm.
  rewrite (doPlanning_without_token _ _ _ _ _ _ oneStep Hplanning).
  unfold pathPlan, tryAutoresolveConflict.
  rewrite HIP, (As_NoCommonAncestor_not_MostRecent _ _ Hnca), Hnca.
  destruct sorted as [|v sorted]; [congruence|].
  assert (Hfilter : List.filter isSnapshot (v :: sorted) = []).
  { clear - Hbm. induction Hbm as [|x l Hx _ IH]; [reflexivity|].
    cbn [List.filter]. now rewrite Hx. }
  split; intros Hpol; rewrite Hpol.
  - rewrite appendSnapshots_filter, Hfilter. cbn [app map stepsOfPath]. eauto.
  - intros Hproto.
    assert (Hrecent : mostRecentSnap (v :: sorted) = None).
    { destruct (mostRecentSnap (v :: sorted)) as [s|] eqn:Hs; [|reflexivity].
      apply mostRecentSnap_In in Hs as [Hin Hsnap].
      rewrite List.Forall_forall in Hbm. rewrite (Hbm s Hin) in Hsnap. discriminate. }
    rewrite Hrecent. cbn [stepsOfPath pathSteps List.last].
    destruct (withSizeEstimates_returns fs [newStep fs None None ""] Hproto)
      as (steps' & Hest & Htargets).
    rewrite Hest. destruct steps' as [|s [|s' steps']]; try discriminate.
    exists s. split; [reflexivity|].
    cbn [map] in Htargets. injection Htargets as Hfrom Hto Htok.
    unfold stepTarget. now rewrite Hfrom, Hto, Htok.
Qed.

End BookmarksOnly.

Lemma doPlanning_sender_without_snapshots_witness :
  (exists msg,
      Examples.plan (PlannerExamples.freshFS (Examples.senderOf [Examples.bm])
                       InitialReplicationAutoResolutionAll) false = Panics msg)
  /\ exists s,
       Examples.plan (PlannerExamples.freshFS (Examples.senderOf [Examples.bm])
                        InitialReplicationAutoResolutionMostRecent) false
       = Returns ([s], None)
       /\ stepTarget s = (None, None, "").
Proof.
  split.
  - refine (proj1 (doPlanning_sender_without_snapshots
                     SpecModel.IncrementalPath
                     SpecModel.SortVersionListByCreateTXGThenBookmarkLTSnapshot
                     (SpecModel.ParseResumeToken Examples.issued)
                     (PlannerExamples.freshFS (Examples.senderOf [Examples.bm])
                        InitialReplicationAutoResolutionAll)
                     false [] [Examples.bm] [Examples.bm] []
                     (ConflictNoCommonAncestor [Examples.bm] []) _ eq_refl eq_refl _ _)
                  eq_refl).
    + repeat split; try discriminate. eexists _, _. repeat split.
    + discriminate.
    + repeat constructor.
  - refine (proj2 (doPlanning_sender_without_snapshots
                     SpecModel.IncrementalPath
                     SpecModel.SortVersionListByCreateTXGThenBookmarkLTSnapshot
                     (SpecModel.ParseResumeToken Examples.issued)
                     (PlannerExamples.freshFS (Examples.senderOf [Examples.bm])
                        InitialReplicationAutoResolutionMostRecent)
                     false [] [Examples.bm] [Examples.bm] []
                     (ConflictNoCommonAncestor [Examples.bm] []) _ eq_refl eq_refl _ _)
                  eq_refl (senderOf_in_protocol _)).
    + repeat split; try discriminate. eexists _, _. repeat split.
    + discriminate.
    + repeat constructor.
Defined.

(** * base2bufpool: the names of NoFitBehavior *)

Lemma NoFitBehavior_cases (i : N) :
  (i < 4)%N -> i = 0%N \/ i = 1%N \/ i = 2%N \/ i = 3%N.
Proof. lia. Qed.

Lemma NoFitBehaviorNameToValueMap_lookup (s : string) (v : N) :
  base2bufpool._NoFitBehaviorNameToValueMap !! s = Some v
  <-> (s = "Panic" /\ v = 0%N) \/ (s = "AllocateSmaller" /\ v = 1%N)
      \/ (s = "AllocateLarger" /\ v = 2%N) \/ (s = "Allocate" /\ v = 3%N).
Proof.
  unfold base2bufpool._NoFitBehaviorNameToValueMap.
  change (base2bufpool.slice base2bufpool._NoFitBehaviorName 0 5) with "Panic".
  change (base2bufpool.slice base2bufpool._NoFitBehaviorName 5 20) with "AllocateSmaller".
  change (base2bufpool.slice base2bufpool._NoFitBehaviorName 20 34) with "AllocateLarger".
  change (base2bufpool.slice base2bufpool._NoFitBehaviorName 34 42) with "Allocate".
  rewrite !lookup_insert_Some, lookup_empty. split.
  - intros [ [H1 H2] | [_ [ [H1 H2] | [_ [ [H1 H2] | [_ [ [H1 H2] | [_ H] ] ] ] ] ] ] ];
      try discriminate; subst; auto 6.
  - intros [[-> ->]|[[-> ->]|[[-> ->]|[-> ->]]]].
    + left. auto.
    + right. split; [discriminate|]. left. auto.
    + right. split; [discriminate|]. right. split; [discriminate|]. left. auto.
    + right. split; [discriminate|]. right. split; [discriminate|].
      right. split; [discriminate|]. left. auto.
Qed.

(** X24.  The names of NoFitBehavior round-trip.  IsANoFitBehavior holds
    for the values below 4 and for no other; the name String gives a value of
    the enum is read back by NoFitBehaviorString as that value; a string that
    NoFitBehaviorString accepts is the name String gives its value; and what
    String gives for a value outside the enum is no name: NoFitBehaviorString
    answers it with 0 and an error. *)
Theorem NoFitBehavior_names_round_trip :
  (forall i, base2bufpool.IsANoFitBehavior i = true <-> (i < 4)%N)
  /\ (forall i, base2bufpool.IsANoFitBehavior i = true ->
                base2bufpool.NoFitBehaviorString (base2bufpool.NoFitBehavior_String i)
                = (i, None))
  /\ (forall s v, base2bufpool.NoFitBehaviorString s = (v, None) ->
                  base2bufpool.NoFitBehavior_String v = s
                  /\ base2bufpool.IsANoFitBehavior v = true)
  /\ (forall i, base2bufpool.IsANoFitBehavior i = false ->
                exists e,
                  base2bufpool.NoFitBehaviorString (base2bufpool.NoFitBehavior_String i)
                  = (0%N, Some e)).
Proof.
  assert (Hmember : forall i, base2bufpool.IsANoFitBehavior i = true <-> (i < 4)%N).
  { intros i. unfold base2bufpool.IsANoFitBehavior, base2bufpool._NoFitBehaviorValues.
    cbn [existsb]. rewrite !orb_true_iff, !N.eqb_eq. lia. }
  split; [exact Hmember|]. split; [|split].
  - intros i Hi. apply Hmember, NoFitBehavior_cases in Hi.
    destruct Hi as [-> | [-> | [-> | ->] ] ]; reflexivity.
  - intros s v H. unfold base2bufpool.NoFitBehaviorString in H.
    destruct (base2bufpool._NoFitBehaviorNameToValueMap !! s) as [val|] eqn:Hlook;
      [|discriminate].
    inversion H; subst val.
    apply NoFitBehaviorNameToValueMap_lookup in Hlook.
    destruct Hlook as [[-> ->]|[[-> ->]|[[-> ->]|[-> ->]]]]; split; reflexivity.
  - intros i Hi.
    assert (Hout : (4 <= i)%N).
    { destruct (N.lt_ge_cases i 4) as [Hlt|Hge]; [|exact Hge].
      apply Hmember in Hlt. congruence. }
    unfold base2bufpool.NoFitBehaviorString, base2bufpool.NoFitBehavior_String.
    change (N.of_nat (length base2bufpool._NoFitBehaviorIndex) - 1)%N with 4%N.
    apply N.leb_le in Hout. rewrite Hout.
    destruct (base2bufpool._NoFitBehaviorNameToValueMap
                !! base2bufpool.format_NoFitBehavior i) as [val|] eqn:Hlook; [|eauto].
    apply NoFitBehaviorNameToValueMap_lookup in Hlook.
    unfold base2bufpool.format_NoFitBehavior in Hlook. cbn [String.append] in Hlook.
    destruct Hlook as [[H _]|[[H _]|[[H _]|[H _]]]]; discriminate.
Qed.

(** * monitor: the groups of snapshots *)

Lemma visit_spec (s : monitor.SnapPtr) (prefixes : list string) :
  forall j grouped,
    monitor.visit s prefixes j grouped
    = match firstMatch (monitor.Name (monitor.target s)) prefixes j with
      | Some k => alter (monitor.account s) k grouped
      | None => grouped
      end.
Proof.
  induction prefixes as [|p rest IH]; intros j grouped; cbn [monitor.visit firstMatch];
    [reflexivity|].
  destruct (String.eqb p "" || String.prefix p (monitor.Name (monitor.target s)));
    [reflexivity | apply IH].
Qed.

Lemma groupMembers_snoc (prefixes : list string) (j : nat)
    (done : list monitor.FilesystemVersion) (v : monitor.FilesystemVersion) :
  groupMembers prefixes j (done ++ [v])
  = groupMembers prefixes j done
    ++ match firstMatch (monitor.Name v) prefixes 0 with
       | Some k => if Nat.eqb k j then [v] else []
       | None => []
       end.
Proof.
  unfold groupMembers. rewrite List.filter_app. cbn [List.filter].
  destruct (firstMatch (monitor.Name v) prefixes 0) as [k|]; [|reflexivity].
  destruct (Nat.eqb k j); reflexivity.
Qed.

Lemma account_describes (snapshots members : list monitor.FilesystemVersion)
    (s : monitor.SnapPtr) (g : monitor.groupItem) :
  describes snapshots members g ->
  nth_error snapshots (monitor.idx s) = Some (monitor.target s) ->
  describes snapshots (members ++ [monitor.target s]) (monitor.account s g).
Proof.
  intros (Hcount & Hempty & Hfull) Hs. split; [|split].
  - cbn [monitor.account monitor.Count]. rewrite Hcount, length_app. cbn [length].
    rewrite Nat2Z.inj_add, Z.add_mod_idemp_l by lia. reflexivity.
  - intros H. apply app_eq_nil in H as [_ H]. discriminate.
  - intros _. cbn [monitor.account monitor.Oldest monitor.Latest].
    destruct members as [|m members].
    + destruct (Hempty eq_refl) as [-> ->].
      exists s, s. repeat split; auto; try (left; reflexivity).
      repeat constructor; lia.
    + destruct (Hfull ltac:(discriminate)) as (o & l & -> & -> & Ho & Hl & Hino & Hinl & Hall).
      rewrite List.Forall_forall in Hall.
      assert (Hol : monitor.Creation (monitor.target o)
                    <= monitor.Creation (monitor.target l))
        by (destruct (Hall _ Hino); lia).
      destruct (Z.ltb_spec (monitor.Creation (monitor.target s))
                           (monitor.Creation (monitor.target o))) as [Hlt|Hge];
        destruct (Z.ltb_spec (monitor.Creation (monitor.target l))
                             (monitor.Creation (monitor.target s))) as [Hgt|Hle];
        try lia.
      * exists s, l. repeat split; auto; try (apply in_or_app; auto; right; left; reflexivity).
        apply Forall_app. split.
        -- apply List.Forall_forall. intros x Hx. destruct (Hall x Hx). lia.
        -- repeat constructor; lia.
      * exists o, s. repeat split; auto; try (apply in_or_app; auto; right; left; reflexivity).
        apply Forall_app. split.
        -- apply List.Forall_forall. intros x Hx. destruct (Hall x Hx). lia.
        -- repeat constructor; lia.
      * exists o, l. repeat split; auto; try (apply in_or_app; auto).
        apply Forall_app. split.
        -- apply List.Forall_forall. intros x Hx. destruct (Hall x Hx). lia.
        -- repeat constructor; lia.
Qed.

Lemma groupLoop_spec (prefixes : list string) (todo : list monitor.FilesystemVersion) :
  forall (done : list monitor.FilesystemVersion) (grouped : list monitor.groupItem),
    (forall j g, grouped !! j = Some g ->
                 describes (done ++ todo) (groupMembers prefixes j done) g) ->
    length (monitor.groupLoop todo (length done) prefixes grouped) = length grouped
    /\ forall j g,
         monitor.groupLoop todo (length done) prefixes grouped !! j = Some g ->
         describes (done ++ todo) (groupMembers prefixes j (done ++ todo)) g.
Proof.
  induction todo as [|v rest IH]; intros done grouped Hinv; cbn [monitor.groupLoop].
  - rewrite app_nil_r in *. auto.
  - set (s := {| monitor.idx := length done; monitor.target := v |}).
    assert (Hs : nth_error (done ++ v :: rest) (monitor.idx s) = Some (monitor.target s)).
    { cbn [monitor.idx monitor.target s]. rewrite nth_error_app2 by lia.
      now rewrite Nat.sub_diag. }
    replace (S (length done)) with (length (done ++ [v]))
      by (rewrite length_app; simpl; lia).
    replace (done ++ v :: rest) with ((done ++ [v]) ++ rest) in *
      by (now rewrite <- app_assoc).
    destruct (IH (done ++ [v]) (monitor.visit s prefixes 0 grouped)) as [Hlen Hres].
    + intros j g Hg. rewrite visit_spec in Hg. rewrite groupMembers_snoc.
      cbn [monitor.target s] in Hg.
      destruct (firstMatch (monitor.Name v) prefixes 0) as [k|].
      * destruct (Nat.eqb_spec k j) as [->|Hne].
        -- rewrite list_lookup_alter_eq in Hg.
           destruct (grouped !! j) as [g0|] eqn:Hg0; [|discriminate].
           cbn in Hg. inversion Hg; subst g.
           apply (account_describes _ _ s); [apply Hinv; exact Hg0 | exact Hs].
        -- rewrite list_lookup_alter_ne in Hg by exact Hne.
           rewrite app_nil_r. apply Hinv. exact Hg.
      * rewrite app_nil_r. apply Hinv. exact Hg.
    + split; [|exact Hres]. rewrite Hlen, visit_spec.
      destruct (firstMatch _ _ _); [apply length_alter | reflexivity].
Qed.

(** X25.  groupSnapshots answers one group for each prefix, and each
    snapshot is counted in one group only, that of the first prefix it falls
    under (the empty prefix takes every snapshot).  Of the snapshots of its
    group an item holds their number, as a uint, and, when there are any,
    pointers into the list to one with the least and to one with the greatest
    creation time; Oldest and Latest are nil exactly for a group without
    snapshots. *)
Theorem groupSnapshots_describes_groups
    (snapshots : list monitor.FilesystemVersion) (prefixes : list string) :
  length (monitor.groupSnapshots snapshots prefixes) = length prefixes
  /\ forall j g,
       monitor.groupSnapshots snapshots prefixes !! j = Some g ->
       describes snapshots (groupMembers prefixes j snapshots) g.
Proof.
  unfold monitor.groupSnapshots.
  destruct (groupLoop_spec prefixes snapshots []
              (replicate (length prefixes) monitor.zeroItem)) as [Hlen Hres].
  - intros j g Hg. apply lookup_replicate in Hg as [-> _].
    split; [reflexivity|]. split; [auto | intros H; exfalso; apply H; reflexivity].
  - cbn [length app] in *. split; [|exact Hres].
    rewrite Hlen. apply length_replicate.
Qed.

(** * pruning: the grids NewKeepGrid accepts *)

Section KeepGridProperties.

Variable Regexp : Type.
Variable Compile : string -> Regexp + string.
Variable RetentionGrid : Type.
Variable NewGrid : list pruning.RetentionInterval -> RetentionGrid.
Variable keepAll : Z.

Lemma allPrevKeepCountAll_spec (prevRev : list pruning.RetentionInterval) :
  pruning.allPrevKeepCountAll keepAll prevRev = true
  <-> Forall (fun y => pruning.KeepCount y = keepAll) prevRev.
Proof.
  induction prevRev as [|x rest IH]; cbn [pruning.allPrevKeepCountAll].
  - split; [constructor | reflexivity].
  - destruct (Z.eqb_spec (pruning.KeepCount x) keepAll) as [Heq|Hne].
    + rewrite IH. split; [now constructor | intros H; now inversion H].
    + split; [discriminate | intros H; inversion H; contradiction].
Qed.

Lemma lengthsIncrease_spec (rest : list pruning.RetentionInterval) :
  forall prevRev,
    pruning.lengthsIncrease keepAll prevRev
      (List.last (map pruning.Length (rev prevRev)) 0) rest = true
    <-> forall before x after,
          rest = before ++ x :: after ->
          pruning.Length x < List.last (map pruning.Length (rev prevRev ++ before)) 0 ->
          Forall (fun y => pruning.KeepCount y = keepAll) (rev prevRev ++ before).
Proof.
  induction rest as [|x rest IH]; intros prevRev; cbn [pruning.lengthsIncrease].
  - split; [|reflexivity]. intros _ [|b before] y after H; discriminate.
  - assert (Hlast : List.last (map pruning.Length (rev (x :: prevRev))) 0 = pruning.Length x).
    { cbn [rev]. rewrite map_app. cbn [map]. apply last_last. }
    specialize (IH (x :: prevRev)). rewrite Hlast in IH.
    assert (Hstep : (forall before y after,
                        rest = before ++ y :: after ->
                        pruning.Length y
                        < List.last (map pruning.Length (rev (x :: prevRev) ++ before)) 0 ->
                        Forall (fun z => pruning.KeepCount z = keepAll)
                               (rev (x :: prevRev) ++ before))
                    <-> (forall before y after,
                            x :: rest = (x :: before) ++ y :: after ->
                            pruning.Length y
                            < List.last (map pruning.Length (rev prevRev ++ x :: before)) 0 ->
                            Forall (fun z => pruning.KeepCount z = keepAll)
                                   (rev prevRev ++ x :: before))).
    { cbn [rev]. split; intros H before y after Heq Hlt.
      - cbn [app] in Heq. inversion Heq; subst.
        specialize (H before y after eq_refl). rewrite <- app_assoc in H. apply H. exact Hlt.
      - subst rest. specialize (H before y after eq_refl).
        rewrite <- app_assoc. apply H. rewrite <- app_assoc in Hlt. exact Hlt. }
    assert (Hhead : (pruning.Length x < List.last (map pruning.Length (rev prevRev)) 0 ->
                     pruning.allPrevKeepCountAll keepAll prevRev = true)
                    <-> (pruning.Length x
                         < List.last (map pruning.Length (rev prevRev ++ [])) 0 ->
                         Forall (fun z => pruning.KeepCount z = keepAll)
                                (rev prevRev ++ []))).
    { rewrite app_nil_r, allPrevKeepCountAll_spec.
      split; intros H Hlt; specialize (H Hlt).
      - apply Forall_rev in H. exact H.
      - apply Forall_rev in H. now rewrite rev_involutive in H. }
    split.
    + intros Hcheck [|b before] y after Heq Hlt.
      * inversion Heq; subst. apply Hhead; [|exact Hlt]. intros Hshort.
        apply Z.ltb_lt in Hshort. rewrite Hshort in Hcheck.
        destruct (pruning.allPrevKeepCountAll keepAll prevRev); [reflexivity | discriminate].
      * inversion Heq; subst b.
        assert (Hrest : pruning.lengthsIncrease keepAll (x :: prevRev) (pruning.Length x) rest
                        = true).
        { destruct (Z.ltb _ _); [|exact Hcheck].
          destruct (pruning.allPrevKeepCountAll keepAll prevRev); [exact Hcheck | discriminate]. }
        pose proof (proj1 Hstep (proj1 IH Hrest)) as Hall. eapply Hall; eauto.
    + intros Hall.
      assert (Hrest : pruning.lengthsIncrease keepAll (x :: prevRev) (pruning.Length x) rest
                      = true).
      { apply (proj2 IH), (proj2 Hstep). intros before y after Heq.
        apply (Hall (x :: before) y after). exact Heq. }
      destruct (Z.ltb_spec (pruning.Length x)
                  (List.last (map pruning.Length (rev prevRev)) 0)) as [Hshort|_];
        [|exact Hrest].
      rewrite (proj2 Hhead (Hall [] x rest eq_refl) Hshort). exact Hrest.
Qed.

(** X26.  NewKeepGrid never reaches the panic of newKeepGrid.  It returns
    a rule or an error, never both, and it returns a rule exactly when the
    regular expression is not empty and compiles, the grid has at least one
    interval, and an interval is shorter than the one before it only where
    every interval before it keeps all snapshots; the rule then holds the
    compiled expression and the grid made of all intervals. *)
Theorem NewKeepGrid_accepts (in_ : pruning.PruneGrid) :
  exists rule err,
    pruning.NewKeepGrid Regexp Compile RetentionGrid NewGrid keepAll in_
    = Returns (rule, err)
    /\ (rule = None <-> err <> None)
    /\ forall kg,
         rule = Some kg
         <-> (pruning.Regex in_ <> ""
              /\ Compile (pruning.Regex in_) = inl (pruning.re Regexp RetentionGrid kg)
              /\ pruning.retentionGrid Regexp RetentionGrid kg = NewGrid (pruning.Grid in_)
              /\ pruning.Grid in_ <> []
              /\ gridInOrder keepAll (pruning.Grid in_)).
Proof.
  unfold pruning.NewKeepGrid.
  destruct (String.eqb_spec (pruning.Regex in_) "") as [Hempty|Hregex].
  { eexists _, _. split; [reflexivity|]. split; [split; [discriminate | reflexivity]|].
    intros kg. split; [discriminate | intros (H & _); contradiction]. }
  destruct (Compile (pruning.Regex in_)) as [r|e] eqn:Hcompile.
  2:{ eexists _, _. split; [reflexivity|]. split; [split; [discriminate | reflexivity]|].
      intros kg. split; [discriminate | intros (_ & H & _); discriminate]. }
  unfold pruning.newKeepGrid.
  destruct (pruning.Grid in_) as [|x grid] eqn:Hgrid; cbn [length Nat.eqb].
  { eexists _, _. split; [reflexivity|]. split; [split; [discriminate | reflexivity]|].
    intros kg. split; [discriminate | intros (_ & _ & _ & H & _); contradiction]. }
  pose proof (lengthsIncrease_spec (x :: grid) []) as Hspec. cbn [rev map List.last app] in Hspec.
  destruct (pruning.lengthsIncrease keepAll [] 0 (x :: grid)) eqn:Hcheck.
  - eexists _, _. split; [reflexivity|]. split; [split; [discriminate | congruence]|].
    intros kg. split.
    + intros H. inversion H; subst kg. cbn [pruning.re pruning.retentionGrid].
      split; [exact Hregex|]. split; [reflexivity|]. split; [reflexivity|].
      split; [discriminate|]. exact (proj1 Hspec eq_refl).
    + intros (_ & Hre & Hg & _). destruct kg as [g r']. cbn in Hre, Hg.
      inversion Hre; subst. reflexivity.
  - eexists _, _. split; [reflexivity|]. split; [split; [discriminate | reflexivity]|].
    intros kg. split; [discriminate|]. intros (_ & _ & _ & _ & Horder).
    pose proof (proj2 Hspec Horder). discriminate.
Qed.

End KeepGridProperties.

(** * The plans of the one-step policy *)

Lemma pathPlan_resolved IncrementalPath (fs : Filesystem) oneStep rfsvs sfsvs :
  pathPlan IncrementalPath fs oneStep rfsvs sfsvs
  = match resolvedPath IncrementalPath fs rfsvs sfsvs with
    | Panics msg => Panics msg
    | Returns (_, Some conflict) => Returns ([], Some conflict)
    | Returns (path, None) =>
        match stepsOfPath fs oneStep path with
        | Panics msg => Panics msg
        | Returns steps => Returns (steps, None)
        end
    end.
Proof.
  unfold pathPlan, resolvedPath. destruct (IncrementalPath rfsvs sfsvs) as [path0 [c|]];
    reflexivity.
Qed.

(** A path of three or more entries holds snapshots after its first entry,
    also when it is the resolver's. *)
Lemma resolvedPath_tail IncrementalPath (fs : Filesystem) rfsvs sfsvs path :
  IncrementalPath_snapshots_after_base IncrementalPath ->
  resolvedPath IncrementalPath fs rfsvs sfsvs = Returns (path, None) ->
  (length path <= 2)%nat \/ forallb isSnapshotEntry (tl path) = true.
Proof.
  intros Hcontract. unfold resolvedPath.
  destruct (IncrementalPath rfsvs sfsvs) as [path0 [c|]] eqn:HIP.
  - unfold tryAutoresolveConflict.
    destruct (As_ConflictMostRecentSnapshotAlreadyPresent c).
    { intros H. apply Returns_inj in H. inversion H. left. simpl. lia. }
    destruct (As_ConflictNoCommonAncestor c) as [[sorted [|rv rrest]]|]; try discriminate.
    destruct sorted as [|v sorted]; [discriminate|].
    destruct (InitialReplication (policy_ConflictResolution (policy fs)));
      try discriminate.
    + intros H. apply Returns_inj in H. apply (f_equal fst) in H. cbn [fst] in H.
      subst path. left. simpl. lia.
    + rewrite (appendSnapshots_filter (v :: sorted) [None]).
      intros H. apply Returns_inj in H. apply (f_equal fst) in H. cbn [fst] in H.
      subst path. right. cbn [app tl].
      apply forallb_forall. intros e He.
      apply in_map_iff in He as (x & <- & Hx). apply filter_In in Hx. apply Hx.
  - intros H. apply Returns_inj in H. inversion H; subst path0. right.
    eapply Hcontract; eauto.
Qed.

(** The steps the loop makes under the one-step policy: one step to the last
    entry, or the step to the second entry and the collapsed rest. *)
Lemma pathSteps_oneStep_cases (fs : Filesystem) e1 e2 (rest : list (option VersionPtr)) :
  rest = [] \/ forallb isSnapshotEntry (e2 :: rest) = true ->
  let last_ := List.last (e2 :: rest) None in
  pathSteps fs true last_ (e1 :: e2 :: rest) = [newStep fs e1 last_ ""]
  \/ (isSnapshotEntry e1 = false /\ isSnapshotEntry e2 = true
      /\ pathSteps fs true last_ (e1 :: e2 :: rest)
         = [newStep fs e1 e2 ""; newStep fs e2 last_ ""]).
Proof.
  intros Htail last_. rewrite pathSteps_cons.
  assert (Hsend : forall e, match e with Some f => true && isSnapshot f | None => false end
                            = isSnapshotEntry e) by (intros [f|]; reflexivity).
  rewrite Hsend. destruct (isSnapshotEntry e1) eqn:He1; [left; reflexivity|].
  destruct rest as [|e3 rest].
  - left. reflexivity.
  - right. destruct Htail as [Hnil|Hsnaps]; [discriminate|].
    cbn [forallb] in Hsnaps. apply andb_true_iff in Hsnaps as [He2 _].
    rewrite pathSteps_cons, Hsend, He2. auto.
Qed.

Lemma map_stepTarget_one (steps : list Step) (a : Step) :
  map stepTarget steps = [stepTarget a] ->
  exists s, steps = [s] /\ from s = from a /\ to s = to a /\ resumeToken s = resumeToken a.
Proof.
  destruct steps as [|s [|s' steps]]; try discriminate. cbn [map]. intros H.
  injection H as Hf Ht Htok. eauto.
Qed.

Lemma map_stepTarget_two (steps : list Step) (a b : Step) :
  map stepTarget steps = [stepTarget a; stepTarget b] ->
  exists s1 s2,
    steps = [s1; s2]
    /\ (from s1 = from a /\ to s1 = to a /\ resumeToken s1 = resumeToken a)
    /\ (from s2 = from b /\ to s2 = to b /\ resumeToken s2 = resumeToken b).
Proof.
  destruct steps as [|s1 [|s2 [|s3 steps]]]; try discriminate. cbn [map]. intros H.
  injection H as Hf1 Ht1 Htok1 Hf2 Ht2 Htok2. eexists _, _. repeat split; eauto.
Qed.

(** C1, as the code has it.  With the one-step policy every plan has at
    most two steps, as long as the incremental path holds only snapshots
    after its first entry.  A plan made from a path that is not empty, and a
    plan made for a decoded resume token, has one step or two.  One step
    alone goes from the first entry of the path to its last, or is the resume
    step.  Two steps occur only when the first step is one the planner never
    collapses, a resume step, a full send (from-version nil) or a send from a
    bookmark, and it is followed by the collapsed tail: one step without
    token that starts where the first step ended, at a snapshot, and ends at
    the last version of the path, which in the resume branch is the last
    snapshot of the sorted sender list. *)
Theorem C1_one_step_plan_has_at_most_two_steps
    (IncrementalPath :
       list VersionPtr -> list VersionPtr -> list (option VersionPtr) * option error)
    (Sort : list VersionPtr -> list VersionPtr)
    (Parse : string -> option ResumeToken * option error)
    (fs : Filesystem) (steps : list Step) :
  IncrementalPath_snapshots_after_base IncrementalPath ->
  doPlanning IncrementalPath Sort Parse fs true = Returns (steps, None) ->
  (length steps <= 2)%nat
  /\ (forall rfsvs sfsvs path,
         planningWithoutToken Parse fs rfsvs sfsvs ->
         resolvedPath IncrementalPath fs rfsvs sfsvs = Returns (path, None) ->
         path <> [] ->
         (length steps = 1%nat \/ length steps = 2%nat)
         /\ (forall s, steps = [s] ->
                       from s = hd None path /\ to s = List.last path None
                       /\ resumeToken s = "")
         /\ (forall s1 s2, steps = [s1; s2] ->
                           from s1 = hd None path
                           /\ neverCollapsed s1
                           /\ collapsedTail s1 s2 (List.last path None)))
  /\ (forall raw tok sfsvs,
         planningWithToken Parse fs raw tok sfsvs ->
         (length steps = 1%nat \/ length steps = 2%nat)
         /\ (forall s, steps = [s] -> resumeToken s = raw)
         /\ (forall s1 s2, steps = [s1; s2] ->
                           resumeToken s1 = raw
                           /\ neverCollapsed s1
                           /\ collapsedTail s1 s2
                                (List.last (map Some (List.filter isSnapshot (Sort sfsvs)))
                                   None))).
Proof.
  intros Hcontract Hplan. split; [|split].
  - assert (Hshape : oneStepShape (map stepTarget steps)).
    { apply doPlanning_inv in Hplan
        as [->|(steps0 & -> & [(r & tok & sfsvs & _ & Hraw & H)|(rfsvs & sfsvs & H)])].
      - split; [simpl; lia | discriminate].
      - eapply resumeSteps_oneStep; eauto.
      - eapply pathPlan_oneStep; eauto. }
    destruct Hshape as [Hlen _]. now rewrite length_map in Hlen.
  - intros rfsvs sfsvs path Hplanning Hpath Hne.
    rewrite (doPlanning_without_token _ _ _ _ _ _ true Hplanning) in Hplan.
    rewrite pathPlan_resolved, Hpath in Hplan.
    pose proof (resolvedPath_tail _ _ _ _ _ Hcontract Hpath) as Htail.
    destruct path as [|e1 [|e2 rest]]; [congruence | discriminate |].
    cbn [stepsOfPath] in Hplan. apply withSizeEstimates_targets in Hplan.
    change (List.last (e1 :: e2 :: rest) None) with (List.last (e2 :: rest) None) in *.
    cbn [hd].
    assert (Hrest : rest = [] \/ forallb isSnapshotEntry (e2 :: rest) = true).
    { destruct Htail as [Hshort|Hsnaps]; [|right; exact Hsnaps].
      left. destruct rest; [reflexivity | simpl in Hshort; lia]. }
    destruct (pathSteps_oneStep_cases fs e1 e2 rest Hrest) as [Hone|(He1 & He2 & Htwo)].
    + rewrite Hone in Hplan. apply map_stepTarget_one in Hplan as (s & -> & Hf & Ht & Htok).
      split; [left; reflexivity|]. split; [|intros s1 s2 H; discriminate].
      intros s' H. inversion H; subst s'. auto.
    + rewrite Htwo in Hplan.
      apply map_stepTarget_two in Hplan
        as (s1 & s2 & -> & (Hf1 & Ht1 & Htok1) & (Hf2 & Ht2 & Htok2)).
      cbn [newStep from to resumeToken] in *.
      split; [right; reflexivity|]. split; [intros s H; discriminate|].
      intros s1' s2' H. inversion H; subst s1' s2'.
      split; [exact Hf1|]. split.
      * right. rewrite Hf1. destruct e1 as [v|]; [right; exists v; auto | auto].
      * split; [congruence|]. split; [|split; [exact Htok2 | exact Ht2]].
        rewrite Hf2. destruct e2 as [v|]; [exists v; auto | discriminate].
  - intros raw tok sfsvs Hplanning.
    assert (Hraw : raw <> "") by apply Hplanning.
    rewrite (doPlanning_with_token IncrementalPath Sort Parse fs raw tok sfsvs true Hplanning)
      in Hplan.
    destruct (resumeSteps Sort fs true raw tok sfsvs) as [steps0 [e|]] eqn:Hres;
      [discriminate|].
    apply withSizeEstimates_targets in Hplan.
    destruct (resumeSteps_targets Sort fs true raw tok sfsvs steps0 Hres)
      as (fromV & toV & older & newer & Hsplit & Hsnap & Hguid & Htargets).
    cbv zeta in Htargets. rewrite Htargets in Hplan. cbn [andb] in Hplan.
    destruct (List.filter isSnapshot newer) as [|x snaps] eqn:Hf.
    + cbn in Hplan.
      apply (map_stepTarget_one steps (newStep fs fromV (Some toV) raw)) in Hplan
        as (s & -> & _ & _ & Htok).
      split; [left; reflexivity|]. split; [|intros s1 s2 H; discriminate].
      intros s' H. inversion H; subst s'. exact Htok.
    + cbn [length Nat.eqb negb] in Hplan.
      apply (map_stepTarget_two steps (newStep fs fromV (Some toV) raw)
               (newStep fs (Some toV) (Some (List.last (x :: snaps) toV)) "")) in Hplan
        as (s1 & s2 & -> & (Hf1 & Ht1 & Htok1) & (Hf2 & Ht2 & Htok2)).
      cbn [newStep from to resumeToken] in *.
      split; [right; reflexivity|]. split; [intros s H; discriminate|].
      intros s1' s2' H. inversion H; subst s1' s2'.
      split; [exact Htok1|]. split; [left; congruence|].
      split; [congruence|]. split; [exists toV; auto|]. split; [exact Htok2|].
      rewrite Ht2, Hsplit, List.filter_app. cbn [List.filter]. rewrite Hsnap, Hf.
      rewrite map_app, last_app_nonempty by discriminate.
      change (map Some (toV :: x :: snaps)) with (Some toV :: map Some (x :: snaps)).
      symmetry.
      change (List.last (Some toV :: map Some (x :: snaps)) None)
        with (List.last (map Some (x :: snaps)) None).
      apply last_map_Some. discriminate.
Qed.

Lemma C1_one_step_witness :
  let fs := Examples.fsOf InitialReplicationAutoResolutionAll
              [Examples.a; Examples.b; Examples.c] [] None in
  let s1 := Examples.withExpectedSize 100 (newStep fs None (Some Examples.a) "") in
  let s2 := Examples.withExpectedSize 100
              (newStep fs (Some Examples.a) (Some Examples.c) "") in
  Examples.plan fs true = Returns ([s1; s2], None)
  /\ neverCollapsed s1
  /\ collapsedTail s1 s2 (Some Examples.c).
Proof.
  cbv zeta. split; [vm_compute; reflexivity|].
  destruct (C1_one_step_plan_has_at_most_two_steps
              SpecModel.IncrementalPath
              SpecModel.SortVersionListByCreateTXGThenBookmarkLTSnapshot
              (SpecModel.ParseResumeToken Examples.issued)
              (Examples.fsOf InitialReplicationAutoResolutionAll
                 [Examples.a; Examples.b; Examples.c] [] None)
              _ SpecModel_IncrementalPath_snapshots_after_base
              ltac:(vm_compute; reflexivity)) as (_ & Hpath & _).
  destruct (Hpath [] [Examples.a; Examples.b; Examples.c]
              [None; Some Examples.a; Some Examples.b; Some Examples.c])
    as (_ & _ & Htwo).
  - repeat split; try discriminate. eexists _, _. repeat split.
  - reflexivity.
  - discriminate.
  - destruct (Htwo _ _ eq_refl) as (_ & Hnever & Htail). split; assumption.
Defined.

(** * The planner and the size estimate *)

Lemma incrementalSteps_rebase (fs fs' : Filesystem) (l : list VersionPtr) :
  incrementalSteps fs' l = map (rebase fs') (incrementalSteps fs l).
Proof.
  induction l as [|a [|b l] IH]; try reflexivity.
  change (incrementalSteps fs' (a :: b :: l))
    with (newStep fs' (Some a) (Some b) "" :: incrementalSteps fs' (b :: l)).
  change (incrementalSteps fs (a :: b :: l))
    with (newStep fs (Some a) (Some b) "" :: incrementalSteps fs (b :: l)).
  rewrite IH. reflexivity.
Qed.

Lemma pathSteps_rebase (fs fs' : Filesystem) oneStep lst (path : list (option VersionPtr)) :
  pathSteps fs' oneStep lst path = map (rebase fs') (pathSteps fs oneStep lst path).
Proof.
  induction path as [|e1 [|e2 rest] IH]; try reflexivity.
  rewrite !pathSteps_cons.
  destruct (match e1 with Some f => oneStep && isSnapshot f | None => false end);
    [reflexivity|].
  rewrite IH. reflexivity.
Qed.

Lemma resumeSteps_rebase Sort (fs fs' : Filesystem) oneStep raw tok sfsvs :
  resumeSteps Sort fs' oneStep raw tok sfsvs
  = (map (rebase fs') (fst (resumeSteps Sort fs oneStep raw tok sfsvs)),
     snd (resumeSteps Sort fs oneStep raw tok sfsvs)).
Proof.
  unfold resumeSteps.
  destruct (findResumeVersions tok (Sort sfsvs) 0 None None 0) as [[fromV toV] idx].
  destruct toV as [toV|]; [|reflexivity].
  destruct (ptr_eqb fromV (Some toV)); [reflexivity|].
  destruct (oneStep && Nat.ltb 1 _); cbn [fst snd map]; [reflexivity|].
  rewrite (incrementalSteps_rebase fs fs'). reflexivity.
Qed.

Lemma pathPlan_rebase IncrementalPath (fs fs' : Filesystem) oneStep rfsvs sfsvs :
  policy fs' = policy fs ->
  pathPlan IncrementalPath fs' oneStep rfsvs sfsvs
  = match pathPlan IncrementalPath fs oneStep rfsvs sfsvs with
    | Panics msg => Panics msg
    | Returns (steps, err) => Returns (map (rebase fs') steps, err)
    end.
Proof.
  intros Hpolicy. unfold pathPlan. rewrite Hpolicy.
  destruct (IncrementalPath rfsvs sfsvs) as [path0 conflict0].
  destruct (match conflict0 with
            | Some c => tryAutoresolveConflict c (policy_ConflictResolution (policy fs))
            | None => Returns (path0, None)
            end) as [[path [c|]]|]; try reflexivity.
  destruct path as [|e1 [|e2 rest]]; try reflexivity.
  cbn [stepsOfPath]. rewrite (pathSteps_rebase fs fs'). reflexivity.
Qed.

Lemma map_stepTarget_rebase (fs : Filesystem) (steps : list Step) :
  map stepTarget (map (rebase fs) steps) = map stepTarget steps.
Proof. rewrite map_map. apply map_ext. intros s. reflexivity. Qed.

(** The planning over a filesystem that differs in its sender's size
    estimate only: the same error and no steps, or the steps of the same
    versions and tokens handed to the other size estimate. *)
Lemma doPlanning_withSendDry IncrementalPath Sort Parse (fs : Filesystem) dry oneStep :
  match doPlanning IncrementalPath Sort Parse fs oneStep with
  | Panics _ => True
  | Returns (steps, Some e) =>
      doPlanning IncrementalPath Sort Parse (withSendDry fs dry) oneStep
      = Returns ([], Some e)
  | Returns (steps, None) =>
      exists steps0,
        map stepTarget steps = map stepTarget steps0
        /\ doPlanning IncrementalPath Sort Parse (withSendDry fs dry) oneStep
           = withSizeEstimates (withSendDry fs dry) (map (rebase (withSendDry fs dry)) steps0)
  end.
Proof.
  set (fs' := withSendDry fs dry).
  assert (Hfinish : forall steps0,
             match withSizeEstimates fs steps0 with
             | Panics _ => True
             | Returns (steps, Some e) => False
             | Returns (steps, None) =>
                 exists steps1,
                   map stepTarget steps = map stepTarget steps1
                   /\ withSizeEstimates fs' (map (rebase fs') steps0)
                      = withSizeEstimates fs' (map (rebase fs') steps1)
             end).
  { intros steps0. destruct (withSizeEstimates fs steps0) as [[steps [e|]]|] eqn:H; [| |exact I].
    - now apply withSizeEstimates_no_error in H.
    - exists steps0. split; [|reflexivity]. eapply withSizeEstimates_targets; eauto. }
  unfold doPlanning.
  change (senderFS fs') with (senderFS fs). change (receiverFS fs') with (receiverFS fs).
  change (listBothVersions fs') with (listBothVersions fs).
  change (needReceiverVersions fs') with (needReceiverVersions fs).
  destruct (IsPlaceholder (senderFS fs)).
  { destruct (receiverFS fs) as [r|]; [destruct (negb (IsPlaceholder r))|];
      try reflexivity; exists []; split; reflexivity. }
  destruct (listBothVersions fs) as [[sresp rresp] [e|]]; [reflexivity|].
  destruct (Nat.ltb (length (GetVersions sresp)) 1); [reflexivity|].
  set (rfsvs := if needReceiverVersions fs then GetVersions rresp else []).
  assert (Hpath : match
                    match pathPlan IncrementalPath fs oneStep rfsvs (GetVersions sresp) with
                    | Panics msg => Panics msg
                    | Returns (_, Some e) => Returns ([], Some e)
                    | Returns (steps, None) => withSizeEstimates fs steps
                    end
                  with
                  | Panics _ => True
                  | Returns (steps, Some e) =>
                      match pathPlan IncrementalPath fs' oneStep rfsvs (GetVersions sresp) with
                      | Panics msg => Panics msg
                      | Returns (_, Some e) => Returns ([], Some e)
                      | Returns (steps, None) => withSizeEstimates fs' steps
                      end = Returns ([], Some e)
                  | Returns (steps, None) =>
                      exists steps0,
                        map stepTarget steps = map stepTarget steps0
                        /\ match
                             pathPlan IncrementalPath fs' oneStep rfsvs (GetVersions sresp)
                           with
                           | Panics msg => Panics msg
                           | Returns (_, Some e) => Returns ([], Some e)
                           | Returns (steps, None) => withSizeEstimates fs' steps
                           end = withSizeEstimates fs' (map (rebase fs') steps0)
                  end).
  { rewrite (pathPlan_rebase IncrementalPath fs fs') by reflexivity.
    destruct (pathPlan IncrementalPath fs oneStep rfsvs (GetVersions sresp))
      as [[steps0 [e|]]|]; [reflexivity| |exact I].
    specialize (Hfinish steps0).
    destruct (withSizeEstimates fs steps0) as [[steps [e|]]|]; [contradiction| |exact I].
    exact Hfinish. }
  destruct (receiverFS fs) as [r|]; [|exact Hpath].
  destruct (negb (String.eqb (pdu.ResumeToken r) "")); [|exact Hpath].
  destruct (Parse (pdu.ResumeToken r)) as [tok [e|]]; [reflexivity|].
  destruct tok as [tok|]; [|exact Hpath].
  rewrite (resumeSteps_rebase Sort fs fs').
  destruct (resumeSteps Sort fs oneStep (pdu.ResumeToken r) tok (GetVersions sresp))
    as [steps0 [e|]]; cbn [fst snd]; [reflexivity|].
  specialize (Hfinish steps0).
  destruct (withSizeEstimates fs steps0) as [[steps [e|]]|]; [contradiction| |exact I].
  exact Hfinish.
Qed.

Lemma withSizeEstimates_failing (fs : Filesystem) (steps : list Step) :
  (forall req, snd (SendDry (fs_sender fs) req) <> None) ->
  withSizeEstimates fs steps = Returns (steps, None).
Proof.
  intros Hfail. unfold withSizeEstimates, updateSizeEstimates.
  destruct steps as [|s steps]; [reflexivity|].
  match goal with |- context [SendDry _ ?req] => specialize (Hfail req) end.
  destruct (SendDry (fs_sender fs) _) as [[resp|] [e|]]; try reflexivity;
    exfalso; apply Hfail; reflexivity.
Qed.

(** X3.  A plan comes with steps or with an error, never with both: when
    doPlanning returns an error, it returns no steps.  And no error it
    returns is one of the size estimate: the planning over a sender that
    differs in its answers to SendDry only, whatever these are, returns the
    same error. *)
Theorem doPlanning_error_has_no_steps
    (IncrementalPath :
       list VersionPtr -> list VersionPtr -> list (option VersionPtr) * option error)
    (Sort : list VersionPtr -> list VersionPtr)
    (Parse : string -> option ResumeToken * option error)
    (fs : Filesystem) (oneStep : bool) (steps : list Step) (e : error) :
  doPlanning IncrementalPath Sort Parse fs oneStep = Returns (steps, Some e) ->
  steps = []
  /\ forall dry,
       doPlanning IncrementalPath Sort Parse (withSendDry fs dry) oneStep
       = Returns ([], Some e).
Proof.
  intros H. split.
  - unfold doPlanning in H.
    repeat (break_match_in H; try discriminate; try (now inversion H);
            try (now apply withSizeEstimates_no_error in H)).
  - intros dry.
    pose proof (doPlanning_withSendDry IncrementalPath Sort Parse fs dry oneStep) as Hdry.
    rewrite H in Hdry. exact Hdry.
Qed.

Lemma doPlanning_error_has_no_steps_witness :
  let e := errorString
             "automatic conflict resolution for initial replication is disabled in config" in
  let fs := Examples.fsOf InitialReplicationAutoResolutionFail
              [Examples.a; Examples.b] [] None in
  Examples.plan fs true = Returns ([], Some e)
  /\ Examples.plan (withSendDry fs (fun _ => (None, Some (errorString "no estimate")))) true
     = Returns ([], Some e).
Proof.
  cbv zeta. split; [vm_compute; reflexivity|].
  apply (doPlanning_error_has_no_steps
           SpecModel.IncrementalPath
           SpecModel.SortVersionListByCreateTXGThenBookmarkLTSnapshot
           (SpecModel.ParseResumeToken Examples.issued)
           (Examples.fsOf InitialReplicationAutoResolutionFail
              [Examples.a; Examples.b] [] None) true []
           (errorString
              "automatic conflict resolution for initial replication is disabled in config")).
  vm_compute. reflexivity.
Defined.

(** X4.  Every step of a plan is a step of the planned filesystem that has
    not run: it points to the filesystem as its parent, carries the
    filesystem's two endpoints and has no byte counter.  When the sender
    fails every size estimate the plan is returned all the same: the planning
    over a sender that differs only in answering every SendDry with an error
    returns the same error, if any, and the steps of the same from-versions,
    to-versions and tokens, each with the expected size 0. *)
Theorem doPlanning_steps_belong_to_filesystem
    (IncrementalPath :
       list VersionPtr -> list VersionPtr -> list (option VersionPtr) * option error)
    (Sort : list VersionPtr -> list VersionPtr)
    (Parse : string -> option ResumeToken * option error)
    (fs : Filesystem) (oneStep : bool) (steps : list Step) (err : option error) :
  doPlanning IncrementalPath Sort Parse fs oneStep = Returns (steps, err) ->
  Forall (plannedFor fs) steps
  /\ ((forall req, snd (SendDry (fs_sender fs) req) <> None) ->
      Forall (fun s => expectedSize s = 0) steps)
  /\ forall dry,
       (forall req, snd (dry req) <> None) ->
       exists steps',
         doPlanning IncrementalPath Sort Parse (withSendDry fs dry) oneStep
         = Returns (steps', err)
         /\ map stepTarget steps' = map stepTarget steps
         /\ Forall (plannedFor (withSendDry fs dry)) steps'
         /\ Forall (fun s => expectedSize s = 0) steps'.
Proof.
  intros H.
  assert (Hown : Forall (plannedFor fs) steps
                 /\ ((forall req, snd (SendDry (fs_sender fs) req) <> None) ->
                     Forall (fun s => expectedSize s = 0) steps)).
  { apply doPlanning_branches in H as [->|(steps0 & Hest & Hfresh)].
    - split; constructor.
    - eapply withSizeEstimates_plannedFor; eauto. }
  split; [apply Hown|]. split; [apply Hown|].
  intros dry Hfail.
  pose proof (doPlanning_withSendDry IncrementalPath Sort Parse fs dry oneStep) as Hdry.
  rewrite H in Hdry. destruct err as [e|].
  - exists []. split; [exact Hdry|].
    assert (steps = []) as ->.
    { unfold doPlanning in H.
      repeat (break_match_in H; try discriminate; try (now inversion H);
              try (now apply withSizeEstimates_no_error in H)). }
    repeat split; constructor.
  - destruct Hdry as (steps0 & Htargets & Hdry).
    rewrite withSizeEstimates_failing in Hdry by exact Hfail.
    eexists. split; [exact Hdry|]. split; [now rewrite map_stepTarget_rebase|].
    split; apply List.Forall_forall; intros s Hs;
      apply in_map_iff in Hs as (s0 & <- & _); repeat split.
Qed.

Lemma doPlanning_steps_belong_to_filesystem_witness :
  let fs := Examples.fsOf InitialReplicationAutoResolutionAll
              [Examples.a; Examples.b; Examples.c] [Examples.a]
              (Some (Examples.receiverDescriptor "")) in
  let failing := fun _ : SendDryReq =>
                   (None : option SendDryRes, Some (errorString "no estimate")) in
  exists steps',
    Examples.plan (withSendDry fs failing) false = Returns (steps', None)
    /\ map stepTarget steps'
       = [(Some Examples.a, Some Examples.b, ""); (Some Examples.b, Some Examples.c, "")]
    /\ Forall (fun s => expectedSize s = 0) steps'.
Proof.
  cbv zeta.
  destruct (doPlanning_steps_belong_to_filesystem
              SpecModel.IncrementalPath
              SpecModel.SortVersionListByCreateTXGThenBookmarkLTSnapshot
              (SpecModel.ParseResumeToken Examples.issued)
              (Examples.fsOf InitialReplicationAutoResolutionAll
                 [Examples.a; Examples.b; Examples.c] [Examples.a]
                 (Some (Examples.receiverDescriptor ""))) false
              [Examples.withExpectedSize 100
                 (newStep (Examples.fsOf InitialReplicationAutoResolutionAll
                             [Examples.a; Examples.b; Examples.c] [Examples.a]
                             (Some (Examples.receiverDescriptor "")))
                    (Some Examples.a) (Some Examples.b) "");
               Examples.withExpectedSize 100
                 (newStep (Examples.fsOf InitialReplicationAutoResolutionAll
                             [Examples.a; Examples.b; Examples.c] [Examples.a]
                             (Some (Examples.receiverDescriptor "")))
                    (Some Examples.b) (Some Examples.c) "")]
              None ltac:(vm_compute; reflexivity)) as (_ & _ & Hdry).
  destruct (Hdry (fun _ => (None, Some (errorString "no estimate")))
              ltac:(intros req; cbn; discriminate))
    as (steps' & Hplan & Htargets & _ & Hzero).
  exists steps'. split; [exact Hplan|]. split; [exact Htargets | exact Hzero].
Defined.
